(** * The fracture pipeline of src/src/fracture.ts: host-side model and properties

    The development embeds the host code of [FractureTransform] (compaction,
    face sealing, fragment assembly, buffer allocation and the fracture loop)
    as Rocq functions and proves the properties the design document states
    about them.

    Conventions.
    - A JavaScript number is an IEEE 754 binary64 value: [spec_float] of the
      Standard Library at precision 53, with its arithmetic ([SFadd], ...).
    - A value that may be [undefined] is an [option number]; [None] is
      [undefined]. Reading a list (or typed array) past its end gives [None].
    - An [Int32Array] is a [list Z], a [Float32Array] a [list number].
    - A sparse JavaScript array indexed by cell or face id is a finite map of
      its properties together with its [length]. *)

From Stdlib Require Import ZArith Lia Floats.SpecFloat.
From stdpp Require Import base strings list gmap sorting.

(** ** JavaScript numbers *)

Module Number.

Definition prec : Z := 53.
Definition emax : Z := 1024.

Definition number : Type := spec_float.

(** [m * 2^e], rounded to binary64 and in canonical form. *)
Definition scaled (m e : Z) : number := binary_normalize prec emax m e false.
Definition of_int (z : Z) : number := scaled z 0.

Definition NaN : number := S754_nan.
Definition zero : number := S754_zero false.
Definition half : number := scaled 1 (-1).

Definition add : number → number → number := SFadd prec emax.
Definition sub : number → number → number := SFsub prec emax.
Definition mul : number → number → number := SFmul prec emax.
Definition div : number → number → number := SFdiv prec emax.

Definition is_nan (x : number) : bool :=
  match x with S754_nan => true | _ => false end.

(** [x <= y] of JavaScript: false as soon as one side is NaN. *)
Definition le (x y : number) : Prop := SFleb x y = true.

(** [Math.min] and [Math.max] on two numbers: NaN if either is NaN, and
    [-0] counts as smaller than [+0]. *)
Definition Math_min (x y : number) : number :=
  match SFcompare x y with
  | None => NaN
  | Some Lt => x
  | Some Gt => y
  | Some Eq =>
      match x, y with
      | S754_zero sx, S754_zero sy => S754_zero (sx || sy)
      | _, _ => x
      end
  end.

Definition Math_max (x y : number) : number :=
  match SFcompare x y with
  | None => NaN
  | Some Lt => y
  | Some Gt => x
  | Some Eq =>
      match x, y with
      | S754_zero sx, S754_zero sy => S754_zero (sx && sy)
      | _, _ => x
      end
  end.

(** Rounding to binary32 and back to the canonical binary64 form: what a
    store into a [Float32Array] followed by a read does. *)
Definition renormalize (p e : Z) (x : number) : number :=
  match x with
  | S754_finite s m ex => binary_normalize p e (cond_Zopp s (Zpos m)) ex s
  | _ => x
  end.
Definition fround (x : number) : number :=
  renormalize prec emax (renormalize 24 128 x).

(** [ToInt32] on an integral number: wrap-around to 32 signed bits, what a
    store into an [Int32Array] does. *)
Definition ToInt32 (z : Z) : Z := ((z + 2 ^ 31) mod 2 ^ 32 - 2 ^ 31)%Z.

Definition int32 (z : Z) : Prop := (- 2 ^ 31 ≤ z < 2 ^ 31)%Z.

End Number.

Export Number.

(** A number or [undefined]. *)
Definition value : Type := option number.
Definition undefined : value := None.

(** [ToNumber]: [undefined] becomes NaN. *)
Definition ToNumber (v : value) : number := default NaN v.

(** [new Int32Array(xs)] and [new Float32Array(xs)] from a JavaScript array. *)
Definition Int32Array_from (xs : list Z) : list Z := ToInt32 <$> xs.
Definition Float32Array_from (xs : list value) : list number :=
  (λ v, fround (ToNumber v)) <$> xs.

(** ** ourmath.js *)

Module OM.

Definition vec3 : Type := value * value * value.

(** Modelled from the spec: [OM.compwise] of ourmath.js, which is not among
    the sources; it applies a binary function componentwise ("track running
    axis-aligned min/max over all points"). *)
Definition compwise (f : value → value → number) (a b : vec3) : vec3 :=
  let '(a0, a1, a2) := a in
  let '(b0, b1, b2) := b in
  (Some (f a0 b0), Some (f a1 b1), Some (f a2 b2)).

(** Modelled from the spec: [OM.add3] of ourmath.js (absent), the
    componentwise sum used for "(min+max)" and for the centroid sum. *)
Definition add3 (a b : vec3) : vec3 :=
  compwise (λ x y, add (ToNumber x) (ToNumber y)) a b.

(** Modelled from the spec: [OM.sub3] of ourmath.js (absent), the
    componentwise difference of "max−min" and "point − center". *)
Definition sub3 (a b : vec3) : vec3 :=
  compwise (λ x y, sub (ToNumber x) (ToNumber y)) a b.

(** Modelled from the spec: [OM.mult3c] of ourmath.js (absent), scaling by a
    constant ("scaled by 0.5 / fragmentCount", "(min+max)/2"). *)
Definition mult3c (a : vec3) (c : number) : vec3 :=
  let '(a0, a1, a2) := a in
  (Some (mul (ToNumber a0) c), Some (mul (ToNumber a1) c),
   Some (mul (ToNumber a2) c)).

(** The spread [...v] of a three-element array. *)
Definition spread (a : vec3) : list value :=
  let '(a0, a1, a2) := a in [a0; a1; a2].

End OM.

(** [Math.min(a, b)] and [Math.max(a, b)] as called on array entries. *)
Definition Math_min_v (a b : value) : number := Math_min (ToNumber a) (ToNumber b).
Definition Math_max_v (a b : value) : number := Math_max (ToNumber a) (ToNumber b).

(** ** Sparse JavaScript arrays *)

Module Array.

(** An array object: its properties by key and its [length]. Only a key
    that is an array index ([0 <= k < 2^32 - 1]) moves [length]; any other
    key (a negative one, for instance) is an ordinary property, which a
    loop over [0 .. length-1] never visits. *)
Record t (A : Type) : Type := make { props : gmap Z A; length : Z }.
Arguments make {A} _ _.
Arguments props {A} _.
Arguments length {A} _.

Definition empty {A} : t A := make ∅ 0%Z.

Definition is_index (k : Z) : Prop := (0 ≤ k < 2 ^ 32 - 1)%Z.

Definition get {A} (a : t A) (k : Z) : option A := props a !! k.

(** [a[k] = v]. *)
Definition set {A} (a : t A) (k : Z) (v : A) : t A :=
  make (<[k := v]> (props a))
       (if decide (is_index k) then Z.max (length a) (k + 1) else length a).

(** Mutation of the object stored at [k], through a reference to it. *)
Definition update {A} (a : t A) (k : Z) (v : A) : t A :=
  make (<[k := v]> (props a)) (length a).

(** The values of [i] in [for (let i = 0; i < a.length; i++)]. *)
Definition indices {A} (a : t A) : list Z :=
  Z.of_nat <$> seq 0 (Z.to_nat (length a)).

End Array.

(** ** The Host Compactor *)

(** [floatNcompact] (fracture.ts, lines 632-644). The two [for] loops are folds
    over their index ranges; [push] appends. *)
Definition floatNcompact (N : nat) (index : list Z) (val : list number)
    : list Z * list value :=
  foldl (λ '(indices, values) i,
           match index !! i with
           | Some t =>
               if decide (t ≠ (-1)%Z)
               then (indices ++ [t],
                     foldl (λ values n, values ++ [val !! (i * N + n)])
                           values (seq 0 N))
               else (indices, values)
           | None => (indices, values)
           end)
        ([], []) (seq 0 (length index)).

(** The positions of the tag array that hold a tag other than [-1], in
    increasing order. *)
Definition kept (index : list Z) : list nat :=
  filter (λ i, index !! i ≠ Some (-1)%Z) (seq 0 (length index)).

(** The [N] consecutive entries that belong to position [i]. *)
Definition record_at (N : nat) (val : list number) (i : nat) : list value :=
  (λ n, val !! (i * N + n)) <$> seq 0 N.

(** ** Grouping into a sparse array *)

(** The positions of [keys] that hold the key [k], in increasing order. *)
Definition members (keys : list Z) (k : Z) : list nat :=
  filter (λ i, keys !! i = Some k) (seq 0 (length keys)).

(** The idiom shared by the first loop of [makeFace] and the "collect" loop
    of [doFracture]:
    [let c = arr[k]; if (!c) { c = arr[k] = init; } ... mutate c ...]
    for the key [k] of every position [i] in turn. *)
Definition group_by_key {A} (keys : list Z) (init : A) (step : nat → A → A)
    : Array.t A :=
  foldl (λ arr i,
           match keys !! i with
           | Some k =>
               let '(arr, c) :=
                 match Array.get arr k with
                 | Some c => (arr, c)
                 | None => (Array.set arr k init, init)
                 end in
               Array.update arr k (step i c)
           | None => arr
           end)
        Array.empty (seq 0 (length keys)).

(** One past the largest key that is an array index: the [length] of the
    array after the loop. *)
Definition key_count (keys : list Z) : Z :=
  foldl (λ L k, if decide (Array.is_index k) then Z.max L (k + 1) else L)
        0%Z keys.

(** ** The Face Sealer *)

(** A cut-edge fragment: its two end points. *)
Definition edge : Type := OM.vec3 * OM.vec3.

(** [points[k]] on a JavaScript array: [undefined] past the end. *)
Definition read (points : list value) (k : nat) : value := points !! k ≫= id.

(** The two points of fragment [i] (fracture.ts, lines 656-657): entries
    0-2 and 4-6 of its eight floats. *)
Definition edge_at (points : list value) (i : nat) : edge :=
  ((read points (i * 8 + 0), read points (i * 8 + 1), read points (i * 8 + 2)),
   (read points (i * 8 + 4), read points (i * 8 + 5), read points (i * 8 + 6))).

(** First loop of [makeFace] (lines 647-659): [faces[idx]] is created on the
    first fragment of [idx], and every fragment is pushed onto it. *)
Definition makeFace_group (indices : list Z) (points : list value)
    : Array.t (list edge) :=
  foldl (λ faces i,
           match indices !! i with
           | Some idx =>
               let '(faces, f) :=
                 match Array.get faces idx with
                 | Some f => (faces, f)
                 | None => (Array.set faces idx [], [])
                 end in
               Array.update faces idx (f ++ [edge_at points i])
           | None => faces
           end)
        Array.empty (seq 0 (length indices)).

(** Lines 669-673: the end points of the group are summed from [0, 0, 0]
    and the sum is scaled by [0.5 / f.length]. *)
Definition centroid (f : list edge) : OM.vec3 :=
  OM.mult3c
    (foldl (λ centr e, OM.add3 centr (OM.add3 e.1 e.2))
           (Some zero, Some zero, Some zero) f)
    (div half (of_int (Z.of_nat (length f)))).

(** The nine values pushed for one triangle (line 678). *)
Definition triangle (centr : OM.vec3) (e : edge) : list value :=
  OM.spread centr ++ OM.spread e.1 ++ OM.spread e.2.

(** Second loop of [makeFace] (lines 661-680). *)
Definition makeFace_emit (faces : Array.t (list edge)) : list Z * list value :=
  foldl (λ '(idxout, values) iface,
           match Array.get faces iface with
           | None => (idxout, values)
           | Some f =>
               let centr := centroid f in
               foldl (λ '(idxout, values) e,
                        (idxout ++ [iface], values ++ triangle centr e))
                     (idxout, values) f
           end)
        ([], []) (Array.indices faces).

(** [makeFace] (fracture.ts, lines 646-683). *)
Definition makeFace (indices : list Z) (points : list value)
    : list Z * list value :=
  makeFace_emit (makeFace_group indices points).

(** The fragments tagged [id], in input order: the group of [id]. *)
Definition group (indices : list Z) (points : list value) (id : Z) : list edge :=
  edge_at points <$> members indices id.

(** The triangle fan of a group: one triangle per fragment, all anchored at
    the centroid of the group. *)
Definition fan (g : list edge) : list value := g ≫= triangle (centroid g).

(** One past the largest face id that is an array index: the [length] of
    [faces] after the first loop. *)
Definition face_count (indices : list Z) : Z := key_count indices.

(** The face ids the second loop visits. *)
Definition face_ids (indices : list Z) : list Z :=
  Z.of_nat <$> seq 0 (Z.to_nat (face_count indices)).

(** The number of entries of [l] equal to [x]. *)
Definition occurrences (x : Z) (l : list Z) : nat := length (filter (λ y, y = x) l).

(** ** The compaction step *)

(** The host part of [outputToInput] (fracture.ts, lines 568-577), from the
    four arrays read back from the device to the new [arrtricells] and
    [arrtris]. *)
Definition outputToInput_arrays (arrtrioutcells : list Z) (arrtriout : list number)
    (arrnewoutcells : list Z) (arrnewout : list number) : list Z * list number :=
  let '(tricells, tris) := floatNcompact 12 arrtrioutcells arrtriout in
  let '(newcells, news) := floatNcompact 8 arrnewoutcells arrnewout in
  let '(indices, values) := makeFace newcells news in
  (Int32Array_from (tricells ++ indices), Float32Array_from (tris ++ values)).

(** ** The Fragment Assembler *)

Module CellFace.

(** The [CellFace] objects of [doFracture] (fracture.ts, lines 392-399). *)
Record t : Type := make {
  min : OM.vec3;
  max : OM.vec3;
  points : list OM.vec3;
  faces : list (nat * nat * nat);
  position : option OM.vec3;
  size : option OM.vec3;
}.

End CellFace.

Definition vec3_of (x : number) : OM.vec3 := (Some x, Some x, Some x).

(** The seeds of the running bounds (lines 408-409). *)
Definition seed_min : OM.vec3 := vec3_of (of_int 10000).
Definition seed_max : OM.vec3 := vec3_of (of_int (-10000)).

(** The object a bucket starts from (lines 405-410). *)
Definition new_cell : CellFace.t :=
  CellFace.make seed_min seed_max [] [] None None.

(** The point read at offset [off] of [arrtris] (line 415); an entry past the
    end of the typed array is [undefined]. *)
Definition vertex (arrtris : list number) (off : nat) : OM.vec3 :=
  (arrtris !! (off + 0), arrtris !! (off + 1), arrtris !! (off + 2)).

(** Lines 413-421: the three vertices of triangle [i] are pushed onto the
    bucket, the running bounds follow, and a face is recorded. *)
Definition collect_triangle (arrtris : list number) (i : nat) (c : CellFace.t)
    : CellFace.t :=
  let c :=
    foldl (λ c v,
             let off := i * 12 + v * 4 in
             let p := vertex arrtris off in
             CellFace.make (OM.compwise Math_min_v (CellFace.min c) p)
                           (OM.compwise Math_max_v (CellFace.max c) p)
                           (CellFace.points c ++ [p])
                           (CellFace.faces c) (CellFace.position c)
                           (CellFace.size c))
          c (seq 0 3) in
  let ci := length (CellFace.faces c) * 3 in
  CellFace.make (CellFace.min c) (CellFace.max c) (CellFace.points c)
                (CellFace.faces c ++ [(ci, ci + 1, ci + 2)])
                (CellFace.position c) (CellFace.size c).

(** The "collect" loop of [doFracture] (lines 400-422): the tag [t] of
    triangle [i] selects the bucket [t + 2]. *)
Definition collect (arrtricells : list Z) (arrtris : list number)
    : Array.t CellFace.t :=
  foldl (λ cellfaces i,
           match arrtricells !! i with
           | Some tag =>
               let idx := (tag + 2)%Z in
               let '(cellfaces, c) :=
                 match Array.get cellfaces idx with
                 | Some c => (cellfaces, c)
                 | None => (Array.set cellfaces idx new_cell, new_cell)
                 end in
               Array.update cellfaces idx (collect_triangle arrtris i c)
           | None => cellfaces
           end)
        Array.empty (seq 0 (length arrtricells)).

(** Lines 432-436 on one bucket. *)
Definition recenter_cell (c : CellFace.t) : CellFace.t :=
  let position := OM.mult3c (OM.add3 (CellFace.min c) (CellFace.max c)) half in
  CellFace.make (CellFace.min c) (CellFace.max c)
                ((λ p, OM.sub3 p position) <$> CellFace.points c)
                (CellFace.faces c) (Some position)
                (Some (OM.sub3 (CellFace.max c) (CellFace.min c))).

(** The "recenter" loop of [doFracture] (lines 426-437). *)
Definition recenter (cellfaces : Array.t CellFace.t) : Array.t CellFace.t :=
  foldl (λ cellfaces i,
           match Array.get cellfaces i with
           | None => cellfaces
           | Some c => Array.update cellfaces i (recenter_cell c)
           end)
        cellfaces (Array.indices cellfaces).

(** What [doFracture] returns for the final arrays (lines 390-439). *)
Definition assemble (arrtricells : list Z) (arrtris : list number)
    : Array.t CellFace.t :=
  recenter (collect arrtricells arrtris).

(** The loop of [transform] over the result (lines 306-313): one call of
    [makeFragmentFromVertices] per entry that exists, recorded as the entry's
    index and its flattened points. *)
Definition transform_fragments (fractured : Array.t CellFace.t)
    : list (Z * list value) :=
  foldl (λ made i,
           match Array.get fractured i with
           | Some fr => made ++ [(i, CellFace.points fr ≫= OM.spread)]
           | None => made
           end)
        [] (Array.indices fractured).

(** The three vertices of triangle [i], and the vertices of all triangles
    tagged [t], in order. *)
Definition triangle_vertices (arrtris : list number) (i : nat) : list OM.vec3 :=
  (λ v, vertex arrtris (i * 12 + v * 4)) <$> seq 0 3.
Definition tagged_points (arrtricells : list Z) (arrtris : list number) (t : Z)
    : list OM.vec3 :=
  members arrtricells t ≫= triangle_vertices arrtris.

(** Componentwise order of points, as JavaScript's [<=] on their
    coordinates; it fails on a coordinate that is NaN or [undefined]. *)
Definition le3 (a b : OM.vec3) : Prop :=
  let '(a0, a1, a2) := a in
  let '(b0, b1, b2) := b in
  le (ToNumber a0) (ToNumber b0) ∧ le (ToNumber a1) (ToNumber b1)
  ∧ le (ToNumber a2) (ToNumber b2).

(** [p] lies within the box from [lo] to [hi]. *)
Definition within (lo hi p : OM.vec3) : Prop := le3 lo p ∧ le3 p hi.

(** All three coordinates are numbers other than NaN. *)
Definition finite_or_inf (v : value) : Prop := ∃ x, v = Some x ∧ x ≠ NaN.
Definition no_nan (p : OM.vec3) : Prop :=
  let '(p0, p1, p2) := p in finite_or_inf p0 ∧ finite_or_inf p1 ∧ finite_or_inf p2.

(** The tight bounds of a non-empty point list: the running minimum and
    maximum started from its first point. *)
Definition tight_min (pts : list OM.vec3) : OM.vec3 :=
  match pts with
  | p :: pts => foldl (OM.compwise Math_min_v) p pts
  | [] => seed_min
  end.
Definition tight_max (pts : list OM.vec3) : OM.vec3 :=
  match pts with
  | p :: pts => foldl (OM.compwise Math_max_v) p pts
  | [] => seed_max
  end.

(** The faces recorded for [n] triangles (lines 420-421). *)
Definition face_list (n : nat) : list (nat * nat * nat) :=
  (λ j, (j * 3, j * 3 + 1, j * 3 + 2)) <$> seq 0 n.

(** The bucket that the triangles tagged [t] build, before recentering:
    their vertices, and the running bounds folded over them from the seeds. *)
Definition collected_bucket (arrtricells : list Z) (arrtris : list number) (t : Z)
    : CellFace.t :=
  let pts := tagged_points arrtricells arrtris t in
  CellFace.make (foldl (OM.compwise Math_min_v) seed_min pts)
                (foldl (OM.compwise Math_max_v) seed_max pts)
                pts (face_list (length (members arrtricells t))) None None.

(** ** GPU buffers and the compute passes *)

Module GPU.

(** A buffer viewed as an array of 4-byte elements: its size in bytes and
    its elements. *)
Record Buffer (A : Type) : Type := make { size : nat; contents : list A }.
Arguments make {A} _ _.
Arguments size {A} _.
Arguments contents {A} _.

(** [device.createBuffer({size})]: WebGPU hands out zero-initialised
    memory. *)
Definition createBuffer {A} (zero : A) (size : nat) : Buffer A :=
  make size (replicate (size / 4) zero).

(** [makeBufferWithData(data)] (fracture.ts, lines 580-592). *)
Definition makeBufferWithData {A} (data : list A) : Buffer A :=
  make (4 * length data) data.

(** The stores of a compute pass into a bound buffer, as (slot, value)
    pairs in program order; a store past the end of the buffer is
    discarded. *)
Definition stores (A : Type) : Type := list (nat * A).
Definition store {A} (ws : stores A) (buffer : Buffer A) : Buffer A :=
  make (size buffer) (foldl (λ l w, <[w.1 := w.2]> l) (contents buffer) ws).

(** [readbackBuffer(buffer, size)] (lines 594-615): the first [size] bytes
    of [buffer], copied through a fresh zero-initialised buffer; a copy
    that overruns the source is rejected and leaves the zeros. At every
    call [size] is a multiple of 4, as the assertion of line 595 asks. *)
Definition readbackBuffer {A} (zero : A) (buffer : Buffer A) (size : nat)
    : list A :=
  if decide (size ≤ GPU.size buffer)
  then resize (size / 4) zero (contents buffer)
  else replicate (size / 4) zero.

End GPU.

(** The stores of one run of the [fracture] entry point into its four
    output bindings. *)
Record FractureStores : Type := mkFractureStores {
  trioutcells_stores : GPU.stores Z;
  triout_stores : GPU.stores number;
  newoutcells_stores : GPU.stores Z;
  newout_stores : GPU.stores number;
}.

(** The compute shader module: for each entry point, the stores it performs
    given its uniform and the contents of the buffers it reads.
    - [transformCopyPerPlane transform cellCount tricount tricells tris]
      stores into [copy_tricells] and [copy_tris];
    - [fracture fracCenter cellCount tricount planes tricells tris] stores
      into [trioutcells], [triout], [newoutcells] and [newout];
    - [applyProximity prox count tricells] stores into [prox_tricells]. *)
Record ShaderModule : Type := mkShaderModule {
  transformCopyPerPlane :
    list number → nat → nat → list Z → list number
    → GPU.stores Z * GPU.stores number;
  fracture :
    list number → nat → nat → list number → list Z → list number
    → FractureStores;
  applyProximity : list Z → nat → list Z → GPU.stores Z;
}.

(** [kShaderCode] (fracture.ts, lines 31-84): the three entry points only
    reference their bindings and store nothing. *)
Definition kShaderCode : ShaderModule :=
  mkShaderModule (λ _ _ _ _ _, ([], []))
                 (λ _ _ _ _ _ _, mkFractureStores [] [] [] [])
                 (λ _ _ _, []).

(** [kFracturePattern] of fracture_pattern.js, which is not among the
    sources: the cell count, one plane buffer per pattern entry, and the
    proximity table. It is a parameter of the pipeline. *)
Record FracturePattern : Type := mkFracturePattern {
  cellCount : nat;
  cellData : list (list number);
  cellProx : list Z;
}.

(** What the host does to the device and to [makeFace], in order. *)
Inductive event : Type :=
  | DispatchCopy (tricount : nat)
  | DispatchFracture (iteration tricount : nat)
  | DispatchProx (count : nat)
  | MakeFace (indices : list Z) (points : list value).

(** The fields of [FractureTransform] that the pipeline reads and writes
    (lines 229-240), with the [trace] of events so far. *)
Record FractureTransform : Type := mkFractureTransform {
  arrtricells : list Z;
  arrtris : list number;
  buftricells : GPU.Buffer Z;
  buftris : GPU.Buffer number;
  buftrioutcells : GPU.Buffer Z;
  buftriout : GPU.Buffer number;
  bufnewoutcells : GPU.Buffer Z;
  bufnewout : GPU.Buffer number;
  trace : list event;
}.

Definition unbound {A} : GPU.Buffer A := GPU.make 0 [].

(** The object once [doFracture] has assigned [arrtris] (line 373): no
    other field is set yet. *)
Definition loaded (vertsAsFloat4 : list number) : FractureTransform :=
  mkFractureTransform [] vertsAsFloat4 unbound unbound unbound unbound
                      unbound unbound [].

Section Pipeline.

Context (shader : ShaderModule) (kFracturePattern : FracturePattern).

(** [doTransformCopyPerPlane] (lines 316-369): the state after the
    dispatch and the returned count. *)
Definition doTransformCopyPerPlane (transform : list number)
    (this : FractureTransform) : FractureTransform * nat :=
  let tricount := length (arrtris this) / 4 in
  let buftricells :=
    GPU.createBuffer 0%Z (cellCount kFracturePattern * tricount * 4) in
  let buftris := GPU.makeBufferWithData (arrtris this) in
  let '(cells, tris) :=
    transformCopyPerPlane shader transform (cellCount kFracturePattern)
      tricount (GPU.contents buftricells) (GPU.contents buftris) in
  (mkFractureTransform (arrtricells this) (arrtris this)
     (GPU.store cells buftricells) (GPU.store tris buftris)
     (buftrioutcells this) (buftriout this)
     (bufnewoutcells this) (bufnewout this)
     (trace this ++ [DispatchCopy tricount]),
   tricount * cellCount kFracturePattern).

(** The stores of the [fracture] pass of one dispatch: the entry point
    run on the uniform, the planes of the iteration and the two input
    buffers (the bind group of lines 484-502). *)
Definition fracture_pass (fractureCenter : list number)
    (iteration tricount : nat) (buftricells : GPU.Buffer Z)
    (buftris : GPU.Buffer number) : FractureStores :=
  fracture shader fractureCenter (cellCount kFracturePattern) tricount
    (default [] (cellData kFracturePattern !! iteration))
    (GPU.contents buftricells) (GPU.contents buftris).

(** [dispatchFracture] (lines 442-516). *)
Definition dispatchFracture (fractureCenter : list number)
    (iteration tricount : nat) (this : FractureTransform) : FractureTransform :=
  let buftricells :=
    if decide (0 < iteration) then GPU.makeBufferWithData (arrtricells this)
    else buftricells this in
  let buftris :=
    if decide (0 < iteration) then GPU.makeBufferWithData (arrtris this)
    else buftris this in
  let buftrioutcells := GPU.createBuffer 0%Z (tricount * 2 * 4) in
  let buftriout := GPU.createBuffer zero (tricount * 2 * 12 * 4) in
  let bufnewoutcells := GPU.createBuffer 0%Z (tricount * 4) in
  let bufnewout := GPU.createBuffer zero (tricount * 2 * 4 * 4) in
  let out :=
    fracture_pass fractureCenter iteration tricount buftricells buftris in
  mkFractureTransform (arrtricells this) (arrtris this) buftricells buftris
    (GPU.store (trioutcells_stores out) buftrioutcells)
    (GPU.store (triout_stores out) buftriout)
    (GPU.store (newoutcells_stores out) bufnewoutcells)
    (GPU.store (newout_stores out) bufnewout)
    (trace this ++ [DispatchFracture iteration tricount]).

(** [dispatchProx] (lines 518-546). *)
Definition dispatchProx (tricount : nat) (this : FractureTransform)
    : FractureTransform :=
  let cells :=
    applyProximity shader (cellProx kFracturePattern) (tricount * 2)
      (GPU.contents (buftrioutcells this)) in
  mkFractureTransform (arrtricells this) (arrtris this)
    (buftricells this) (buftris this)
    (GPU.store cells (buftrioutcells this)) (buftriout this)
    (bufnewoutcells this) (bufnewout this)
    (trace this ++ [DispatchProx (tricount * 2)]).

(** [outputToInput] (lines 548-578): the four read-backs, the two
    compactions, the call of [makeFace] and the two assignments. *)
Definition outputToInput (oldtricount : nat) (this : FractureTransform)
    : FractureTransform :=
  let arrtrioutcells :=
    GPU.readbackBuffer 0%Z (buftrioutcells this) (4 * oldtricount * 2) in
  let arrtriout :=
    GPU.readbackBuffer zero (buftriout this) (4 * oldtricount * 2 * 12) in
  let arrnewoutcells :=
    GPU.readbackBuffer 0%Z (bufnewoutcells this) (4 * oldtricount) in
  let arrnewout :=
    GPU.readbackBuffer zero (bufnewout this) (4 * oldtricount * 2 * 4) in
  let '(tricells, tris) := floatNcompact 12 arrtrioutcells arrtriout in
  let '(newcells, news) := floatNcompact 8 arrnewoutcells arrnewout in
  let '(indices, values) := makeFace newcells news in
  mkFractureTransform (Int32Array_from (tricells ++ indices))
    (Float32Array_from (tris ++ values))
    (buftricells this) (buftris this)
    (buftrioutcells this) (buftriout this)
    (bufnewoutcells this) (bufnewout this)
    (trace this ++ [MakeFace newcells news]).

(** One turn of the loop of [doFracture] (lines 380-387);
    [i === cellBuffers.length - 1] is [i + 1 = cellBuffers.length]. *)
Definition fracture_iteration (fractureCenter : list number)
    (s : FractureTransform * nat) (i : nat) : FractureTransform * nat :=
  let '(this, tricount) := s in
  let this := dispatchFracture fractureCenter i tricount this in
  let this :=
    if decide (S i = length (cellData kFracturePattern))
    then dispatchProx tricount this else this in
  let this := outputToInput tricount this in
  (this, length (arrtricells this)).

(** [doFracture] up to the end of its loop (lines 371-388). *)
Definition fracture_passes (vertsAsFloat4 : list number)
    (transform : list number) (pImpact : OM.vec3) : FractureTransform * nat :=
  let this := loaded vertsAsFloat4 in
  let fractureCenter :=
    Float32Array_from (OM.spread (OM.mult3c pImpact (of_int (-1)))) in
  foldl (fracture_iteration fractureCenter)
        (doTransformCopyPerPlane transform this)
        (seq 0 (length (cellData kFracturePattern))).

(** [doFracture] (lines 371-440): the fragments it returns. *)
Definition doFracture (vertsAsFloat4 : list number) (transform : list number)
    (pImpact : OM.vec3) : Array.t CellFace.t :=
  let this := (fracture_passes vertsAsFloat4 transform pImpact).1 in
  assemble (arrtricells this) (arrtris this).

End Pipeline.

(** A mesh: its vertices, three floats each, so that [origPositions] is
    their concatenation. *)
Definition mesh : Type := list (number * number * number).

Definition origPositions (original : mesh) : list number :=
  original ≫= λ '(x, y, z), [x; y; z].

(** Lines 292-298 of [transform]: every vertex is copied to a stride of
    four floats in a zero-initialised array. Modelled from the spec:
    [memcpy] of util.js, which is not among the sources, copies the three
    floats of the vertex ("stored GPU-side padded to 4 floats"). *)
Definition vertsAsFloat4 (original : mesh) : list number :=
  original ≫= λ '(x, y, z), [x; y; z; zero].

(** [transform] (lines 288-314) with the impact point [0, 0, 0] of line 303:
    the fragments it makes. *)
Definition transform (shader : ShaderModule) (kFracturePattern : FracturePattern)
    (original : mesh) (rotation : list number) : list (Z * list value) :=
  transform_fragments
    (doFracture shader kFracturePattern (vertsAsFloat4 original) rotation
       (Some zero, Some zero, Some zero)).

(** The triangles of the input mesh: its vertex count divided by 3. *)
Definition inputTriangleCount (original : mesh) : nat := length original / 3.

(** The kinds of events, for stating the order of a trace. *)
Inductive kind : Type := Copy | Classify (iteration : nat) | Merge | Seal.

Definition kind_of (e : event) : kind :=
  match e with
  | DispatchCopy _ => Copy
  | DispatchFracture i _ => Classify i
  | DispatchProx _ => Merge
  | MakeFace _ _ => Seal
  end.

(** The design document's order: the Face Sealer runs once, as the last step,
    after every classification. *)
Definition sealed_once_after_all_iterations (ks : list kind) : Prop :=
  ∃ before, ks = before ++ [Seal] ∧ Seal ∉ before.

(** The order of the code for [n] pattern entries: every iteration
    classifies, merges if it is the last one, and seals. *)
Definition iteration_kinds (n i : nat) : list kind :=
  [Classify i] ++ (if decide (S i = n) then [Merge] else []) ++ [Seal].

(** ** Example inputs *)

(** One triangle, tag [0]: its vertices are (1,2,3), (4,5,6), (7,8,9), each
    padded to four floats. *)
Definition example_tris : list number :=
  of_int <$> [1; 2; 3; 0; 4; 5; 6; 0; 7; 8; 9; 0]%Z.

(** One triangle whose x coordinates are [3 * 2^-30], [2^23] and [2^23]; all
    other coordinates are 0. Every entry is a binary32 value. *)
Definition rounding_tris : list number :=
  [scaled 3 (-30); zero; zero; zero;
   scaled 1 23; zero; zero; zero;
   scaled 1 23; zero; zero; zero].

(** One triangle with a NaN coordinate. *)
Definition nan_tris : list number :=
  [NaN; zero; zero; zero;
   of_int 1; zero; zero; zero;
   of_int 2; zero; zero; zero].

(** One triangle whose x coordinates are 0, 20000 and 0. *)
Definition wide_tris : list number :=
  [zero; zero; zero; zero;
   of_int 20000; zero; zero; zero;
   zero; zero; zero; zero].

(** A mesh of one triangle. *)
Definition one_triangle : mesh :=
  [(of_int 0, of_int 0, of_int 0); (of_int 1, of_int 0, of_int 0);
   (of_int 0, of_int 1, of_int 0)].

(** A fracture pattern with two entries and two cells; the plane data are
    irrelevant to [kShaderCode]. *)
Definition two_entries : FracturePattern := mkFracturePattern 2 [[]; []] [].

Definition identity4 : list number :=
  of_int <$> [1; 0; 0; 0; 0; 1; 0; 0; 0; 0; 1; 0; 0; 0; 0; 1]%Z.


(** ** Bounds that are NaN on two axes *)

(** A point whose y and z coordinates are NaN. *)
Definition nan_yz (v : OM.vec3) : Prop := ∃ x, v = (x, Some NaN, Some NaN).

(** * The test transform (fracture.ts, lines 9-29 and 109-214) *)

Module WGSL.

(** A [u32] is a [Z] in [0, 2^32); sums and products wrap around. A
    division by zero gives the dividend and a remainder by zero gives 0,
    as WGSL defines them for runtime expressions. *)
Definition u32 (z : Z) : Z := (z mod 2 ^ 32)%Z.
Definition add (a b : Z) : Z := u32 (a + b).
Definition mul (a b : Z) : Z := u32 (a * b).
Definition div (a b : Z) : Z := if decide (b = 0%Z) then a else (a / b)%Z.
Definition rem (a b : Z) : Z := if decide (b = 0%Z) then 0%Z else (a mod b)%Z.

(** [arrayLength(&buffer)] of a runtime-sized array of 4-byte elements. *)
Definition arrayLength {A} (buffer : list A) : Z := u32 (Z.of_nat (length buffer)).

(** A load from a storage buffer; out of bounds it gives zero, one of the
    results WGSL allows. *)
Definition load (buffer : list number) (i : Z) : number :=
  default zero (buffer !! Z.to_nat i).

(** The entry point [testTransform] (lines 14-29) for the invocation whose
    [global_invocation_id.x] is [outTriIdx]: its stores into [outTriExists]
    and [outPoints], in program order. *)
Definition testTransform (inPoints : list number) (outTriIdx : Z)
    : GPU.stores Z * GPU.stores number :=
  let numInTris := div (arrayLength inPoints) 9 in
  let inTriIdx := rem outTriIdx numInTris in
  let cellIdx := div outTriIdx numInTris in
  if decide (bool_decide (cellIdx = 0%Z)
             = bool_decide (inTriIdx < div numInTris 2)%Z)
  then ([(Z.to_nat outTriIdx, 1%Z)],
        (λ offset, (Z.to_nat (add (mul outTriIdx 9) offset),
                    load inPoints (add (mul inTriIdx 9) offset)))
        <$> seqZ 0 9)
  else ([], []).

(** The stores of the invocations [ids] of an entry point, run one after
    the other in the order of [ids]. *)
Definition invocations {A B} (entry : Z → GPU.stores A * GPU.stores B)
    (ids : list nat) : GPU.stores A * GPU.stores B :=
  (ids ≫= (λ i, (entry (Z.of_nat i)).1 : list (nat * A)),
   ids ≫= (λ i, (entry (Z.of_nat i)).2 : list (nat * B))).

(** The number of workgroups per dimension that every WebGPU device
    accepts in a dispatch. *)
Definition maxComputeWorkgroupsPerDimension : Z := 65535.

(** [pass.dispatchWorkgroups(count)] with a workgroup size of 1, for a
    [count] that the device accepts: the invocations [0 .. count - 1], here
    in increasing order. *)
Definition dispatchWorkgroups {A B} (entry : Z → GPU.stores A * GPU.stores B)
    (count : nat) : GPU.stores A * GPU.stores B :=
  invocations entry (seq 0 count).

End WGSL.

Module TestTransform.

Definition kNumCells : nat := 2.

(** [makeBufferFromData(device, data)] (lines 618-630). *)
Definition makeBufferFromData {A} (data : list A) : GPU.Buffer A :=
  GPU.make (4 * length data) data.

(** [typedArray.subarray(b, e)], for [b <= e]. *)
Definition subarray {A} (b e : nat) (l : list A) : list A :=
  take (e - b) (drop b l).

(** The inner loop of lines 196-202 for one cell. *)
Definition outPointsCompacted (numInputTris : nat) (outTriExistsData : list Z)
    (outPointsData : list number) (cell : nat) : list value :=
  seq 0 numInputTris ≫= (λ idx,
    let outTriIdx := cell * numInputTris + idx in
    match outTriExistsData !! outTriIdx with
    | Some e =>
        if decide (e ≠ 0%Z)
        then Some <$> subarray (outTriIdx * 9) (outTriIdx * 9 + 9) outPointsData
        else []
    | None => []
    end).

(** [TestTransform.transform] (lines 131-213) on the positions of the
    mesh: the calls of [makeFragmentFromVertices], each as the cell of its
    name and its positions. The model is exact for a triangle soup, whose
    positions are a multiple of nine floats; the quotients of lines 134-135
    are fractional otherwise. *)
Definition transform (origPositions : list number) : list (nat * list number) :=
  let numInputPoints := length origPositions / 3 in
  let numInputTris := numInputPoints / 3 in
  let numOutputTris := numInputTris * kNumCells in
  let inPoints := makeBufferFromData origPositions in
  let numOutputBytes := kNumCells * (4 * length origPositions) in
  let outTriExists := GPU.createBuffer 0%Z (numOutputTris * 4) in
  let outPoints := GPU.createBuffer zero numOutputBytes in
  let ws :=
    WGSL.dispatchWorkgroups (WGSL.testTransform (GPU.contents inPoints))
                            numOutputTris in
  let outTriExistsData := GPU.contents (GPU.store ws.1 outTriExists) in
  let outPointsData := GPU.contents (GPU.store ws.2 outPoints) in
  (λ cell,
     (cell, Float32Array_from
              (outPointsCompacted numInputTris outTriExistsData outPointsData
                                  cell)))
  <$> seq 0 kNumCells.

End TestTransform.

(** The invocation [i] of a dispatch for [n] input triangles keeps its
    triangle: the first half of the triangles in cell 0, the rest in
    cell 1. *)
Definition selected (n i : nat) : Prop :=
  bool_decide (i / n = 0) = bool_decide (i mod n < n / 2).
#[global] Instance selected_dec (n i : nat) : Decision (selected n i).
Proof. unfold selected. apply _. Defined.

(** The stores of an invocation that keeps input triangle [j] as output
    triangle [i]. *)
Definition copy_stores (inPoints : list number) (i j : nat)
    : GPU.stores Z * GPU.stores number :=
  ([(i, 1%Z)],
   (λ o, (9 * i + o, default zero (inPoints !! (9 * j + o)))) <$> seq 0 9).

(** A list of stores in which every slot is given one value only. *)
Definition functional {A} (ws : GPU.stores A) : Prop :=
  ∀ k v v', (k, v) ∈ ws → (k, v') ∈ ws → v = v'.

(** A number that a [Float32Array] can hold. *)
Definition binary32 (x : number) : Prop := fround x = x.

(** * The first test transform (src/unnamed/part_000) *)

Module Fracture_js.

(** The loop of [testTransform]: [start] advances by [half] while it is
    below the length of [origPositions]; every round slices a piece and
    makes a fragment, recorded as the [idx] of its name and its positions.
    [None] when [fuel] rounds do not end the loop. *)
Fixpoint testTransform_loop {A} (fuel : nat) (origPositions : list A)
    (half start idx : nat) : option (list (nat * list A)) :=
  match fuel with
  | 0 => None
  | S fuel =>
      if decide (start < length origPositions)
      then
        let positions := take half (drop start origPositions) in
        cons (idx, positions)
          <$> testTransform_loop fuel origPositions half (start + half) (S idx)
      else Some []
  end.

Definition testTransform {A} (fuel : nat) (origPositions : list A)
    : option (list (nat * list A)) :=
  let half := length origPositions / 2 in
  testTransform_loop fuel origPositions half 0 0.

End Fracture_js.

(** * The object traversal of out/main.js *)

Module Main_js.

(** Objects are told apart by their identity, a natural number. *)

(** A property value as the loop of [breadthFirstTraverse] tests it: a
    non-null value whose [typeof] is ['object'], or anything else. *)
Inductive jsval : Type :=
| Obj (l : nat)
| Other.

(** An object: its [Object.entries], in their order, and whether its
    [buffer] property is an [ArrayBuffer]. *)
Record object : Type := mkObject {
  entries : list (string * jsval);
  buffer_is_ArrayBuffer : bool;
}.

Definition heap : Type := gmap nat object.

Definition entries_of (h : heap) (l : nat) : list (string * jsval) :=
  match h !! l with Some o => entries o | None => [] end.

Definition is_view (h : heap) (l : nat) : bool :=
  match h !! l with Some o => buffer_is_ArrayBuffer o | None => false end.

(** What the generator yields. *)
Record node : Type := mkNode { value : nat; path : list string }.

(** The [for] loop over the entries of a node: a child that is an object,
    has no [ArrayBuffer] behind it and is not in [visited] is added to
    [visited] and pushed on the queue. *)
Definition visit_children (h : heap) (nd : node)
    (st : gset nat * list node) : gset nat * list node :=
  foldl (λ st e,
           match e.2 with
           | Other => st
           | Obj child =>
               if is_view h child then st
               else if decide (child ∈ st.1) then st
               else ({[child]} ∪ st.1,
                     st.2 ++ [mkNode child (path nd ++ [e.1])])
           end)
        st (entries_of h (value nd)).

(** The [while] loop: the nodes yielded from a state of [visited] and
    [queue]; [None] when [fuel] rounds do not empty the queue. *)
Fixpoint traverse (h : heap) (fuel : nat) (visited : gset nat)
    (queue : list node) : option (list node) :=
  match fuel with
  | 0 => None
  | S fuel =>
      match queue with
      | [] => Some []
      | nd :: queue =>
          let st := visit_children h nd (visited, queue) in
          cons nd <$> traverse h fuel st.1 st.2
      end
  end.

Definition breadthFirstTraverse (h : heap) (fuel : nat) (root : nat)
    : option (list node) :=
  traverse h fuel ∅ [mkNode root []].

(** [reaches h root p l]: following the keys of [p] from [root] leads to
    the object [l]. *)
Inductive reaches (h : heap) (root : nat) : list string → nat → Prop :=
| reaches_root : reaches h root [] root
| reaches_child p l k child :
    reaches h root p l → (k, Obj child) ∈ entries_of h l →
    reaches h root (p ++ [k]) child.

(** [linked h a b]: [b] is found from [a] through objects that the
    traversal does not skip. *)
Inductive linked (h : heap) (a : nat) : nat → Prop :=
| linked_refl : linked h a a
| linked_step b k child :
    linked h a b → (k, Obj child) ∈ entries_of h b →
    is_view h child = false → linked h a child.

(** Every object that some entry of the heap refers to. *)
Definition children (h : heap) : gset nat :=
  list_to_set
    (map_to_list h ≫= (λ lo,
       entries lo.2 ≫= (λ e, match e.2 with Obj c => [c] | Other => [] end))).

Definition depth (nd : node) : nat := length (path nd).

End Main_js.

(** A small heap with a cycle through its root: object 0 refers to object 1
    and to the typed array 2; object 1 refers back to 0 and to object 3;
    object 3 refers to object 1. *)
Definition example_heap : Main_js.heap :=
  <[0 := Main_js.mkObject
           [("mesh", Main_js.Obj 1); ("name", Main_js.Other);
            ("data", Main_js.Obj 2)] false]>
  (<[1 := Main_js.mkObject
            [("parent", Main_js.Obj 0); ("geometry", Main_js.Obj 3)] false]>
  (<[2 := Main_js.mkObject [] true]>
  (<[3 := Main_js.mkObject [("mesh", Main_js.Obj 1)] false]> ∅))).

Definition example_nodes : list Main_js.node :=
  [Main_js.mkNode 0 []; Main_js.mkNode 1 ["mesh"];
   Main_js.mkNode 0 ["mesh"; "parent"]; Main_js.mkNode 3 ["mesh"; "geometry"]].

(** * The shader module cache (fracture.ts, lines 87-94) *)

(** Devices and shader modules are told apart by their identity. The state
    is the [WeakMap] [shaderModuleForDevice] and the calls of
    [device.createShaderModule] so far, each as the device it was made on;
    the module a call returns is a new object, identified by the number of
    the call. *)
Record ShaderCache : Type := mkShaderCache {
  shaderModuleForDevice : gmap nat nat;
  created_on : list nat;
}.

Definition getShaderModuleForDevice (device : nat) (st : ShaderCache)
    : nat * ShaderCache :=
  match shaderModuleForDevice st !! device with
  | Some existing => (existing, st)
  | None =>
      let created := length (created_on st) in
      (created,
       mkShaderCache (<[device := created]> (shaderModuleForDevice st))
                     (created_on st ++ [device]))
  end.

(** A sequence of calls, one for each device of the list. *)
Fixpoint getShaderModules (devices : list nat) (st : ShaderCache)
    : list nat * ShaderCache :=
  match devices with
  | [] => ([], st)
  | device :: devices =>
      let r := getShaderModuleForDevice device st in
      let rs := getShaderModules devices r.2 in
      (r.1 :: rs.1, rs.2)
  end.

(** The cache holds a module for a device exactly when that module was
    made on the device. *)
Definition cache_consistent (st : ShaderCache) : Prop :=
  ∀ device module,
    shaderModuleForDevice st !! device = Some module
    ↔ created_on st !! module = Some device.
(** * Properties *)

Section Compactor.

Context (N : nat) (index : list Z) (val : list number).

Let step : list Z * list value → nat → list Z * list value :=
  λ '(indices, values) i,
    match index !! i with
    | Some t =>
        if decide (t ≠ (-1)%Z)
        then (indices ++ [t],
              foldl (λ values n, values ++ [val !! (i * N + n)])
                    values (seq 0 N))
        else (indices, values)
    | None => (indices, values)
    end.

Lemma push_loop (values : list value) (i : nat) (ns : list nat) :
  foldl (λ values n, values ++ [val !! (i * N + n)]) values ns
  = values ++ ((λ n, val !! (i * N + n)) <$> ns).
Proof.
  revert values. induction ns as [|n ns IH]; intros values; simpl.
  - by rewrite app_nil_r.
  - by rewrite IH, <- app_assoc.
Qed.

Lemma floatNcompact_prefix (k : nat) :
  k ≤ length index →
  foldl step ([], []) (seq 0 k)
  = (filter (λ t, t ≠ (-1)%Z) (take k index),
     filter (λ i, index !! i ≠ Some (-1)%Z) (seq 0 k) ≫= record_at N val).
Proof.
  induction k as [|k IH]; intros Hk; [done|].
  rewrite seq_S, foldl_app, IH by lia. simpl.
  destruct (lookup_lt_is_Some_2 index k) as [t Ht]; [lia|].
  rewrite (take_S_r _ _ _ Ht), !filter_app, bind_app, Ht. simpl.
  rewrite !filter_cons, !filter_nil, Ht.
  destruct (decide (t ≠ (-1)%Z)) as [Hne|Heq].
  - rewrite decide_True by congruence. simpl.
    by rewrite push_loop, app_nil_r.
  - rewrite decide_False by (intros ?; apply Heq; congruence). simpl.
    by rewrite !app_nil_r.
Qed.

Lemma floatNcompact_eq :
  floatNcompact N index val
  = (filter (λ t, t ≠ (-1)%Z) index, kept index ≫= record_at N val).
Proof.
  unfold floatNcompact, kept. fold step.
  rewrite floatNcompact_prefix by done. by rewrite firstn_all.
Qed.

End Compactor.

(** Lookup in a concatenation of blocks that all have length [N]. *)
Lemma lookup_bind_uniform {A B} (f : A → list B) (N : nat) (l : list A)
    (k n : nat) (x : A) :
  (∀ y, length (f y) = N) → l !! k = Some x → n < N →
  (l ≫= f) !! (k * N + n) = f x !! n.
Proof.
  intros Hlen. revert k. induction l as [|y l IH]; intros k Hk Hn; [done|].
  rewrite bind_cons. destruct k as [|k]; simpl in Hk.
  - injection Hk as ->. simpl. by rewrite lookup_app_l by (rewrite Hlen; lia).
  - rewrite lookup_app_r by (rewrite Hlen; lia).
    rewrite Hlen. replace (S k * N + n - N) with (k * N + n) by lia.
    by apply IH.
Qed.

Lemma length_bind_uniform {A B} (f : A → list B) (N : nat) (l : list A) :
  (∀ y, length (f y) = N) → length (l ≫= f) = N * length l.
Proof.
  intros Hlen. induction l as [|y l IH]; [simpl; lia|].
  rewrite bind_cons, length_app, Hlen, IH. simpl. lia.
Qed.

Lemma length_record_at (N : nat) (val : list number) (i : nat) :
  length (record_at N val i) = N.
Proof. unfold record_at. by rewrite length_fmap, length_seq. Qed.

(** The tags at the kept positions are the tags other than [-1]. *)
Lemma kept_tags_prefix (index : list Z) (k : nat) :
  k ≤ length index →
  (index !!.) <$> filter (λ i, index !! i ≠ Some (-1)%Z) (seq 0 k)
  = Some <$> filter (λ t, t ≠ (-1)%Z) (take k index).
Proof.
  induction k as [|k IH]; intros Hk; [done|].
  destruct (lookup_lt_is_Some_2 index k) as [t Ht]; [lia|].
  rewrite seq_S, (take_S_r _ _ _ Ht), !filter_app, !fmap_app, IH by lia.
  f_equal. simpl. rewrite !filter_cons, !filter_nil, Ht.
  destruct (decide (t ≠ (-1)%Z)) as [Hne|Heq].
  - rewrite decide_True by congruence. simpl. by rewrite Ht.
  - by rewrite decide_False by (intros ?; apply Heq; congruence).
Qed.

Lemma kept_tags (index : list Z) :
  (index !!.) <$> kept index = Some <$> filter (λ t, t ≠ (-1)%Z) index.
Proof.
  unfold kept. rewrite kept_tags_prefix by done. by rewrite firstn_all.
Qed.

Lemma floatNcompact_lengths (N : nat) (index : list Z) (val : list number) :
  length (floatNcompact N index val).2 = N * length (floatNcompact N index val).1.
Proof.
  rewrite floatNcompact_eq. simpl.
  rewrite (length_bind_uniform _ N) by apply length_record_at.
  f_equal. pose proof (f_equal length (kept_tags index)) as Htags.
  by rewrite !length_fmap in Htags.
Qed.

(** C1. For every stride [N], tag array and value array, [floatNcompact]
    returns exactly the tags other than [-1] in their original order, and
    its values are the [N]-entry records of the kept positions, one after
    the other: the record of the [k]-th kept tag occupies the [k]-th
    compacted slot, entry by entry as read from the value array. *)
Theorem floatNcompact_stable_filter (N : nat) (index : list Z) (val : list number) :
  let out := floatNcompact N index val in
  out.1 = filter (λ t, t ≠ (-1)%Z) index
  ∧ out.2 = kept index ≫= record_at N val
  ∧ length out.2 = N * length out.1
  ∧ ∀ k i, kept index !! k = Some i →
      out.1 !! k = index !! i
      ∧ ∀ n, n < N → out.2 !! (k * N + n) = Some (val !! (i * N + n)).
Proof.
  pose proof (floatNcompact_lengths N index val) as Hlen.
  rewrite floatNcompact_eq in *. simpl in *.
  pose proof (kept_tags index) as Htags.
  split_and!; [done|done|done|].
  intros k i Hk. split.
  - apply (f_equal (.!! k)) in Htags.
    rewrite !list_lookup_fmap, Hk in Htags. simpl in Htags.
    destruct (filter _ index !! k) as [t|] eqn:Hf; simpl in Htags;
      [congruence|done].
  - intros n Hn.
    rewrite (lookup_bind_uniform _ N _ _ _ i) by
      (done || apply length_record_at).
    unfold record_at. rewrite list_lookup_fmap, lookup_seq_lt by done.
    done.
Qed.

(** ** Grouping into a sparse array *)

Section GroupByKey.

Context {A : Type} (keys : list Z) (init : A) (step : nat → A → A).

Let members_upto (n : nat) (k : Z) : list nat :=
  filter (λ i, keys !! i = Some k) (seq 0 n).

Let bucket (ps : list nat) : option A :=
  match ps with [] => None | _ => Some (foldl (λ c i, step i c) init ps) end.

Let loop_body : Array.t A → nat → Array.t A :=
  λ arr i,
    match keys !! i with
    | Some k =>
        let '(arr, c) :=
          match Array.get arr k with
          | Some c => (arr, c)
          | None => (Array.set arr k init, init)
          end in
        Array.update arr k (step i c)
    | None => arr
    end.

Lemma members_upto_S (n : nat) (k key : Z) :
  keys !! n = Some key →
  members_upto (S n) k
  = members_upto n k ++ (if decide (key = k) then [n] else []).
Proof.
  intros Hn. unfold members_upto.
  rewrite seq_S, filter_app. f_equal. simpl.
  rewrite filter_cons, filter_nil, Hn.
  destruct (decide (key = k)) as [->|Hne].
  - by rewrite decide_True.
  - by rewrite decide_False by congruence.
Qed.

Lemma key_count_snoc (l : list Z) (k : Z) :
  key_count (l ++ [k])
  = if decide (Array.is_index k) then Z.max (key_count l) (k + 1)
    else key_count l.
Proof. unfold key_count. by rewrite foldl_app. Qed.

Lemma key_count_ge (l : list Z) (k : Z) :
  k ∈ l → Array.is_index k → (k + 1 ≤ key_count l)%Z.
Proof.
  induction l as [|x l IH] using rev_ind; intros Hin Hidx.
  - by apply elem_of_nil in Hin.
  - rewrite key_count_snoc. apply elem_of_app in Hin as [Hin|Hin].
    + specialize (IH Hin Hidx). case_decide; lia.
    + apply list_elem_of_singleton in Hin as ->. rewrite decide_True by done. lia.
Qed.

Lemma members_upto_elem (n : nat) (k : Z) :
  n ≤ length keys → members_upto n k ≠ [] → k ∈ take n keys.
Proof.
  intros Hn Hne. unfold members_upto in Hne.
  destruct (filter _ (seq 0 n)) as [|i l] eqn:Hf; [done|].
  assert (i ∈ filter (λ i, keys !! i = Some k) (seq 0 n)) as Hi
    by (rewrite Hf; left).
  apply list_elem_of_filter in Hi as [Hi Hseq].
  apply elem_of_seq in Hseq.
  apply list_elem_of_lookup. exists i. rewrite lookup_take_lt by lia. done.
Qed.

(** The array after the first [n] positions: every key holds the fold of
    [step] over its positions so far, and [length] is one past the largest
    index key seen. *)
Lemma group_by_key_prefix (n : nat) :
  n ≤ length keys →
  let arr := foldl loop_body Array.empty (seq 0 n) in
  (∀ k, Array.get arr k = bucket (members_upto n k))
  ∧ Array.length arr = key_count (take n keys).
Proof.
  induction n as [|n IH]; intros Hn.
  - split; [intros k; apply lookup_empty|done].
  - destruct IH as [Hget Hlen]; [lia|].
    destruct (lookup_lt_is_Some_2 keys n) as [key Hkey]; [lia|].
    cbn zeta. rewrite seq_S, foldl_app. simpl.
    set (arr := foldl loop_body Array.empty (seq 0 n)) in *.
    rewrite (take_S_r _ _ _ Hkey), key_count_snoc.
    unfold loop_body. rewrite Hkey.
    destruct (Array.get arr key) as [c|] eqn:Hc.
    + rewrite Hget in Hc. split.
      * intros k. rewrite (members_upto_S _ _ _ Hkey).
        unfold Array.get, Array.update. simpl.
        destruct (decide (key = k)) as [->|Hne].
        -- rewrite lookup_insert_eq. unfold bucket in *.
           destruct (members_upto n k) as [|i ps]; [done|].
           injection Hc as <-. by rewrite foldl_app.
        -- rewrite lookup_insert_ne, app_nil_r by done. apply Hget.
      * simpl. rewrite Hlen. case_decide as Hix; [|done].
        assert (key ∈ take n keys) as Hin.
        { apply members_upto_elem; [lia|].
          unfold bucket in Hc. by destruct (members_upto n key). }
        pose proof (key_count_ge _ _ Hin Hix). lia.
    + rewrite Hget in Hc. split.
      * intros k. rewrite (members_upto_S _ _ _ Hkey).
        unfold Array.get, Array.update, Array.set. simpl.
        destruct (decide (key = k)) as [->|Hne].
        -- rewrite lookup_insert_eq. unfold bucket in *.
           by destruct (members_upto n k).
        -- rewrite !lookup_insert_ne, app_nil_r by done. apply Hget.
      * simpl. by rewrite Hlen.
Qed.

Lemma group_by_key_spec :
  let arr := group_by_key keys init step in
  (∀ k, Array.get arr k
        = match members keys k with
          | [] => None
          | ps => Some (foldl (λ c i, step i c) init ps)
          end)
  ∧ Array.length arr = key_count keys.
Proof.
  destruct (group_by_key_prefix (length keys)) as [Hget Hlen]; [done|].
  rewrite firstn_all in Hlen. split; [|apply Hlen].
  intros k. rewrite Hget. unfold bucket, members_upto, members.
  by destruct (filter _ _).
Qed.

End GroupByKey.

Lemma key_count_bounds (l : list Z) : (0 ≤ key_count l ≤ 2 ^ 32 - 1)%Z.
Proof.
  induction l as [|x l IH] using rev_ind; [done|].
  rewrite key_count_snoc. case_decide as Hx; [|done].
  unfold Array.is_index in Hx. lia.
Qed.

Lemma members_nil (keys : list Z) (k : Z) : k ∉ keys → members keys k = [].
Proof.
  intros Hk. unfold members.
  destruct (filter _ (seq 0 (length keys))) as [|i l] eqn:Hf; [done|].
  assert (i ∈ filter (λ i, keys !! i = Some k) (seq 0 (length keys)))
    as [Hi _]%list_elem_of_filter by (rewrite Hf; left).
  destruct Hk. apply list_elem_of_lookup. by exists i.
Qed.

Lemma members_cons (keys : list Z) (k : Z) :
  k ∈ keys → members keys k ≠ [].
Proof.
  intros [i Hi]%list_elem_of_lookup Hnil.
  assert (i ∈ members keys k) as Hin.
  { apply list_elem_of_filter. split; [done|].
    apply elem_of_seq. apply lookup_lt_Some in Hi. lia. }
  rewrite Hnil in Hin. by apply elem_of_nil in Hin.
Qed.

Lemma elem_of_members (keys : list Z) (k : Z) (i : nat) :
  i ∈ members keys k ↔ keys !! i = Some k.
Proof.
  unfold members. rewrite list_elem_of_filter, elem_of_seq. split; [tauto|].
  intros Hi. split; [done|]. apply lookup_lt_Some in Hi. lia.
Qed.

(** ** The Face Sealer *)

Lemma foldl_snoc_fmap {A B} (f : A → B) (acc : list B) (l : list A) :
  foldl (λ acc x, acc ++ [f x]) acc l = acc ++ (f <$> l).
Proof.
  revert acc. induction l as [|x l IH]; intros acc; simpl.
  - by rewrite app_nil_r.
  - by rewrite IH, <- app_assoc.
Qed.

Lemma makeFace_group_spec (indices : list Z) (points : list value) :
  let faces := makeFace_group indices points in
  (∀ id, Array.get faces id
         = match group indices points id with
           | [] => None
           | _ => Some (group indices points id)
           end)
  ∧ Array.indices faces = face_ids indices.
Proof.
  destruct (group_by_key_spec indices [] (λ i f, f ++ [edge_at points i]))
    as [Hget Hlen].
  change (group_by_key indices [] (λ i f, f ++ [edge_at points i]))
    with (makeFace_group indices points) in *.
  split.
  - intros id. rewrite Hget. unfold group.
    destruct (members indices id) as [|i ps] eqn:Hm; [done|].
    rewrite foldl_snoc_fmap. done.
  - unfold Array.indices, face_ids, face_count. by rewrite Hlen.
Qed.

Lemma emit_fan_loop (iface : Z) (centr : OM.vec3) (f : list edge)
    (idxout : list Z) (values : list value) :
  foldl (λ '(idxout, values) e, (idxout ++ [iface], values ++ triangle centr e))
        (idxout, values) f
  = (idxout ++ replicate (length f) iface, values ++ (f ≫= triangle centr)).
Proof.
  revert idxout values. induction f as [|e f IH]; intros idxout values.
  - simpl. by rewrite !app_nil_r.
  - rewrite bind_cons. simpl. rewrite IH, <- !app_assoc. done.
Qed.

Lemma makeFace_emit_loop (faces : Array.t (list edge)) (g : Z → list edge)
    (ids idxout : list Z) (values : list value) :
  (∀ id, Array.get faces id = match g id with [] => None | _ => Some (g id) end) →
  foldl (λ '(idxout, values) iface,
           match Array.get faces iface with
           | None => (idxout, values)
           | Some f =>
               let centr := centroid f in
               foldl (λ '(idxout, values) e,
                        (idxout ++ [iface], values ++ triangle centr e))
                     (idxout, values) f
           end)
        (idxout, values) ids
  = (idxout ++ (ids ≫= λ id, replicate (length (g id)) id),
     values ++ (ids ≫= λ id, fan (g id))).
Proof.
  intros Hget. revert idxout values.
  induction ids as [|id ids IH]; intros idxout values.
  - simpl. by rewrite !app_nil_r.
  - rewrite !bind_cons. simpl. rewrite Hget.
    destruct (g id) as [|e f] eqn:Hg.
    + rewrite IH. done.
    + cbn zeta. rewrite emit_fan_loop, IH, <- !app_assoc. done.
Qed.

Lemma makeFace_eq (indices : list Z) (points : list value) :
  makeFace indices points
  = (face_ids indices ≫= (λ id, replicate (length (group indices points id)) id),
     face_ids indices ≫= (λ id, fan (group indices points id))).
Proof.
  destruct (makeFace_group_spec indices points) as [Hget Hids].
  unfold makeFace, makeFace_emit. rewrite Hids.
  by rewrite (makeFace_emit_loop _ (group indices points)).
Qed.

Lemma occurrences_app (x : Z) (l1 l2 : list Z) :
  occurrences x (l1 ++ l2) = occurrences x l1 + occurrences x l2.
Proof. unfold occurrences. by rewrite filter_app, length_app. Qed.

Lemma occurrences_replicate (x y : Z) (n : nat) :
  occurrences x (replicate n y) = if decide (y = x) then n else 0.
Proof.
  unfold occurrences. induction n as [|n IH]; simpl.
  - by case_decide.
  - rewrite filter_cons. case_decide; simpl; [by rewrite IH|done].
Qed.

Lemma occurrences_blocks (x : Z) (n : Z → nat) (ids : list Z) :
  NoDup ids →
  occurrences x (ids ≫= λ id, replicate (n id) id)
  = if decide (x ∈ ids) then n x else 0.
Proof.
  induction 1 as [|y ids Hy Hnd IH]; [done|].
  rewrite bind_cons, occurrences_app, occurrences_replicate, IH.
  destruct (decide (y = x)) as [->|Hne].
  - rewrite decide_False by done. rewrite decide_True by left. lia.
  - destruct (decide (x ∈ ids)) as [Hin|Hin].
    + rewrite decide_True by (by right). done.
    + rewrite decide_False; [done|]. intros [->|?]%elem_of_cons; done.
Qed.

Lemma elem_of_face_ids (l : list Z) (id : Z) :
  id ∈ face_ids l ↔ (0 ≤ id < face_count l)%Z.
Proof.
  unfold face_ids. rewrite list_elem_of_fmap. split.
  - intros (n & -> & Hn). apply elem_of_seq in Hn. lia.
  - intros Hid. exists (Z.to_nat id). split; [lia|]. apply elem_of_seq. lia.
Qed.

Lemma NoDup_face_ids (l : list Z) : NoDup (face_ids l).
Proof.
  unfold face_ids. apply NoDup_fmap_2; [|apply NoDup_seq].
  intros x y. lia.
Qed.

Lemma group_nil (indices : list Z) (points : list value) (id : Z) :
  id ∉ indices → group indices points id = [].
Proof. intros Hid. unfold group. by rewrite members_nil. Qed.

(** C4, as the code has it. [makeFace] walks the face ids [0 .. length-1] in
    increasing order and emits, for each one, the triangle fan of its group:
    one triangle (centroid, point1, point2) per fragment, the centroid being
    the group's end-point sum scaled by [0.5 / fragmentCount]. An id that is
    an array index gets exactly one triangle per fragment, hence none when
    it has no fragment; an id that is no array index (a negative one) gets
    none at all. *)
Theorem makeFace_fan_per_group (indices : list Z) (points : list value) :
  let out := makeFace indices points in
  out.1 = face_ids indices ≫= (λ id, replicate (length (group indices points id)) id)
  ∧ out.2 = face_ids indices ≫= (λ id, fan (group indices points id))
  ∧ ∀ id, occurrences id out.1
          = if decide (Array.is_index id)
            then length (group indices points id) else 0.
Proof.
  rewrite makeFace_eq. simpl. split_and!; [done|done|].
  intros id. rewrite occurrences_blocks by apply NoDup_face_ids.
  pose proof (key_count_bounds indices) as Hb. fold (face_count indices) in Hb.
  destruct (decide (id ∈ face_ids indices)) as [Hin|Hin].
  - apply elem_of_face_ids in Hin.
    rewrite decide_True; [done|]. unfold Array.is_index. lia.
  - case_decide as Hidx; [|done].
    destruct (decide (id ∈ indices)) as [Hmem|Hmem].
    + pose proof (key_count_ge _ _ Hmem Hidx) as Hge.
      fold (face_count indices) in Hge.
      destruct Hin. apply elem_of_face_ids. unfold Array.is_index in Hidx. lia.
    + by rewrite group_nil.
Qed.

(** C4, counterexample to the claim as stated: a fragment whose face id is
    [-2] forms a group of one fragment, yet [makeFace] emits no triangle,
    because [faces[-2]] is a property that the loop over [0 .. length-1]
    never reaches. *)
Lemma makeFace_negative_id_dropped :
  let points := Some <$> replicate 8 zero in
  length (group [(-2)%Z] points (-2)) = 1
  ∧ makeFace [(-2)%Z] points = ([], []).
Proof. split; vm_compute; reflexivity. Qed.

(** ** The compaction step *)

Lemma ToInt32_int32 (z : Z) : int32 z → ToInt32 z = z.
Proof.
  unfold int32, ToInt32. intros Hz.
  rewrite Z.mod_small by lia. lia.
Qed.

Lemma face_count_int32 (l : list Z) :
  Forall int32 l → (face_count l ≤ 2 ^ 31)%Z.
Proof.
  unfold face_count.
  induction l as [|x l IH] using rev_ind; intros Hl; [done|].
  apply Forall_app in Hl as [Hl Hx]. rewrite Forall_singleton in Hx.
  rewrite key_count_snoc. specialize (IH Hl).
  unfold int32 in Hx. case_decide; lia.
Qed.

Lemma makeFace_ids_range (indices : list Z) (points : list value) (id : Z) :
  id ∈ (makeFace indices points).1 → (0 ≤ id < face_count indices)%Z.
Proof.
  rewrite makeFace_eq. simpl. intros Hid.
  apply list_elem_of_bind in Hid as (y & Hy & Hin).
  apply elem_of_replicate in Hy as [-> _]. by apply elem_of_face_ids.
Qed.

Lemma length_triangle (c : OM.vec3) (e : edge) : length (triangle c e) = 9.
Proof. by destruct c as [[??]?], e as [[[??]?] [[??]?]]. Qed.

Lemma makeFace_lengths (indices : list Z) (points : list value) :
  length (makeFace indices points).2 = 9 * length (makeFace indices points).1.
Proof.
  rewrite makeFace_eq. simpl.
  induction (face_ids indices) as [|id ids IH]; [done|].
  rewrite !bind_cons, !length_app, IH, length_replicate.
  unfold fan. rewrite (length_bind_uniform _ 9) by apply length_triangle. lia.
Qed.

(** The sizes of the arrays a compaction step leaves behind: one tag per
    surviving triangle and per sealed triangle, twelve floats per surviving
    triangle but nine per sealed triangle. *)
Lemma outputToInput_arrays_lengths (arrtrioutcells : list Z) (arrtriout : list number)
    (arrnewoutcells : list Z) (arrnewout : list number) :
  let out := outputToInput_arrays arrtrioutcells arrtriout arrnewoutcells arrnewout in
  let survivors := length (floatNcompact 12 arrtrioutcells arrtriout).1 in
  let sealed :=
    length (makeFace (floatNcompact 8 arrnewoutcells arrnewout).1
                     (floatNcompact 8 arrnewoutcells arrnewout).2).1 in
  length out.1 = survivors + sealed
  ∧ length out.2 = 12 * survivors + 9 * sealed.
Proof.
  cbv zeta. unfold outputToInput_arrays.
  pose proof (floatNcompact_lengths 12 arrtrioutcells arrtriout) as Hlen.
  destruct (floatNcompact 12 arrtrioutcells arrtriout) as [tricells tris].
  destruct (floatNcompact 8 arrnewoutcells arrnewout) as [newcells news].
  cbn [fst snd] in *.
  pose proof (makeFace_lengths newcells news) as Hface.
  destruct (makeFace newcells news) as [indices values]. cbn [fst snd] in *.
  unfold Int32Array_from, Float32Array_from.
  rewrite !length_fmap, !length_app. lia.
Qed.

(** The tags a compaction step leaves behind do not contain [-1], whatever
    the four arrays read back, as long as the tags are 32-bit. *)
Lemma outputToInput_arrays_no_sentinel (arrtrioutcells : list Z)
    (arrtriout : list number) (arrnewoutcells : list Z) (arrnewout : list number) :
  Forall int32 arrtrioutcells → Forall int32 arrnewoutcells →
  Forall (λ t, t ≠ (-1)%Z)
    (outputToInput_arrays arrtrioutcells arrtriout arrnewoutcells arrnewout).1.
Proof.
  intros Htri Hnew. unfold outputToInput_arrays.
  rewrite !floatNcompact_eq.
  destruct (makeFace _ _) as [indices values] eqn:Hface. simpl.
  unfold Int32Array_from. rewrite fmap_app, Forall_app. split.
  - apply Forall_fmap, Forall_forall. intros t [Ht Hin]%list_elem_of_filter.
    simpl. rewrite ToInt32_int32; [done|].
    by eapply Forall_forall in Htri.
  - apply Forall_fmap, Forall_forall. intros id Hid. simpl.
    assert (id ∈ (makeFace (filter (λ t, t ≠ (-1)%Z) arrnewoutcells)
                           (kept arrnewoutcells ≫= record_at 8 arrnewout)).1)
      as Hr%makeFace_ids_range by (by rewrite Hface).
    assert (face_count (filter (λ t, t ≠ (-1)%Z) arrnewoutcells) ≤ 2 ^ 31)%Z.
    { apply face_count_int32, Forall_forall.
      intros t [_ Hin]%list_elem_of_filter. by eapply Forall_forall in Hnew. }
    rewrite ToInt32_int32; [lia|]. unfold int32. lia.
Qed.

(** C3, on the code: a compaction step that seals a face breaks the
    invariant. On the all-zero read-back of a dispatch for one triangle (two
    survivor slots, one cut-edge slot) the new [arrtricells] has three tags
    but the new [arrtris] has 33 floats, not 36: [makeFace] pushes three
    3-float vectors, nine floats, per sealed triangle. *)
Lemma sealed_triangle_has_nine_floats :
  let out := outputToInput_arrays [0; 0]%Z (replicate 24 zero)
                                  [0]%Z (replicate 8 zero) in
  out.1 = [0; 0; 0]%Z ∧ length out.2 = 33 ∧ length out.2 ≠ 12 * length out.1.
Proof. vm_compute. split_and!; [reflexivity|reflexivity|discriminate]. Qed.

(** ** Order on JavaScript numbers *)

Ltac cmp_cases :=
  repeat match goal with
    | |- context [Z.compare ?a ?b] => destruct (Z.compare_spec a b); subst
    | |- context [Pos.compare_cont Eq ?a ?b] =>
        change (Pos.compare_cont Eq a b) with (Pos.compare a b);
        destruct (Pos.compare_spec a b); subst
    end; simpl; try done; try lia.

Lemma SFcompare_refl (x : number) : x ≠ NaN → SFcompare x x = Some Eq.
Proof.
  destruct x as [[]|[]| |[] m e]; simpl; try done; intros _;
    rewrite Z.compare_refl;
    change (Pos.compare_cont Eq m m) with (Pos.compare m m);
    by rewrite Pos.compare_refl.
Qed.

Lemma SFcompare_antisym (x y : number) :
  SFcompare y x = CompOpp <$> SFcompare x y.
Proof.
  destruct x as [[]|[]| |[] mx ex], y as [[]|[]| |[] my ey]; simpl; try done.
  all: rewrite (Z.compare_antisym ex ey);
    change (Pos.compare_cont Eq my mx) with (Pos.compare my mx);
    change (Pos.compare_cont Eq mx my) with (Pos.compare mx my);
    rewrite (Pos.compare_antisym mx my);
    destruct (ex ?= ey)%Z; simpl; try done; by destruct (mx ?= my)%positive.
Qed.

Lemma le_refl (x : number) : x ≠ NaN → le x x.
Proof. intros Hx. unfold le, SFleb. by rewrite SFcompare_refl. Qed.

Lemma le_trans (x y z : number) : le x y → le y z → le x z.
Proof.
  unfold le, SFleb.
  destruct x as [[]|[]| |[] mx ex], y as [[]|[]| |[] my ey],
    z as [[]|[]| |[] mz ez]; simpl; try done.
  all: cmp_cases.
Qed.

Lemma le_not_nan (x y : number) : le x y → x ≠ NaN ∧ y ≠ NaN.
Proof. unfold le, SFleb. by destruct x, y. Qed.

Lemma SFcompare_not_nan (x y : number) :
  x ≠ NaN → y ≠ NaN → is_Some (SFcompare x y).
Proof. destruct x, y; simpl; try done; intros; eauto. Qed.

Lemma Math_min_not_nan (x y : number) :
  x ≠ NaN → y ≠ NaN → Math_min x y ≠ NaN.
Proof.
  intros Hx Hy. unfold Math_min.
  destruct (SFcompare_not_nan x y Hx Hy) as [[] ->]; try done.
  by destruct x, y.
Qed.

Lemma Math_max_not_nan (x y : number) :
  x ≠ NaN → y ≠ NaN → Math_max x y ≠ NaN.
Proof.
  intros Hx Hy. unfold Math_max.
  destruct (SFcompare_not_nan x y Hx Hy) as [[] ->]; try done.
  by destruct x, y.
Qed.

Lemma Math_min_le_l (x y : number) : x ≠ NaN → y ≠ NaN → le (Math_min x y) x.
Proof.
  intros Hx Hy. unfold Math_min, le, SFleb.
  destruct (SFcompare x y) as [[]|] eqn:Hc.
  - destruct x, y; try done; by rewrite ?SFcompare_refl.
  - by rewrite SFcompare_refl.
  - by rewrite SFcompare_antisym, Hc.
  - destruct (SFcompare_not_nan x y Hx Hy) as [? ?]; congruence.
Qed.

Lemma Math_min_le_r (x y : number) : x ≠ NaN → y ≠ NaN → le (Math_min x y) y.
Proof.
  intros Hx Hy. unfold Math_min, le, SFleb.
  destruct (SFcompare x y) as [[]|] eqn:Hc.
  - destruct x, y; try done; by rewrite ?Hc.
  - by rewrite Hc.
  - by rewrite SFcompare_refl.
  - destruct (SFcompare_not_nan x y Hx Hy) as [? ?]; congruence.
Qed.

Lemma Math_max_ge_l (x y : number) : x ≠ NaN → y ≠ NaN → le x (Math_max x y).
Proof.
  intros Hx Hy. unfold Math_max, le, SFleb.
  destruct (SFcompare x y) as [[]|] eqn:Hc.
  - destruct x, y; try done; by rewrite ?SFcompare_refl.
  - by rewrite Hc.
  - by rewrite SFcompare_refl.
  - destruct (SFcompare_not_nan x y Hx Hy) as [? ?]; congruence.
Qed.

Lemma Math_max_ge_r (x y : number) : x ≠ NaN → y ≠ NaN → le y (Math_max x y).
Proof.
  intros Hx Hy. unfold Math_max, le, SFleb.
  destruct (SFcompare x y) as [[]|] eqn:Hc.
  - rewrite SFcompare_antisym. destruct x, y; try done; by rewrite ?Hc.
  - by rewrite SFcompare_refl.
  - by rewrite SFcompare_antisym, Hc.
  - destruct (SFcompare_not_nan x y Hx Hy) as [? ?]; congruence.
Qed.

Lemma SFcompare_Eq_finite (s : bool) (m : positive) (e : Z) (p : number) :
  SFcompare (S754_finite s m e) p = Some Eq → p = S754_finite s m e.
Proof.
  destruct p as [[]|[]| |[] mp ep], s; simpl; try done.
  all: destruct (Z.compare_spec e ep); try done; subst;
    change (Pos.compare_cont Eq m mp) with (Pos.compare m mp);
    destruct (Pos.compare_spec m mp); try done; by subst.
Qed.

Lemma Math_min_finite_r (s : bool) (m : positive) (e : Z) (p : number) :
  le p (S754_finite s m e) → Math_min (S754_finite s m e) p = p.
Proof.
  unfold le, SFleb, Math_min. rewrite (SFcompare_antisym p).
  destruct (SFcompare p (S754_finite s m e)) as [[]|] eqn:Hc; simpl; try done.
  intros _. rewrite SFcompare_antisym in Hc.
  destruct (SFcompare (S754_finite s m e) p) as [[]|] eqn:Hc'; try done.
  by apply SFcompare_Eq_finite in Hc'.
Qed.

Lemma Math_max_finite_r (s : bool) (m : positive) (e : Z) (p : number) :
  le (S754_finite s m e) p → Math_max (S754_finite s m e) p = p.
Proof.
  unfold le, SFleb, Math_max.
  destruct (SFcompare (S754_finite s m e) p) as [[]|] eqn:Hc; simpl; try done.
  intros _. by apply SFcompare_Eq_finite in Hc.
Qed.

(** ** Running bounds *)

Lemma le3_trans (a b c : OM.vec3) : le3 a b → le3 b c → le3 a c.
Proof.
  destruct a as [[??]?], b as [[??]?], c as [[??]?].
  intros (?&?&?) (?&?&?). split_and!; by eapply le_trans.
Qed.

Lemma no_nan_ToNumber (v : value) : finite_or_inf v → ToNumber v ≠ NaN.
Proof. by intros (x & -> & Hx). Qed.

Lemma finite_or_inf_Some (x : number) : x ≠ NaN → finite_or_inf (Some x).
Proof. intros Hx. by exists x. Qed.

Lemma compwise_min_bounds (a p : OM.vec3) :
  no_nan a → no_nan p →
  no_nan (OM.compwise Math_min_v a p)
  ∧ le3 (OM.compwise Math_min_v a p) a ∧ le3 (OM.compwise Math_min_v a p) p.
Proof.
  destruct a as [[a0 a1] a2], p as [[p0 p1] p2].
  intros (Ha0%no_nan_ToNumber & Ha1%no_nan_ToNumber & Ha2%no_nan_ToNumber)
         (Hp0%no_nan_ToNumber & Hp1%no_nan_ToNumber & Hp2%no_nan_ToNumber).
  unfold Math_min_v. simpl.
  split_and!;
    first [ by apply finite_or_inf_Some, Math_min_not_nan
          | by apply Math_min_le_l | by apply Math_min_le_r ].
Qed.

Lemma compwise_max_bounds (a p : OM.vec3) :
  no_nan a → no_nan p →
  no_nan (OM.compwise Math_max_v a p)
  ∧ le3 a (OM.compwise Math_max_v a p) ∧ le3 p (OM.compwise Math_max_v a p).
Proof.
  destruct a as [[a0 a1] a2], p as [[p0 p1] p2].
  intros (Ha0%no_nan_ToNumber & Ha1%no_nan_ToNumber & Ha2%no_nan_ToNumber)
         (Hp0%no_nan_ToNumber & Hp1%no_nan_ToNumber & Hp2%no_nan_ToNumber).
  unfold Math_max_v. simpl.
  split_and!;
    first [ by apply finite_or_inf_Some, Math_max_not_nan
          | by apply Math_max_ge_l | by apply Math_max_ge_r ].
Qed.

(** The running minimum is below its start and below every point folded in,
    as long as no coordinate is NaN. *)
Lemma running_min_below (pts : list OM.vec3) (acc : OM.vec3) :
  no_nan acc → Forall no_nan pts →
  let m := foldl (OM.compwise Math_min_v) acc pts in
  no_nan m ∧ (pts = [] ∨ le3 m acc) ∧ Forall (le3 m) pts.
Proof.
  revert acc. induction pts as [|p pts IH]; intros acc Hacc Hpts.
  - simpl. split_and!; [done|by left|done].
  - apply Forall_cons in Hpts as [Hp Hpts].
    destruct (compwise_min_bounds acc p Hacc Hp) as (Hn & Hla & Hlp).
    destruct (IH _ Hn Hpts) as (Hm & Hacc' & Hall). simpl.
    assert (le3 (foldl (OM.compwise Math_min_v) (OM.compwise Math_min_v acc p) pts)
                (OM.compwise Math_min_v acc p)) as Hstep.
    { destruct Hacc' as [->|?]; [|done]. simpl.
      destruct (OM.compwise Math_min_v acc p) as [[m0 m1] m2].
      destruct Hn as (?%no_nan_ToNumber & ?%no_nan_ToNumber & ?%no_nan_ToNumber).
      split_and!; by apply le_refl. }
    split_and!; [done|right; by eapply le3_trans| ].
    apply Forall_cons. split; [by eapply le3_trans|done].
Qed.

Lemma running_max_above (pts : list OM.vec3) (acc : OM.vec3) :
  no_nan acc → Forall no_nan pts →
  let m := foldl (OM.compwise Math_max_v) acc pts in
  no_nan m ∧ (pts = [] ∨ le3 acc m) ∧ Forall (λ p, le3 p m) pts.
Proof.
  revert acc. induction pts as [|p pts IH]; intros acc Hacc Hpts.
  - simpl. split_and!; [done|by left|done].
  - apply Forall_cons in Hpts as [Hp Hpts].
    destruct (compwise_max_bounds acc p Hacc Hp) as (Hn & Hla & Hlp).
    destruct (IH _ Hn Hpts) as (Hm & Hacc' & Hall). simpl.
    assert (le3 (OM.compwise Math_max_v acc p)
                (foldl (OM.compwise Math_max_v) (OM.compwise Math_max_v acc p) pts))
      as Hstep.
    { destruct Hacc' as [->|?]; [|done]. simpl.
      destruct (OM.compwise Math_max_v acc p) as [[m0 m1] m2].
      destruct Hn as (?%no_nan_ToNumber & ?%no_nan_ToNumber & ?%no_nan_ToNumber).
      split_and!; by apply le_refl. }
    split_and!; [done|right; by eapply le3_trans| ].
    apply Forall_cons. split; [by eapply le3_trans|done].
Qed.

Lemma no_nan_seed_min : no_nan seed_min.
Proof. split_and!; by eexists. Qed.

Lemma no_nan_seed_max : no_nan seed_max.
Proof. split_and!; by eexists. Qed.

(** A point within the seed range is absorbed by the seeds. *)
Lemma le_Some (v : value) (x : number) :
  le (ToNumber v) x ∨ le x (ToNumber v) → v = Some (ToNumber v).
Proof.
  destruct v as [y|]; [done|]. simpl.
  intros [H|H]; apply le_not_nan in H; tauto.
Qed.

Lemma compwise_min_seed (p : OM.vec3) :
  le3 p seed_min → OM.compwise Math_min_v seed_min p = p.
Proof.
  destruct p as [[p0 p1] p2]. intros (H0 & H1 & H2).
  unfold seed_min, vec3_of, OM.compwise, Math_min_v.
  rewrite (le_Some p0 (of_int 10000)), (le_Some p1 (of_int 10000)),
    (le_Some p2 (of_int 10000)) by (by left).
  simpl in *. repeat f_equal; by apply (Math_min_finite_r false).
Qed.

Lemma compwise_max_seed (p : OM.vec3) :
  le3 seed_max p → OM.compwise Math_max_v seed_max p = p.
Proof.
  destruct p as [[p0 p1] p2]. intros (H0 & H1 & H2).
  unfold seed_max, vec3_of, OM.compwise, Math_max_v.
  rewrite (le_Some p0 (of_int (-10000))), (le_Some p1 (of_int (-10000))),
    (le_Some p2 (of_int (-10000))) by (by right).
  simpl in *. repeat f_equal; by apply (Math_max_finite_r true).
Qed.

(** ** The Fragment Assembler *)

Lemma foldl_ext {A B} (f g : A → B → A) (a : A) (l : list B) :
  (∀ a x, f a x = g a x) → foldl f a l = foldl g a l.
Proof.
  intros Hfg. revert a. induction l as [|x l IH]; intros a; simpl; [done|].
  by rewrite Hfg, IH.
Qed.

Lemma collect_triangle_eq (arrtris : list number) (i : nat) (c : CellFace.t) :
  collect_triangle arrtris i c
  = CellFace.make
      (foldl (OM.compwise Math_min_v) (CellFace.min c) (triangle_vertices arrtris i))
      (foldl (OM.compwise Math_max_v) (CellFace.max c) (triangle_vertices arrtris i))
      (CellFace.points c ++ triangle_vertices arrtris i)
      (CellFace.faces c ++ [(length (CellFace.faces c) * 3,
                             length (CellFace.faces c) * 3 + 1,
                             length (CellFace.faces c) * 3 + 2)])
      (CellFace.position c) (CellFace.size c).
Proof.
  unfold collect_triangle, triangle_vertices. simpl.
  by rewrite <- !app_assoc.
Qed.

Lemma collected_cell (arrtris : list number) (ps : list nat) :
  foldl (λ c i, collect_triangle arrtris i c) new_cell ps
  = CellFace.make
      (foldl (OM.compwise Math_min_v) seed_min (ps ≫= triangle_vertices arrtris))
      (foldl (OM.compwise Math_max_v) seed_max (ps ≫= triangle_vertices arrtris))
      (ps ≫= triangle_vertices arrtris) (face_list (length ps)) None None.
Proof.
  induction ps as [|i ps IH] using rev_ind; [done|].
  rewrite foldl_snoc, IH, collect_triangle_eq.
  cbn [CellFace.min CellFace.max CellFace.points CellFace.faces
       CellFace.position CellFace.size].
  rewrite bind_app, !foldl_app, length_app.
  change ([i] ≫= triangle_vertices arrtris)
    with (triangle_vertices arrtris i ++ []).
  rewrite app_nil_r.
  unfold face_list. rewrite length_fmap, length_seq.
  replace (length ps + length [i]) with (S (length ps)) by (simpl; lia).
  by rewrite seq_S, fmap_app.
Qed.

Lemma members_shift (tags : list Z) (b : Z) :
  members ((λ t, (t + 2)%Z) <$> tags) b = members tags (b - 2).
Proof.
  unfold members. rewrite length_fmap. apply list_filter_iff.
  intros i. rewrite list_lookup_fmap.
  destruct (tags !! i) as [t|]; simpl; [|done].
  split; intros [=]; f_equal; lia.
Qed.

(** What the "collect" loop leaves in every bucket, and the [length] of
    [cellfaces]. *)
Lemma collect_spec (arrtricells : list Z) (arrtris : list number) :
  let cellfaces := collect arrtricells arrtris in
  (∀ b, Array.get cellfaces b
        = match members arrtricells (b - 2) with
          | [] => None
          | _ => Some (collected_bucket arrtricells arrtris (b - 2))
          end)
  ∧ Array.length cellfaces = key_count ((λ t, (t + 2)%Z) <$> arrtricells).
Proof.
  destruct (group_by_key_spec ((λ t, (t + 2)%Z) <$> arrtricells) new_cell
              (collect_triangle arrtris)) as [Hget Hlen].
  assert (collect arrtricells arrtris
          = group_by_key ((λ t, (t + 2)%Z) <$> arrtricells) new_cell
              (collect_triangle arrtris)) as ->.
  { unfold collect, group_by_key. rewrite length_fmap.
    apply foldl_ext. intros arr i. rewrite list_lookup_fmap.
    by destruct (arrtricells !! i). }
  split; [|done].
  intros b. rewrite Hget, members_shift.
  destruct (members arrtricells (b - 2)) as [|i ps] eqn:Hm; [done|].
  rewrite collected_cell. unfold collected_bucket, tagged_points.
  by rewrite Hm.
Qed.

Lemma elem_of_indices {A} (arr : Array.t A) (k : Z) :
  k ∈ Array.indices arr ↔ (0 ≤ k < Array.length arr)%Z.
Proof.
  unfold Array.indices. rewrite list_elem_of_fmap. split.
  - intros (n & -> & Hn). apply elem_of_seq in Hn. lia.
  - intros Hk. exists (Z.to_nat k). split; [lia|]. apply elem_of_seq. lia.
Qed.

Lemma NoDup_indices {A} (arr : Array.t A) : NoDup (Array.indices arr).
Proof.
  unfold Array.indices. apply NoDup_fmap_2; [|apply NoDup_seq].
  intros x y. lia.
Qed.

Lemma recenter_loop (ks : list Z) (arr : Array.t CellFace.t) :
  NoDup ks →
  let arr' :=
    foldl (λ cellfaces i,
             match Array.get cellfaces i with
             | None => cellfaces
             | Some c => Array.update cellfaces i (recenter_cell c)
             end) arr ks in
  (∀ k, Array.get arr' k
        = if decide (k ∈ ks) then recenter_cell <$> Array.get arr k
          else Array.get arr k)
  ∧ Array.length arr' = Array.length arr.
Proof.
  intros Hnd. revert arr. induction Hnd as [|y ks Hy Hnd IH]; intros arr.
  - split; [|done]. intros k. simpl.
    destruct (decide (k ∈ [])) as [H|H]; [by apply elem_of_nil in H|done].
  - simpl. destruct (Array.get arr y) as [c|] eqn:Hc.
    + destruct (IH (Array.update arr y (recenter_cell c))) as [Hget Hlen].
      split; [|by rewrite Hlen]. intros k. rewrite Hget.
      unfold Array.get, Array.update in *. simpl.
      destruct (decide (k = y)) as [->|Hne].
      * rewrite decide_False, decide_True by (done || left).
        by rewrite lookup_insert_eq, Hc.
      * rewrite lookup_insert_ne by done.
        destruct (decide (k ∈ ks)) as [Hin|Hin].
        -- by rewrite decide_True by (by right).
        -- rewrite decide_False; [done|]. by intros [?|?]%elem_of_cons.
    + destruct (IH arr) as [Hget Hlen]. split; [|done].
      intros k. rewrite Hget.
      destruct (decide (k = y)) as [->|Hne].
      * rewrite decide_False, decide_True by (done || left). by rewrite Hc.
      * destruct (decide (k ∈ ks)) as [Hin|Hin].
        -- by rewrite decide_True by (by right).
        -- rewrite decide_False; [done|]. by intros [?|?]%elem_of_cons.
Qed.

(** The "recenter" loop rewrites exactly the buckets at the array indices
    below [length], and leaves [length] alone. *)
Lemma recenter_spec (arr : Array.t CellFace.t) :
  (∀ k, Array.get (recenter arr) k
        = if decide (0 ≤ k < Array.length arr)%Z
          then recenter_cell <$> Array.get arr k else Array.get arr k)
  ∧ Array.length (recenter arr) = Array.length arr.
Proof.
  destruct (recenter_loop (Array.indices arr) arr (NoDup_indices arr))
    as [Hget Hlen].
  split; [|done]. intros k. unfold recenter. rewrite Hget.
  destruct (decide (k ∈ Array.indices arr)) as [Hin|Hin].
  - by rewrite decide_True by (by apply elem_of_indices).
  - rewrite decide_False; [done|]. by rewrite <- elem_of_indices.
Qed.

Lemma transform_fragments_loop (arr : Array.t CellFace.t) (ks : list Z)
    (made : list (Z * list value)) :
  (foldl (λ made i,
            match Array.get arr i with
            | Some fr => made ++ [(i, CellFace.points fr ≫= OM.spread)]
            | None => made
            end) made ks).*1
  = made.*1 ++ filter (λ i, is_Some (Array.get arr i)) ks.
Proof.
  revert made. induction ks as [|k ks IH]; intros made; simpl.
  - by rewrite app_nil_r.
  - rewrite IH, filter_cons. destruct (Array.get arr k) as [fr|] eqn:Hk.
    + rewrite decide_True by done. rewrite fmap_app, <- app_assoc. done.
    + rewrite decide_False; [done|]. by intros [??].
Qed.

Lemma transform_fragments_indices (arr : Array.t CellFace.t) (b : Z) :
  b ∈ (transform_fragments arr).*1
  ↔ (0 ≤ b < Array.length arr)%Z ∧ is_Some (Array.get arr b).
Proof.
  unfold transform_fragments. rewrite transform_fragments_loop. simpl.
  by rewrite list_elem_of_filter, elem_of_indices, (comm and).
Qed.

Lemma key_count_lt (l : list Z) (k : Z) :
  (0 ≤ k < key_count l)%Z → Array.is_index k.
Proof. pose proof (key_count_bounds l). unfold Array.is_index. lia. Qed.

(** An entry of the assembled result exists exactly where the collect loop
    left one. *)
Lemma assemble_is_Some (arrtricells : list Z) (arrtris : list number) (b : Z) :
  is_Some (Array.get (assemble arrtricells arrtris) b)
  ↔ (b - 2)%Z ∈ arrtricells.
Proof.
  unfold assemble.
  destruct (recenter_spec (collect arrtricells arrtris)) as [Hget _].
  destruct (collect_spec arrtricells arrtris) as [Hc _].
  rewrite Hget, Hc.
  destruct (decide (b - 2 ∈ arrtricells)%Z) as [Hin|Hin].
  - pose proof (members_cons _ _ Hin).
    destruct (members arrtricells (b - 2)); [done|].
    case_decide; simpl; split; eauto.
  - rewrite members_nil by done.
    case_decide; simpl; split; try done; by intros [??].
Qed.

Lemma tagged_points_nonempty (arrtricells : list Z) (arrtris : list number) (t : Z) :
  t ∈ arrtricells → tagged_points arrtricells arrtris t ≠ [].
Proof.
  intros Ht%members_cons. unfold tagged_points.
  by destruct (members arrtricells t).
Qed.

(** An assembled bucket, in terms of the bucket the collect loop built. *)
Lemma assemble_get (arrtricells : list Z) (arrtris : list number) (b : Z)
    (c : CellFace.t) :
  Array.get (assemble arrtricells arrtris) b = Some c →
  (b - 2)%Z ∈ arrtricells
  ∧ c = (if decide (Array.is_index b) then recenter_cell else id)
          (collected_bucket arrtricells arrtris (b - 2)).
Proof.
  intros Hc.
  assert ((b - 2)%Z ∈ arrtricells) as Hin
    by (eapply assemble_is_Some; rewrite Hc; eauto).
  split; [done|]. unfold assemble in Hc.
  destruct (recenter_spec (collect arrtricells arrtris)) as [Hget _].
  destruct (collect_spec arrtricells arrtris) as [Hcol Hlen].
  rewrite Hget, Hcol, Hlen in Hc.
  pose proof (members_cons _ _ Hin).
  destruct (members arrtricells (b - 2)) as [|i ps]; [done|].
  destruct (decide (Array.is_index b)) as [Hidx|Hidx].
  - rewrite decide_True in Hc; [by injection Hc|].
    assert (b ∈ (λ t, (t + 2)%Z) <$> arrtricells) as Hb.
    { apply list_elem_of_fmap. exists (b - 2)%Z. split; [lia|done]. }
    pose proof (key_count_ge _ _ Hb Hidx). unfold Array.is_index in Hidx. lia.
  - rewrite decide_False in Hc; [by injection Hc|].
    intros Hlt. by apply key_count_lt in Hlt.
Qed.

(** C8. The Fragment Assembler puts the triangles tagged [t] into bucket
    [t + 2], so the void tag [-2] lands in bucket 0; a bucket that receives
    no triangle does not exist in the result, and [transform] materialises
    a fragment exactly for the buckets at array indices that did receive
    one. *)
Theorem buckets_by_tag (arrtricells : list Z) (arrtris : list number) :
  let cellfaces := assemble arrtricells arrtris in
  (∀ t, t ∈ arrtricells →
     ∃ c, Array.get (collect arrtricells arrtris) (t + 2) = Some c
          ∧ CellFace.points c = tagged_points arrtricells arrtris t
          ∧ is_Some (Array.get cellfaces (t + 2)))
  ∧ ((-2)%Z ∈ arrtricells → is_Some (Array.get cellfaces 0))
  ∧ (∀ b, (b - 2)%Z ∉ arrtricells →
       Array.get cellfaces b = None
       ∧ b ∉ (transform_fragments cellfaces).*1)
  ∧ (∀ b, b ∈ (transform_fragments cellfaces).*1
          ↔ Array.is_index b ∧ (b - 2)%Z ∈ arrtricells).
Proof.
  cbv zeta.
  assert (∀ b, b ∈ (transform_fragments (assemble arrtricells arrtris)).*1
               ↔ Array.is_index b ∧ (b - 2)%Z ∈ arrtricells) as Hfrag.
  { intros b. rewrite transform_fragments_indices, assemble_is_Some.
    unfold assemble.
    destruct (recenter_spec (collect arrtricells arrtris)) as [_ ->].
    destruct (collect_spec arrtricells arrtris) as [_ ->].
    split.
    - intros [Hb Hin]. split; [by eapply key_count_lt|done].
    - intros [Hidx Hin]. split; [|done].
      assert (b ∈ (λ t, (t + 2)%Z) <$> arrtricells) as Hb.
      { apply list_elem_of_fmap. exists (b - 2)%Z. split; [lia|done]. }
      pose proof (key_count_ge _ _ Hb Hidx). unfold Array.is_index in Hidx. lia. }
  split_and!.
  - intros t Ht.
    destruct (collect_spec arrtricells arrtris) as [Hcol _].
    exists (collected_bucket arrtricells arrtris t).
    rewrite Hcol. replace (t + 2 - 2)%Z with t by lia.
    pose proof (members_cons _ _ Ht).
    destruct (members arrtricells t); [done|].
    split_and!; [done|done|].
    apply (assemble_is_Some arrtricells arrtris (t + 2)).
    by replace (t + 2 - 2)%Z with t by lia.
  - intros Hvoid. by apply (assemble_is_Some arrtricells arrtris 0).
  - intros b Hb. split.
    + apply eq_None_not_Some. by rewrite assemble_is_Some.
    + rewrite Hfrag. tauto.
  - done.
Qed.

(** Without NaN coordinates, the running bounds started from the seeds
    enclose every point they were folded over. *)
Lemma running_bounds_enclose (pts : list OM.vec3) :
  Forall no_nan pts →
  Forall (within (foldl (OM.compwise Math_min_v) seed_min pts)
                 (foldl (OM.compwise Math_max_v) seed_max pts)) pts.
Proof.
  intros Hpts.
  destruct (running_min_below pts seed_min no_nan_seed_min Hpts) as (_ & _ & Hlo).
  destruct (running_max_above pts seed_max no_nan_seed_max Hpts) as (_ & _ & Hhi).
  apply Forall_forall. intros p Hp. split.
  - by eapply Forall_forall in Hlo.
  - by eapply (Forall_forall (λ p, le3 p _)) in Hhi.
Qed.

(** The bounds of an assembled bucket are those the collect loop computed. *)
Lemma assemble_bounds (arrtricells : list Z) (arrtris : list number) (b : Z)
    (c : CellFace.t) :
  Array.get (assemble arrtricells arrtris) b = Some c →
  CellFace.min c
  = foldl (OM.compwise Math_min_v) seed_min
      (tagged_points arrtricells arrtris (b - 2))
  ∧ CellFace.max c
    = foldl (OM.compwise Math_max_v) seed_max
        (tagged_points arrtricells arrtris (b - 2)).
Proof. intros [Hin ->]%assemble_get. by case_decide. Qed.

(** C10, as the code has it. The bounds of a bucket are the running
    [Math.min] and [Math.max] of its points, started from (10000, 10000,
    10000) and (-10000, -10000, -10000). When no coordinate of the bucket
    is NaN or [undefined], the box from [min] to [max] contains every point
    of the bucket; when all coordinates lie within [-10000, 10000], it is
    the tight bounding box. *)
Theorem bucket_bounds (arrtricells : list Z) (arrtris : list number) (b : Z)
    (c : CellFace.t) :
  Array.get (assemble arrtricells arrtris) b = Some c →
  let pts := tagged_points arrtricells arrtris (b - 2) in
  pts ≠ []
  ∧ CellFace.min c = foldl (OM.compwise Math_min_v) seed_min pts
  ∧ CellFace.max c = foldl (OM.compwise Math_max_v) seed_max pts
  ∧ (Forall no_nan pts →
       Forall (within (CellFace.min c) (CellFace.max c)) pts)
  ∧ (Forall (within seed_max seed_min) pts →
       CellFace.min c = tight_min pts ∧ CellFace.max c = tight_max pts).
Proof.
  intros Hc pts.
  destruct (assemble_bounds _ _ _ _ Hc) as [Hmin Hmax]. fold pts in Hmin, Hmax.
  apply assemble_get in Hc as [Hin _].
  rewrite Hmin, Hmax.
  pose proof (tagged_points_nonempty _ arrtris _ Hin) as Hne. fold pts in Hne.
  split_and!; [done|done|done|apply running_bounds_enclose|].
  intros Hpts. clearbody pts. destruct pts as [|p pts']; [done|].
  apply Forall_cons in Hpts as [[Hlo Hhi] _].
  unfold tight_min, tight_max. cbn [foldl].
  by rewrite compwise_min_seed, compwise_max_seed.
Qed.

(** The theorem applied to the bucket of [example_tris]. *)
Lemma bucket_bounds_witness :
  let c := recenter_cell (collected_bucket [0%Z] example_tris 0) in
  let pts := tagged_points [0%Z] example_tris (2 - 2) in
  pts ≠ []
  ∧ CellFace.min c = foldl (OM.compwise Math_min_v) seed_min pts
  ∧ CellFace.max c = foldl (OM.compwise Math_max_v) seed_max pts
  ∧ (Forall no_nan pts →
       Forall (within (CellFace.min c) (CellFace.max c)) pts)
  ∧ (Forall (within seed_max seed_min) pts →
       CellFace.min c = tight_min pts ∧ CellFace.max c = tight_max pts).
Proof.
  apply (bucket_bounds [0%Z] example_tris 2). vm_compute. reflexivity.
Defined.

(** On the triangle (1,2,3), (4,5,6), (7,8,9) the bucket of tag 0 has the
    bounds (1,2,3) and (7,8,9), the centre (4,5,6), the size (6,6,6), and
    the recentered points (-3,-3,-3), (0,0,0), (3,3,3). *)
Example example_bucket :
  let vec x y z : OM.vec3 := (Some (of_int x), Some (of_int y), Some (of_int z)) in
  Array.get (assemble [0%Z] example_tris) 2
  = Some (CellFace.make (vec 1 2 3) (vec 7 8 9)
            [vec (-3) (-3) (-3); vec 0 0 0; vec 3 3 3] [(0, 1, 2)%nat]
            (Some (vec 4 5 6)) (Some (vec 6 6 6)))%Z.
Proof. vm_compute. reflexivity. Qed.

(** C10, counterexamples to the claim as stated. With a NaN coordinate the
    bound of that axis is NaN and the box does not contain the points; and
    a triangle with x coordinates 0, 20000, 0 has its tight bounding box
    computed although a coordinate lies outside [-10000, 10000]. *)
Lemma bounds_with_NaN_or_wide_triangle :
  (∃ c, Array.get (assemble [0%Z] nan_tris) 2 = Some c
        ∧ ¬ Forall (within (CellFace.min c) (CellFace.max c))
              (tagged_points [0%Z] nan_tris 0))
  ∧ (∃ c, Array.get (assemble [0%Z] wide_tris) 2 = Some c
          ∧ CellFace.min c = tight_min (tagged_points [0%Z] wide_tris 0)
          ∧ CellFace.max c = tight_max (tagged_points [0%Z] wide_tris 0)
          ∧ ¬ Forall (within seed_max seed_min) (tagged_points [0%Z] wide_tris 0)).
Proof.
  split.
  - eexists. split; [vm_compute; reflexivity|].
    intros H. apply Forall_cons in H as [_ H]. apply Forall_cons in H as [H _].
    destruct H as [H _]. vm_compute in H. by destruct H.
  - eexists. split_and!; [vm_compute; reflexivity|vm_compute; reflexivity
                         |vm_compute; reflexivity|].
    intros H. apply Forall_cons in H as [_ H]. apply Forall_cons in H as [H _].
    destruct H as [_ H]. vm_compute in H. by destruct H.
Qed.

(** C5, as the code has it. For every bucket at an array index of the
    result, the Fragment Assembler sets [position] to [(min + max) * 0.5]
    and [size] to [max - min], componentwise in binary64 arithmetic, and
    rewrites every collected point [q] as [q - position]; when no
    coordinate is NaN or [undefined], every collected point lies within the
    box from [min] to [max] that [position] and [size] are computed from. *)
Theorem bucket_recentered (arrtricells : list Z) (arrtris : list number) (b : Z)
    (c : CellFace.t) :
  Array.is_index b →
  Array.get (assemble arrtricells arrtris) b = Some c →
  let pts := tagged_points arrtricells arrtris (b - 2) in
  let center := OM.mult3c (OM.add3 (CellFace.min c) (CellFace.max c)) half in
  CellFace.position c = Some center
  ∧ CellFace.size c = Some (OM.sub3 (CellFace.max c) (CellFace.min c))
  ∧ CellFace.points c = (λ q, OM.sub3 q center) <$> pts
  ∧ (Forall no_nan pts →
       Forall (within (CellFace.min c) (CellFace.max c)) pts).
Proof.
  intros Hidx Hc.
  destruct (assemble_bounds _ _ _ _ Hc) as [Hmin Hmax].
  apply assemble_get in Hc as [Hin ->].
  rewrite decide_True in Hmin, Hmax |- * by done.
  cbv zeta. split_and!; [done|done|done|].
  rewrite Hmin, Hmax. apply running_bounds_enclose.
Qed.

(** The theorem applied to the bucket of [example_tris], at index 2. *)
Lemma bucket_recentered_witness :
  let c := recenter_cell (collected_bucket [0%Z] example_tris 0) in
  let pts := tagged_points [0%Z] example_tris (2 - 2) in
  let center := OM.mult3c (OM.add3 (CellFace.min c) (CellFace.max c)) half in
  CellFace.position c = Some center
  ∧ CellFace.size c = Some (OM.sub3 (CellFace.max c) (CellFace.min c))
  ∧ CellFace.points c = (λ q, OM.sub3 q center) <$> pts
  ∧ (Forall no_nan pts →
       Forall (within (CellFace.min c) (CellFace.max c)) pts).
Proof.
  apply (bucket_recentered [0%Z] example_tris 2).
  - unfold Array.is_index. lia.
  - vm_compute. reflexivity.
Defined.

(** C5, counterexample to the claim as stated. The triangle of
    [rounding_tris] holds binary32 values only. Its bucket has
    [min.x = 3 * 2^-30] and [max.x = 2^23]; [min.x + max.x] rounds up, so
    [position.x = 2^22 + 2^-29], and [position.x - size.x / 2] is
    [7 * 2^-31]. The first stored point reconstructs to
    [p.x + position.x = 3 * 2^-30], which lies below that bound. *)
Lemma recentered_point_outside_box :
  fround <$> rounding_tris = rounding_tris
  ∧ ∃ c p center size,
      Array.get (assemble [0%Z] rounding_tris) 2 = Some c
      ∧ CellFace.points c !! 0 = Some p
      ∧ CellFace.position c = Some center
      ∧ CellFace.size c = Some size
      ∧ ¬ within (OM.sub3 center (OM.mult3c size half))
                 (OM.add3 center (OM.mult3c size half))
                 (OM.add3 p center).
Proof.
  split; [vm_compute; reflexivity|].
  do 4 eexists.
  split_and!; [vm_compute; reflexivity|reflexivity|reflexivity|reflexivity|].
  intros [H _]. vm_compute in H. by destruct H.
Qed.

(** ** GPU buffers *)

Lemma store_length {A} (ws : GPU.stores A) (buffer : GPU.Buffer A) :
  length (GPU.contents (GPU.store ws buffer)) = length (GPU.contents buffer).
Proof.
  unfold GPU.store. simpl. generalize (GPU.contents buffer).
  induction ws as [|w ws IH]; intros l; simpl; [done|].
  by rewrite IH, length_insert.
Qed.

(** A slot that the pass does not store to keeps what the buffer held. *)
Lemma store_unwritten {A} (ws : GPU.stores A) (buffer : GPU.Buffer A) (k : nat) :
  k ∉ ws.*1 →
  GPU.contents (GPU.store ws buffer) !! k = GPU.contents buffer !! k.
Proof.
  unfold GPU.store. simpl. generalize (GPU.contents buffer).
  induction ws as [|[j v] ws IH]; intros l Hk; simpl; [done|].
  rewrite fmap_cons, not_elem_of_cons in Hk. destruct Hk as [Hne Hk].
  rewrite IH by done. by apply list_lookup_insert_ne.
Qed.

Lemma createBuffer_contents {A} (zero : A) (n : nat) :
  GPU.contents (GPU.createBuffer zero (n * 4)) = replicate n zero.
Proof. unfold GPU.createBuffer, GPU.contents. by rewrite Nat.div_mul. Qed.

(** Reading back a whole buffer gives its contents. *)
Lemma readback_whole {A} (zero : A) (ws : GPU.stores A) (n size : nat) :
  size = n * 4 →
  GPU.readbackBuffer zero (GPU.store ws (GPU.createBuffer zero (n * 4))) size
  = GPU.contents (GPU.store ws (GPU.createBuffer zero (n * 4))).
Proof.
  intros ->. unfold GPU.readbackBuffer.
  rewrite decide_True by done. rewrite Nat.div_mul by done.
  apply resize_all_alt.
  by rewrite store_length, createBuffer_contents, length_replicate.
Qed.

Lemma div4_exact (a b : nat) : a = b * 4 → a / 4 = b.
Proof. intros ->. by apply Nat.div_mul. Qed.

Lemma readback_all {A} (zero : A) (buffer : GPU.Buffer A) (size : nat) :
  size = GPU.size buffer → length (GPU.contents buffer) = size / 4 →
  GPU.readbackBuffer zero buffer size = GPU.contents buffer.
Proof.
  intros -> Hlen. unfold GPU.readbackBuffer.
  rewrite decide_True by done. by apply resize_all_alt.
Qed.

(** ** The Classifier/Clipper dispatch *)

Section Dispatch.

Context (shader : ShaderModule) (kFracturePattern : FracturePattern).
Context (fractureCenter : list number) (iteration n : nat).
Context (this : FractureTransform).

Let this' := dispatchFracture shader kFracturePattern fractureCenter iteration n this.
Let pass :=
  fracture_pass shader kFracturePattern fractureCenter iteration n
    (buftricells this') (buftris this').

Lemma dispatchFracture_buffers :
  buftrioutcells this'
  = GPU.store (trioutcells_stores pass) (GPU.createBuffer 0%Z (n * 2 * 4))
  ∧ buftriout this'
    = GPU.store (triout_stores pass) (GPU.createBuffer zero (n * 2 * 12 * 4))
  ∧ bufnewoutcells this'
    = GPU.store (newoutcells_stores pass) (GPU.createBuffer 0%Z (n * 4))
  ∧ bufnewout this'
    = GPU.store (newout_stores pass) (GPU.createBuffer zero (n * 2 * 4 * 4)).
Proof. done. Qed.

Lemma dispatchFracture_lengths :
  length (GPU.contents (buftrioutcells this')) = 2 * n
  ∧ length (GPU.contents (buftriout this')) = 2 * n * 12
  ∧ length (GPU.contents (bufnewoutcells this')) = n
  ∧ length (GPU.contents (bufnewout this')) = 2 * n * 4.
Proof.
  destruct dispatchFracture_buffers as (-> & -> & -> & ->).
  rewrite !store_length, !createBuffer_contents, !length_replicate. lia.
Qed.

Lemma dispatchFracture_trace :
  trace this' = trace this ++ [DispatchFracture iteration n].
Proof. done. Qed.

End Dispatch.

(** C9, as the code has it. A dispatch for [n] input triangles allocates
    [2n] tag slots and [2n] 12-float triangle records for the survivors,
    and [n] tag slots and [2n * 4] floats for the cut edges: room for 2
    triangles and 1 cut-edge fragment (8 floats) per input triangle. The
    host writes no sentinel: a slot the pass does not store to holds the 0
    of the buffer's zero initialisation. *)
Theorem dispatchFracture_capacity (shader : ShaderModule)
    (kFracturePattern : FracturePattern) (fractureCenter : list number)
    (iteration n : nat) (this : FractureTransform) :
  let this' :=
    dispatchFracture shader kFracturePattern fractureCenter iteration n this in
  let pass :=
    fracture_pass shader kFracturePattern fractureCenter iteration n
      (buftricells this') (buftris this') in
  length (GPU.contents (buftrioutcells this')) = 2 * n
  ∧ length (GPU.contents (buftriout this')) = 2 * n * 12
  ∧ length (GPU.contents (bufnewoutcells this')) = n
  ∧ length (GPU.contents (bufnewout this')) = 2 * n * 4
  ∧ (∀ triangles fragments, triangles ≤ 2 * n → fragments ≤ 1 * n →
       triangles ≤ length (GPU.contents (buftrioutcells this'))
       ∧ triangles * 12 ≤ length (GPU.contents (buftriout this'))
       ∧ fragments ≤ length (GPU.contents (bufnewoutcells this'))
       ∧ fragments * 8 ≤ length (GPU.contents (bufnewout this')))
  ∧ (∀ k, k < 2 * n → k ∉ (trioutcells_stores pass).*1 →
       GPU.contents (buftrioutcells this') !! k = Some 0%Z)
  ∧ (∀ k, k < n → k ∉ (newoutcells_stores pass).*1 →
       GPU.contents (bufnewoutcells this') !! k = Some 0%Z).
Proof.
  intros this' pass.
  destruct (dispatchFracture_lengths shader kFracturePattern fractureCenter
              iteration n this) as (H1 & H2 & H3 & H4).
  fold this' in H1, H2, H3, H4.
  destruct (dispatchFracture_buffers shader kFracturePattern fractureCenter
              iteration n this) as (B1 & _ & B3 & _).
  fold this' in B1, B3. fold pass in B1, B3.
  split_and!; [done|done|done|done|..].
  - intros triangles fragments Ht Hf. rewrite H1, H2, H3, H4. lia.
  - intros k Hk Hfree. rewrite B1, store_unwritten by done.
    rewrite createBuffer_contents. apply lookup_replicate. split; [done|lia].
  - intros k Hk Hfree. rewrite B3, store_unwritten by done.
    rewrite createBuffer_contents. apply lookup_replicate. split; [done|lia].
Qed.

(** C9, counterexample to the claim as stated: after a dispatch of the
    repository's [fracture] entry point, which stores nothing, for one
    input triangle, both survivor tag slots are unused and hold 0, not [-1];
    the compaction that follows keeps both. *)
Lemma unused_slots_hold_zero :
  let this' :=
    dispatchFracture kShaderCode two_entries [] 0 1
      (loaded (vertsAsFloat4 one_triangle)) in
  GPU.contents (buftrioutcells this') = [0; 0]%Z
  ∧ ¬ Forall (λ t, t = (-1)%Z) (GPU.contents (buftrioutcells this'))
  ∧ (floatNcompact 12 (GPU.contents (buftrioutcells this'))
       (GPU.contents (buftriout this'))).1 = [0; 0]%Z.
Proof.
  split_and!; [reflexivity| |vm_compute; reflexivity].
  intros H. by apply Forall_cons in H as [? _].
Qed.

(** ** The Per-Plane Replicator *)

Lemma length_vertsAsFloat4 (original : mesh) :
  length (vertsAsFloat4 original) = length original * 4.
Proof.
  unfold vertsAsFloat4. rewrite (length_bind_uniform _ 4); [lia|].
  by intros [[??]?].
Qed.

(** The count [doTransformCopyPerPlane] returns is the number of vertices,
    not of triangles, times the cell count. *)
Lemma doTransformCopyPerPlane_count (shader : ShaderModule)
    (kFracturePattern : FracturePattern) (transform : list number)
    (original : mesh) :
  (doTransformCopyPerPlane shader kFracturePattern transform
     (loaded (vertsAsFloat4 original))).2
  = length original * cellCount kFracturePattern.
Proof.
  unfold doTransformCopyPerPlane.
  destruct (transformCopyPerPlane _ _ _ _ _ _) as [cells tris].
  cbn [snd loaded arrtris]. by rewrite length_vertsAsFloat4, Nat.div_mul.
Qed.

(** C7, on the code: for a mesh of one triangle and two cells the
    Replicator returns 6, where [cellCount * inputTriangleCount] is 2:
    [tricount] is [arrtris.length / 4], the number of vertices. *)
Lemma replicator_counts_vertices :
  (doTransformCopyPerPlane kShaderCode two_entries identity4
     (loaded (vertsAsFloat4 one_triangle))).2 = 6
  ∧ cellCount two_entries * inputTriangleCount one_triangle = 2.
Proof. split; reflexivity. Qed.

(** ** The fracture loop *)

Section Loop.

Context (shader : ShaderModule) (kFracturePattern : FracturePattern).

Let n := length (cellData kFracturePattern).

Lemma outputToInput_eq (oldtricount : nat) (this : FractureTransform) :
  let arrtrioutcells :=
    GPU.readbackBuffer 0%Z (buftrioutcells this) (4 * oldtricount * 2) in
  let arrtriout :=
    GPU.readbackBuffer zero (buftriout this) (4 * oldtricount * 2 * 12) in
  let arrnewoutcells :=
    GPU.readbackBuffer 0%Z (bufnewoutcells this) (4 * oldtricount) in
  let arrnewout :=
    GPU.readbackBuffer zero (bufnewout this) (4 * oldtricount * 2 * 4) in
  let fragments := floatNcompact 8 arrnewoutcells arrnewout in
  let this' := outputToInput oldtricount this in
  (arrtricells this', arrtris this')
  = outputToInput_arrays arrtrioutcells arrtriout arrnewoutcells arrnewout
  ∧ trace this' = trace this ++ [MakeFace fragments.1 fragments.2].
Proof.
  cbv zeta. unfold outputToInput, outputToInput_arrays.
  destruct (floatNcompact 12 _ _) as [tricells tris].
  destruct (floatNcompact 8 _ _) as [newcells news].
  cbn [fst snd].
  by destruct (makeFace newcells news) as [indices values].
Qed.

Context (fractureCenter : list number).

(** What one turn of the loop does with the cut-edge fragments: the
    fragments handed to [makeFace] are the compaction of what the
    [fracture] pass of this very turn stored into fresh buffers, and the
    sealed triangles join the survivors of the turn at once. *)
Lemma fracture_iteration_spec (this : FractureTransform) (tricount i : nat) :
  let dispatched :=
    dispatchFracture shader kFracturePattern fractureCenter i tricount this in
  let merged :=
    if decide (S i = n)
    then dispatchProx shader kFracturePattern tricount dispatched
    else dispatched in
  let pass :=
    fracture_pass shader kFracturePattern fractureCenter i tricount
      (buftricells dispatched) (buftris dispatched) in
  let fragments :=
    floatNcompact 8
      (GPU.contents (GPU.store (newoutcells_stores pass)
                       (GPU.createBuffer 0%Z (tricount * 4))))
      (GPU.contents (GPU.store (newout_stores pass)
                       (GPU.createBuffer zero (tricount * 2 * 4 * 4)))) in
  let survivors :=
    floatNcompact 12 (GPU.contents (buftrioutcells merged))
                     (GPU.contents (buftriout merged)) in
  let sealed := makeFace fragments.1 fragments.2 in
  let this' :=
    (fracture_iteration shader kFracturePattern fractureCenter
       (this, tricount) i).1 in
  trace this'
  = trace this ++ [DispatchFracture i tricount]
    ++ (if decide (S i = n) then [DispatchProx (tricount * 2)] else [])
    ++ [MakeFace fragments.1 fragments.2]
  ∧ arrtricells this' = Int32Array_from (survivors.1 ++ sealed.1)
  ∧ arrtris this' = Float32Array_from (survivors.2 ++ sealed.2).
Proof.
  intros dispatched merged pass fragments survivors sealed this'.
  assert (bufnewoutcells merged
          = GPU.store (newoutcells_stores pass)
              (GPU.createBuffer 0%Z (tricount * 4))
          ∧ bufnewout merged
            = GPU.store (newout_stores pass)
                (GPU.createBuffer zero (tricount * 2 * 4 * 4))) as [Hc Hp].
  { unfold merged. by case_decide. }
  assert (GPU.size (buftrioutcells merged) = tricount * 2 * 4
          ∧ length (GPU.contents (buftrioutcells merged)) = tricount * 2
          ∧ buftriout merged = buftriout dispatched) as (Hs & Hl & Ht).
  { destruct (dispatchFracture_lengths shader kFracturePattern fractureCenter
                i tricount this) as (Hlen & _).
    fold dispatched in Hlen.
    unfold merged. case_decide; [|split_and!; [done|lia|done]].
    unfold dispatchProx. cbn [buftrioutcells buftriout].
    rewrite store_length. split_and!; [done|lia|done]. }
  assert (trace merged
          = trace this ++ [DispatchFracture i tricount]
            ++ (if decide (S i = n) then [DispatchProx (tricount * 2)]
                else [])) as Htr.
  { unfold merged. case_decide; [|done].
    unfold dispatchProx. cbn [trace].
    change (trace dispatched) with (trace this ++ [DispatchFracture i tricount]).
    by rewrite <- app_assoc. }
  destruct (outputToInput_eq tricount merged) as [Harr Htrace].
  change (outputToInput tricount merged) with this' in Harr, Htrace.
  rewrite (readback_all _ (buftrioutcells merged)) in Harr;
    [|lia|rewrite Hl; symmetry; apply div4_exact; lia].
  rewrite (readback_all _ (buftriout merged)) in Harr; cycle 1.
  { rewrite Ht. simpl. lia. }
  { rewrite Ht.
    destruct (dispatchFracture_lengths shader kFracturePattern fractureCenter
                i tricount this) as (_ & Hlen & _).
    fold dispatched in Hlen. rewrite Hlen.
    symmetry. apply div4_exact. lia. }
  rewrite Hc, Hp in Harr, Htrace.
  rewrite !readback_whole in Harr, Htrace by lia.
  fold fragments in Htrace.
  split_and!.
  - by rewrite Htrace, Htr, <- !app_assoc.
  - apply (f_equal fst) in Harr. cbn [fst] in Harr. rewrite Harr.
    unfold outputToInput_arrays. fold fragments survivors.
    destruct survivors as [s1 s2], fragments as [f1 f2].
    unfold sealed. cbn [fst snd]. by destruct (makeFace f1 f2).
  - apply (f_equal snd) in Harr. cbn [snd] in Harr. rewrite Harr.
    unfold outputToInput_arrays. fold fragments survivors.
    destruct survivors as [s1 s2], fragments as [f1 f2].
    unfold sealed. cbn [fst snd]. by destruct (makeFace f1 f2).
Qed.

Lemma fracture_iteration_kinds (s : FractureTransform * nat) (i : nat) :
  kind_of <$> trace
    (fracture_iteration shader kFracturePattern fractureCenter s i).1
  = (kind_of <$> trace s.1) ++ iteration_kinds n i.
Proof.
  destruct s as [this tricount].
  destruct (fracture_iteration_spec this tricount i) as (-> & _ & _).
  rewrite !fmap_app. unfold iteration_kinds. fold n.
  by case_decide.
Qed.

Lemma fracture_loop_kinds (s : FractureTransform * nat) (k : nat) :
  kind_of <$> trace
    (foldl (fracture_iteration shader kFracturePattern fractureCenter) s
           (seq 0 k)).1
  = (kind_of <$> trace s.1) ++ (seq 0 k ≫= iteration_kinds n).
Proof.
  induction k as [|k IH].
  - simpl. by rewrite app_nil_r.
  - rewrite seq_S, foldl_snoc, fracture_iteration_kinds, IH, bind_app.
    rewrite <- app_assoc. f_equal. f_equal.
    rewrite bind_cons. symmetry. apply app_nil_r.
Qed.

End Loop.

(** C6, as the code has it. The Face Sealer runs once in every fracture
    iteration, as the last step of that iteration's compaction: the trace
    of a run over [n] pattern entries is the copy dispatch followed, for
    each iteration, by its classification, the merge if it is the last
    one, and a call of [makeFace]. Each call receives the compaction of
    what the [fracture] pass of its own iteration stored into fresh
    buffers, nothing from earlier iterations, and its triangles are
    appended to the survivors of that iteration; every dispatch after the
    first reads the arrays the previous iteration left. *)
Theorem seal_every_iteration (shader : ShaderModule)
    (kFracturePattern : FracturePattern) :
  let n := length (cellData kFracturePattern) in
  (∀ verts transform pImpact,
     kind_of <$> trace
       (fracture_passes shader kFracturePattern verts transform pImpact).1
     = Copy :: (seq 0 n ≫= iteration_kinds n))
  ∧ (∀ fractureCenter this tricount i,
       let dispatched :=
         dispatchFracture shader kFracturePattern fractureCenter i tricount this in
       let merged :=
         if decide (S i = n)
         then dispatchProx shader kFracturePattern tricount dispatched
         else dispatched in
       let pass :=
         fracture_pass shader kFracturePattern fractureCenter i tricount
           (buftricells dispatched) (buftris dispatched) in
       let fragments :=
         floatNcompact 8
           (GPU.contents (GPU.store (newoutcells_stores pass)
                            (GPU.createBuffer 0%Z (tricount * 4))))
           (GPU.contents (GPU.store (newout_stores pass)
                            (GPU.createBuffer zero (tricount * 2 * 4 * 4)))) in
       let survivors :=
         floatNcompact 12 (GPU.contents (buftrioutcells merged))
                          (GPU.contents (buftriout merged)) in
       let sealed := makeFace fragments.1 fragments.2 in
       let this' :=
         (fracture_iteration shader kFracturePattern fractureCenter
            (this, tricount) i).1 in
       trace this'
       = trace this ++ [DispatchFracture i tricount]
         ++ (if decide (S i = n) then [DispatchProx (tricount * 2)] else [])
         ++ [MakeFace fragments.1 fragments.2]
       ∧ arrtricells this' = Int32Array_from (survivors.1 ++ sealed.1)
       ∧ arrtris this' = Float32Array_from (survivors.2 ++ sealed.2)
       ∧ (0 < i →
            GPU.contents (buftricells dispatched) = arrtricells this
            ∧ GPU.contents (buftris dispatched) = arrtris this)).
Proof.
  intros n. split.
  - intros verts transform pImpact. unfold fracture_passes.
    rewrite fracture_loop_kinds. fold n.
    unfold doTransformCopyPerPlane.
    by destruct (transformCopyPerPlane _ _ _ _ _ _).
  - intros fractureCenter this tricount i.
    destruct (fracture_iteration_spec shader kFracturePattern fractureCenter
                this tricount i) as (Htr & Hcells & Htris).
    split_and!; [done|done|done|].
    intros Hi. unfold dispatchFracture. cbn [buftricells buftris].
    by rewrite !decide_True by done.
Qed.

(** C6, counterexample to the claim as stated: on a pattern of two entries
    (with the repository's shader and a mesh of one triangle) [makeFace] is
    called in the first iteration, before the second classification, and
    again in the second; the first call receives 6 fragments and the second
    the 18 of its own iteration, not 24. *)
Lemma sealer_runs_in_every_iteration :
  let tr :=
    trace (fracture_passes kShaderCode two_entries (vertsAsFloat4 one_triangle)
             identity4 (Some zero, Some zero, Some zero)).1 in
  kind_of <$> tr = [Copy; Classify 0; Seal; Classify 1; Merge; Seal]
  ∧ ¬ sealed_once_after_all_iterations (kind_of <$> tr)
  ∧ omap (λ e, match e with MakeFace ids _ => Some (length ids) | _ => None end) tr
    = [6; 18].
Proof.
  assert (kind_of <$> trace
            (fracture_passes kShaderCode two_entries (vertsAsFloat4 one_triangle)
               identity4 (Some zero, Some zero, Some zero)).1
          = [Copy; Classify 0; Seal; Classify 1; Merge] ++ [Seal]) as Hk
    by (vm_compute; reflexivity).
  cbv zeta. split_and!.
  - by rewrite Hk.
  - rewrite Hk. intros (before & Heq & Hnot).
    apply app_inj_tail in Heq as [<- _].
    apply Hnot. repeat constructor.
  - vm_compute. reflexivity.
Qed.


(** ** The compaction step on the object *)

Lemma readback_int32 (buffer : GPU.Buffer Z) (size : nat) :
  Forall int32 (GPU.contents buffer) →
  Forall int32 (GPU.readbackBuffer 0%Z buffer size).
Proof.
  intros Hb. unfold GPU.readbackBuffer.
  assert (int32 0) as H0 by (unfold int32; lia).
  case_decide.
  - unfold resize. rewrite resize_spec. apply Forall_app. split.
    + by apply Forall_take.
    + by apply Forall_replicate.
  - by apply Forall_replicate.
Qed.

(** C2. After every call of [outputToInput] no entry of [arrtricells] is
    [-1]: the surviving tags were filtered by the compaction, and the face
    ids appended by the Face Sealer are array indices, hence not negative.
    The two tag buffers hold 32-bit integers, as the [Int32Array] views of
    their read-backs do. *)
Theorem compacted_tags_exclude_sentinel (oldtricount : nat)
    (this : FractureTransform) :
  Forall int32 (GPU.contents (buftrioutcells this)) →
  Forall int32 (GPU.contents (bufnewoutcells this)) →
  Forall (λ t, t ≠ (-1)%Z) (arrtricells (outputToInput oldtricount this)).
Proof.
  intros Htri Hnew.
  destruct (outputToInput_eq oldtricount this) as [Harr _].
  apply (f_equal fst) in Harr. cbn [fst] in Harr. rewrite Harr.
  apply outputToInput_arrays_no_sentinel; by apply readback_int32.
Qed.

(** The theorem applied to buffers that hold the tags 3, -1 and -2. *)
Lemma compacted_tags_exclude_sentinel_witness :
  Forall (λ t, t ≠ (-1)%Z)
    (arrtricells
       (outputToInput 1
          (mkFractureTransform [] [] unbound unbound
             (GPU.make 8 [3; -1]%Z) (GPU.make 96 (replicate 24 zero))
             (GPU.make 4 [-2]%Z) (GPU.make 32 (replicate 8 zero)) []))).
Proof.
  apply compacted_tags_exclude_sentinel;
    repeat constructor; unfold int32; lia.
Defined.

(** * Further properties of the code *)

(** ** The Host Compactor *)

Lemma lookup_seq_all {A} (l : list A) :
  (l !!.) <$> seq 0 (length l) = Some <$> l.
Proof.
  induction l as [|x l IH] using rev_ind; [done|].
  rewrite length_app, Nat.add_1_r, seq_S, !fmap_app. simpl. f_equal.
  - rewrite <- IH. apply list_fmap_ext. intros i j Hj.
    apply lookup_seq in Hj as [-> Hlt]. by rewrite lookup_app_l.
  - by rewrite list_lookup_middle.
Qed.

Lemma record_at_seq (N : nat) (val : list number) (i : nat) :
  record_at N val i = (val !!.) <$> seq (i * N) N.
Proof.
  unfold record_at.
  replace (seq (i * N) N) with (seq (i * N + 0) N) by (f_equal; lia).
  by rewrite <- fmap_add_seq, <- list_fmap_compose.
Qed.

Lemma records_seq (N : nat) (val : list number) (m : nat) :
  seq 0 m ≫= record_at N val = (val !!.) <$> seq 0 (m * N).
Proof.
  induction m as [|m IH]; [done|].
  rewrite seq_S, bind_app, IH, bind_cons, app_nil_r, record_at_seq.
  rewrite <- fmap_app. f_equal.
  replace (S m * N) with (m * N + N) by lia. by rewrite seq_app.
Qed.

Lemma filter_all {A} (P : A → Prop) `{!∀ x, Decision (P x)} (l : list A) :
  Forall P l → filter P l = l.
Proof.
  induction 1 as [|x l Hx Hl IH]; [done|].
  by rewrite filter_cons_True, IH.
Qed.

Lemma kept_dense (index : list Z) :
  Forall (λ t, t ≠ (-1)%Z) index → kept index = seq 0 (length index).
Proof.
  intros Hall. unfold kept. apply filter_all, Forall_forall.
  intros i Hi%elem_of_seq.
  destruct (lookup_lt_is_Some_2 index i) as [t Ht]; [lia|].
  rewrite Ht. intros [= ->]. by eapply Forall_lookup_1 in Hall.
Qed.

(** X1. A pair of arrays that is already dense (no tag is [-1], and the
    value array holds exactly [N] entries per tag) is returned unchanged:
    compaction is idempotent. *)
Theorem floatNcompact_dense (N : nat) (index : list Z) (val : list number) :
  Forall (λ t, t ≠ (-1)%Z) index → length val = length index * N →
  floatNcompact N index val = (index, Some <$> val).
Proof.
  intros Hall Hlen. rewrite floatNcompact_eq. f_equal.
  - by apply filter_all.
  - by rewrite kept_dense, records_seq, <- Hlen, lookup_seq_all.
Qed.

(** The theorem applied to two tags with two entries each. *)
Lemma floatNcompact_dense_witness :
  floatNcompact 2 [4; 0]%Z (of_int <$> [1; 2; 3; 4]%Z)
  = ([4; 0]%Z, Some <$> (of_int <$> [1; 2; 3; 4]%Z)).
Proof.
  apply floatNcompact_dense; [|reflexivity].
  repeat constructor; lia.
Defined.

Lemma elem_of_kept (index : list Z) (i : nat) :
  i ∈ kept index → i < length index.
Proof. intros [_ Hi%elem_of_seq]%list_elem_of_filter. lia. Qed.

Lemma floatNcompact_defined_aux (N : nat) (index : list Z) (val : list number) :
  length index * N ≤ length val →
  Forall is_Some (floatNcompact N index val).2.
Proof.
  intros Hlen. rewrite floatNcompact_eq. simpl.
  apply Forall_bind, Forall_forall. intros i Hi%elem_of_kept. simpl.
  unfold record_at. apply Forall_fmap, Forall_forall.
  intros n [_ Hn]%elem_of_seq. simpl.
  apply lookup_lt_is_Some_2. nia.
Qed.

(** X2. When the value array holds at least [N] entries per tag, no
    compacted value is [undefined]: every read of the inner loop is inside
    the array. *)
Theorem floatNcompact_defined (N : nat) (index : list Z) (val : list number) :
  length index * N ≤ length val →
  Forall is_Some (floatNcompact N index val).2.
Proof. apply floatNcompact_defined_aux. Qed.

(** The theorem applied to two tags, one of them dropped, with three entries
    each. *)
Lemma floatNcompact_defined_witness :
  Forall is_Some
    (floatNcompact 3 [-1; 7]%Z (of_int <$> [1; 2; 3; 4; 5; 6]%Z)).2.
Proof. apply floatNcompact_defined. simpl. lia. Defined.

Lemma filter_ext_elem {A} (P Q : A → Prop) `{!∀ x, Decision (P x)}
    `{!∀ x, Decision (Q x)} (l : list A) :
  (∀ x, x ∈ l → P x ↔ Q x) → filter P l = filter Q l.
Proof.
  induction l as [|x l IH]; intros HPQ; [done|].
  rewrite !filter_cons, IH by (intros y Hy; apply HPQ; by right).
  destruct (decide (P x)) as [HP|HP].
  - by rewrite decide_True by (apply HPQ; [left|done]).
  - rewrite decide_False; [done|]. intros HQ. apply HP, HPQ; [left|done].
Qed.

Lemma kept_snoc (index : list Z) (t : Z) :
  kept (index ++ [t])
  = kept index ++ (if decide (t ≠ (-1)%Z) then [length index] else []).
Proof.
  unfold kept. rewrite length_app, Nat.add_1_r, seq_S, filter_app. f_equal.
  - apply filter_ext_elem. intros i Hi%elem_of_seq.
    by rewrite lookup_app_l by lia.
  - simpl. rewrite filter_cons, filter_nil, list_lookup_middle by done.
    destruct (decide (t ≠ (-1)%Z)) as [Hne|Heq].
    + by rewrite decide_True by congruence.
    + by rewrite decide_False by (intros ?; apply Heq; congruence).
Qed.

Lemma record_at_app_l (N : nat) (v1 v2 : list number) (i m : nat) :
  length v1 = m * N → i < m →
  record_at N (v1 ++ v2) i = record_at N v1 i.
Proof.
  intros Hlen Hi. unfold record_at. apply list_fmap_ext.
  intros k n [-> Hn]%lookup_seq. simpl. apply lookup_app_l. nia.
Qed.

Lemma record_at_app_r (N : nat) (v1 v2 : list number) (j m : nat) :
  length v1 = m * N →
  record_at N (v1 ++ v2) (m + j) = record_at N v2 j.
Proof.
  intros Hlen. unfold record_at. apply list_fmap_ext.
  intros k n [-> Hn]%lookup_seq. simpl.
  rewrite lookup_app_r by nia. f_equal. nia.
Qed.

(** X3. Compaction is local to the records: compacting two pairs of arrays
    laid end to end gives the two compactions laid end to end, provided the
    first value array holds exactly [N] entries per tag. *)
Theorem floatNcompact_app (N : nat) (index1 index2 : list Z)
    (val1 val2 : list number) :
  length val1 = length index1 * N →
  floatNcompact N (index1 ++ index2) (val1 ++ val2)
  = ((floatNcompact N index1 val1).1 ++ (floatNcompact N index2 val2).1,
     (floatNcompact N index1 val1).2 ++ (floatNcompact N index2 val2).2).
Proof.
  intros Hlen. rewrite !floatNcompact_eq. simpl. f_equal; [apply filter_app|].
  induction index2 as [|t index2 IH] using rev_ind.
  - rewrite !app_nil_r. apply Forall_bind_ext, Forall_forall.
    intros i Hi%elem_of_kept. by eapply record_at_app_l.
  - rewrite app_assoc, !kept_snoc, !bind_app, IH, <- app_assoc. f_equal. f_equal.
    case_decide; [|done].
    rewrite !bind_singleton, length_app. by eapply record_at_app_r.
Qed.

(** The theorem applied to one record followed by one dropped record. *)
Lemma floatNcompact_app_witness :
  floatNcompact 2 ([5] ++ [-1])%Z
    ((of_int <$> [1; 2]%Z) ++ (of_int <$> [3; 4]%Z))
  = ((floatNcompact 2 [5%Z] (of_int <$> [1; 2]%Z)).1
       ++ (floatNcompact 2 [(-1)%Z] (of_int <$> [3; 4]%Z)).1,
     (floatNcompact 2 [5%Z] (of_int <$> [1; 2]%Z)).2
       ++ (floatNcompact 2 [(-1)%Z] (of_int <$> [3; 4]%Z)).2).
Proof. apply floatNcompact_app. reflexivity. Defined.

(** ** The Face Sealer *)

Lemma members_snoc (keys : list Z) (k key : Z) :
  members (keys ++ [key]) k
  = members keys k ++ (if decide (key = k) then [length keys] else []).
Proof.
  unfold members. rewrite length_app, Nat.add_1_r, seq_S, filter_app. f_equal.
  - apply filter_ext_elem. intros i Hi%elem_of_seq.
    by rewrite lookup_app_l by lia.
  - simpl. rewrite filter_cons, filter_nil, list_lookup_middle by done.
    destruct (decide (key = k)) as [->|Hne].
    + by rewrite decide_True.
    + by rewrite decide_False by congruence.
Qed.

Lemma length_members (keys : list Z) (k : Z) :
  length (members keys k) = occurrences k keys.
Proof.
  induction keys as [|key keys IH] using rev_ind; [done|].
  rewrite members_snoc, length_app, IH, occurrences_app. f_equal.
  unfold occurrences. rewrite filter_cons, filter_nil. by case_decide.
Qed.

Lemma occurrences_filter (P : Z → Prop) `{!∀ x, Decision (P x)} (x : Z)
    (l : list Z) :
  occurrences x (filter P l) = if decide (P x) then occurrences x l else 0.
Proof.
  unfold occurrences. rewrite list_filter_filter.
  destruct (decide (P x)) as [HP|HP].
  - f_equal. apply filter_ext_elem. intros y _. split; [tauto|]. by intros ->.
  - replace (filter (λ y, y = x ∧ P y) l) with (@nil Z); [done|].
    symmetry. induction l as [|y l IH]; [done|].
    rewrite filter_cons_False; [done|]. by intros [-> ?].
Qed.

Lemma occurrences_count_occ (x : Z) (l : list Z) :
  occurrences x l = count_occ Z.eq_dec l x.
Proof.
  unfold occurrences. induction l as [|y l IH]; [done|].
  rewrite filter_cons. simpl. destruct (Z.eq_dec y x) as [->|Hne].
  - rewrite decide_True by done. simpl. by rewrite IH.
  - by rewrite decide_False.
Qed.

(** Listing every index key below [key_count] as often as it occurs gives
    the index keys back, up to order. *)
Lemma blocks_perm (keys : list Z) :
  (Z.of_nat <$> seq 0 (Z.to_nat (key_count keys)))
    ≫= (λ k, replicate (occurrences k keys) k)
  ≡ₚ filter Array.is_index keys.
Proof.
  apply (Permutation_count_occ Z.eq_dec). intros k.
  rewrite <- !occurrences_count_occ, occurrences_filter.
  rewrite occurrences_blocks by apply (NoDup_face_ids keys).
  pose proof (key_count_bounds keys) as Hb.
  destruct (decide (k ∈ Z.of_nat <$> seq 0 (Z.to_nat (key_count keys))))
    as [Hin|Hin].
  - apply (elem_of_face_ids keys) in Hin. unfold face_count in Hin.
    rewrite decide_True; [done|]. unfold Array.is_index. lia.
  - case_decide as Hidx; [|done].
    destruct (decide (k ∈ keys)) as [Hmem|Hmem].
    + pose proof (key_count_ge _ _ Hmem Hidx) as Hge.
      destruct Hin. apply (elem_of_face_ids keys). unfold face_count.
      unfold Array.is_index in Hidx. lia.
    + by rewrite <- length_members, members_nil.
Qed.

Lemma sorted_blocks (n : Z → nat) (a m : nat) :
  StronglySorted Z.le
    ((Z.of_nat <$> seq a m) ≫= λ id, replicate (n id) id).
Proof.
  revert a. induction m as [|m IH]; intros a; [constructor|].
  simpl seq. rewrite fmap_cons, bind_cons.
  apply StronglySorted_app_2.
  - intros x1 x2 [-> _]%elem_of_replicate
      (id & [-> _]%elem_of_replicate & (j & -> & Hj%elem_of_seq)%list_elem_of_fmap)%list_elem_of_bind.
    lia.
  - induction (n (Z.of_nat a)) as [|k IHk]; simpl.
    + constructor.
    + constructor; [done|].
      apply Forall_forall. intros x [-> _]%elem_of_replicate. lia.
  - apply IH.
Qed.

Lemma makeFace_ids_perm (indices : list Z) (points : list value) :
  (makeFace indices points).1 ≡ₚ filter Array.is_index indices.
Proof.
  rewrite <- blocks_perm, makeFace_eq. simpl.
  unfold face_ids, face_count, group.
  erewrite list_bind_ext; [done| |done].
  intros id. simpl. by rewrite length_fmap, length_members.
Qed.

(** X4. The ids [makeFace] returns are the face ids of the input that are
    array indices, each as often as it occurs, rearranged in increasing
    order: the sealed triangles come grouped by id, whatever the order of
    the fragments; there is one triangle, of nine values, per such
    fragment. *)
Theorem makeFace_ids_sorted (indices : list Z) (points : list value) :
  let out := makeFace indices points in
  StronglySorted Z.le out.1
  ∧ out.1 ≡ₚ filter Array.is_index indices
  ∧ length out.1 = length (filter Array.is_index indices)
  ∧ length out.2 = 9 * length (filter Array.is_index indices).
Proof.
  cbv zeta.
  pose proof (makeFace_ids_perm indices points) as Hperm.
  split_and!.
  - rewrite makeFace_eq. simpl. apply sorted_blocks.
  - done.
  - by rewrite Hperm.
  - by rewrite makeFace_lengths, Hperm.
Qed.

(** ** The Fragment Assembler *)

Lemma length_triangle_vertices (arrtris : list number) (i : nat) :
  length (triangle_vertices arrtris i) = 3.
Proof. done. Qed.

Lemma length_tagged_points (arrtricells : list Z) (arrtris : list number) (t : Z) :
  length (tagged_points arrtricells arrtris t) = 3 * occurrences t arrtricells.
Proof.
  unfold tagged_points.
  rewrite (length_bind_uniform _ 3) by apply length_triangle_vertices.
  by rewrite length_members.
Qed.

Lemma elem_of_face_list (n x y z : nat) :
  (x, y, z) ∈ face_list n ↔ ∃ j, j < n ∧ x = j * 3 ∧ y = j * 3 + 1 ∧ z = j * 3 + 2.
Proof.
  unfold face_list. rewrite list_elem_of_fmap. split.
  - intros (j & [= -> -> ->] & Hj%elem_of_seq). exists j. lia.
  - intros (j & Hj & -> & -> & ->). exists j. split; [done|].
    apply elem_of_seq. lia.
Qed.

Lemma bucket_faces_index_points_aux (arrtricells : list Z)
    (arrtris : list number) (b : Z) (c : CellFace.t) :
  Array.get (assemble arrtricells arrtris) b = Some c →
  0 < occurrences (b - 2) arrtricells
  ∧ length (CellFace.points c) = 3 * occurrences (b - 2) arrtricells.
Proof.
  intros [Hin ->]%assemble_get. split.
  - apply members_cons in Hin. rewrite <- length_members.
    destruct (members arrtricells (b - 2)); [done|simpl; lia].
  - case_decide; simpl; rewrite ?length_fmap; apply length_tagged_points.
Qed.

(** X5. Every bucket of the assembled result is a well-formed indexed mesh:
    with [k] the number of triangles that carry the bucket's tag, it holds
    [3k] points and the [k] faces (0,1,2), (3,4,5), ..., so every face
    indexes three consecutive existing points and every point belongs to
    exactly one face. *)
Theorem bucket_faces_index_points (arrtricells : list Z) (arrtris : list number)
    (b : Z) (c : CellFace.t) :
  Array.get (assemble arrtricells arrtris) b = Some c →
  let k := occurrences (b - 2) arrtricells in
  0 < k
  ∧ length (CellFace.points c) = 3 * k
  ∧ CellFace.faces c = face_list k
  ∧ ∀ x y z, (x, y, z) ∈ CellFace.faces c →
      y = x + 1 ∧ z = x + 2 ∧ z < length (CellFace.points c).
Proof.
  intros Hc k.
  destruct (bucket_faces_index_points_aux _ _ _ _ Hc) as [Hk Hpts].
  fold k in Hk, Hpts. apply assemble_get in Hc as [Hin ->].
  assert (CellFace.faces
            ((if decide (Array.is_index b) then recenter_cell else id)
               (collected_bucket arrtricells arrtris (b - 2))) = face_list k)
    as Hfaces.
  { case_decide; simpl; by rewrite length_members. }
  split_and!; [done|done|done|].
  intros x y z. rewrite Hfaces, Hpts.
  intros (j & Hj & -> & -> & ->)%elem_of_face_list. lia.
Qed.

(** The theorem applied to the bucket of [example_tris]. *)
Lemma bucket_faces_index_points_witness :
  let c := recenter_cell (collected_bucket [0%Z] example_tris 0) in
  let k := occurrences (2 - 2) [0%Z] in
  0 < k
  ∧ length (CellFace.points c) = 3 * k
  ∧ CellFace.faces c = face_list k
  ∧ ∀ x y z, (x, y, z) ∈ CellFace.faces c →
      y = x + 1 ∧ z = x + 2 ∧ z < length (CellFace.points c).
Proof.
  apply (bucket_faces_index_points [0%Z] example_tris 2).
  vm_compute. reflexivity.
Defined.

Lemma transform_fragments_bind_loop (arr : Array.t CellFace.t) (ks : list Z)
    (made : list (Z * list value)) :
  foldl (λ made i,
           match Array.get arr i with
           | Some fr => made ++ [(i, CellFace.points fr ≫= OM.spread)]
           | None => made
           end) made ks
  = made ++ (ks ≫= λ i, match Array.get arr i with
                         | Some fr => [(i, CellFace.points fr ≫= OM.spread)]
                         | None => []
                         end).
Proof.
  revert made. induction ks as [|k ks IH]; intros made.
  - simpl. by rewrite app_nil_r.
  - rewrite bind_cons. simpl. rewrite IH.
    destruct (Array.get arr k); simpl; [by rewrite <- app_assoc|done].
Qed.

Lemma transform_fragments_bind (arr : Array.t CellFace.t) :
  transform_fragments arr
  = Array.indices arr ≫= λ i, match Array.get arr i with
                              | Some fr => [(i, CellFace.points fr ≫= OM.spread)]
                              | None => []
                              end.
Proof. unfold transform_fragments. by rewrite transform_fragments_bind_loop. Qed.

Lemma length_spread_points (pts : list OM.vec3) :
  length (pts ≫= OM.spread) = 3 * length pts.
Proof. apply length_bind_uniform. by intros [[??]?]. Qed.

Lemma sorted_indices {A} (arr : Array.t A) :
  StronglySorted Z.lt (Array.indices arr).
Proof.
  unfold Array.indices. generalize (Z.to_nat (Array.length arr)) 0.
  intros m. induction m as [|m IH]; intros a; simpl; [constructor|].
  constructor; [apply IH|].
  apply Forall_forall. intros x (j & -> & Hj%elem_of_seq)%list_elem_of_fmap. lia.
Qed.

Lemma sorted_filter {A} (R : relation A) (P : A → Prop)
    `{!∀ x, Decision (P x)} (l : list A) :
  StronglySorted R l → StronglySorted R (filter P l).
Proof.
  induction 1 as [|x l Hl IH Hx]; [constructor|].
  rewrite filter_cons. case_decide; [|done].
  constructor; [done|]. apply Forall_forall.
  intros y [_ Hy]%list_elem_of_filter. by eapply Forall_forall in Hx.
Qed.

(** X6. The fragments [transform] makes come in strictly increasing bucket
    order, so no two share an index (or a name), and the fragment of bucket
    [b] holds nine floats for each triangle tagged [b - 2], of which there
    is at least one. *)
Theorem fragments_sorted_and_sized (arrtricells : list Z) (arrtris : list number) :
  let made := transform_fragments (assemble arrtricells arrtris) in
  StronglySorted Z.lt made.*1
  ∧ ∀ b flat, (b, flat) ∈ made →
      0 < occurrences (b - 2) arrtricells
      ∧ length flat = 9 * occurrences (b - 2) arrtricells.
Proof.
  cbv zeta. split.
  - unfold transform_fragments. rewrite transform_fragments_loop. simpl.
    apply sorted_filter, sorted_indices.
  - intros b flat. rewrite transform_fragments_bind.
    intros (i & Hfl & _)%list_elem_of_bind.
    destruct (Array.get (assemble arrtricells arrtris) i) as [fr|] eqn:Hfr;
      [|by apply elem_of_nil in Hfl].
    apply list_elem_of_singleton in Hfl as [= -> ->].
    destruct (bucket_faces_index_points_aux arrtricells arrtris i fr Hfr)
      as (Hk & Hpts).
    split; [done|]. rewrite length_spread_points, Hpts. lia.
Qed.

Lemma sum_list_with_bind {A B} (g : B → nat) (f : A → list B) (l : list A) :
  sum_list_with g (l ≫= f) = sum_list_with (λ x, sum_list_with g (f x)) l.
Proof.
  induction l as [|x l IH]; [done|].
  rewrite bind_cons, sum_list_with_app, IH. done.
Qed.

Lemma length_blocks (n : Z → nat) (l : list Z) :
  length (l ≫= λ k, replicate (n k) k) = sum_list_with n l.
Proof.
  induction l as [|x l IH]; [done|].
  rewrite bind_cons, length_app, length_replicate, IH. done.
Qed.

Lemma occurrences_shift (x : Z) (l : list Z) :
  occurrences x ((λ t, (t + 2)%Z) <$> l) = occurrences (x - 2) l.
Proof.
  unfold occurrences. induction l as [|y l IH]; [done|].
  rewrite fmap_cons, !filter_cons.
  destruct (decide (y = (x - 2)%Z)) as [->|Hne].
  - rewrite decide_True by lia. simpl. by rewrite IH.
  - by rewrite decide_False by lia.
Qed.

(** X7. Among the buckets that are array indices no triangle is lost or
    duplicated: the fragments of [transform] hold, in total, nine floats
    for every triangle whose bucket [t + 2] is an array index (that is,
    whose tag is at least [-2]), no more and no less. *)
Theorem fragments_conserve_triangles (arrtricells : list Z) (arrtris : list number) :
  sum_list_with (λ fr, length fr.2)
    (transform_fragments (assemble arrtricells arrtris))
  = 9 * length (filter (λ t, Array.is_index (t + 2)) arrtricells).
Proof.
  rewrite transform_fragments_bind, sum_list_with_bind.
  set (keys := (λ t, (t + 2)%Z) <$> arrtricells).
  assert (Array.indices (assemble arrtricells arrtris)
          = Z.of_nat <$> seq 0 (Z.to_nat (key_count keys))) as ->.
  { unfold Array.indices, assemble.
    destruct (recenter_spec (collect arrtricells arrtris)) as [_ ->].
    by destruct (collect_spec arrtricells arrtris) as [_ ->]. }
  assert (length (filter (λ t, Array.is_index (t + 2)) arrtricells)
          = length (filter Array.is_index keys)) as ->.
  { unfold keys. clear. induction arrtricells as [|t l IH]; [done|].
    rewrite fmap_cons, !filter_cons. case_decide; simpl; by rewrite IH. }
  rewrite <- (blocks_perm keys), length_blocks.
  generalize (Z.of_nat <$> seq 0 (Z.to_nat (key_count keys))). intros ids.
  induction ids as [|b ids IH]; [done|].
  cbn [sum_list_with]. rewrite IH.
  replace (sum_list_with (λ fr : Z * list value, length fr.2)
             match Array.get (assemble arrtricells arrtris) b with
             | Some fr => [(b, CellFace.points fr ≫= OM.spread)]
             | None => []
             end) with (9 * occurrences b keys); [lia|].
  unfold keys. rewrite occurrences_shift.
  destruct (Array.get (assemble arrtricells arrtris) b) as [fr|] eqn:Hfr.
  - destruct (bucket_faces_index_points_aux _ _ _ _ Hfr) as [_ Hpts].
    simpl. rewrite length_spread_points, Hpts. lia.
  - assert ((b - 2)%Z ∉ arrtricells) as Hnot.
    { intros Hin. apply (assemble_is_Some arrtricells arrtris b) in Hin.
      rewrite Hfr in Hin. by destruct Hin. }
    by rewrite <- length_members, members_nil.
Qed.

(** X8. A triangle whose tag is below [-2] is collected into a bucket at a
    negative key, which the recenter loop does not visit and [transform]
    does not see: the bucket is returned as collected, without position or
    size, and no fragment is made from it. *)
Theorem low_tags_are_dropped (arrtricells : list Z) (arrtris : list number) (t : Z) :
  t ∈ arrtricells → (t < -2)%Z →
  let cellfaces := assemble arrtricells arrtris in
  Array.get cellfaces (t + 2) = Some (collected_bucket arrtricells arrtris t)
  ∧ CellFace.position (collected_bucket arrtricells arrtris t) = None
  ∧ (t + 2)%Z ∉ (transform_fragments cellfaces).*1.
Proof.
  intros Hin Hlow. cbv zeta.
  assert (¬ Array.is_index (t + 2)) as Hidx by (unfold Array.is_index; lia).
  split_and!; [|done|].
  - assert (is_Some (Array.get (assemble arrtricells arrtris) (t + 2)))
      as [c Hc].
    { apply (assemble_is_Some arrtricells arrtris (t + 2)).
      by replace (t + 2 - 2)%Z with t by lia. }
    rewrite Hc. apply assemble_get in Hc as [_ ->].
    rewrite decide_False by done. by replace (t + 2 - 2)%Z with t by lia.
  - rewrite transform_fragments_indices. intros [Hrange _].
    destruct (recenter_spec (collect arrtricells arrtris)) as [_ Hlen].
    unfold assemble in Hrange. lia.
Qed.

(** The theorem applied to two triangles, the first tagged [-5]. *)
Lemma low_tags_are_dropped_witness :
  let tris := example_tris ++ example_tris in
  let cellfaces := assemble [-5; 0]%Z tris in
  Array.get cellfaces (-5 + 2) = Some (collected_bucket [-5; 0]%Z tris (-5))
  ∧ CellFace.position (collected_bucket [-5; 0]%Z tris (-5)) = None
  ∧ (-5 + 2)%Z ∉ (transform_fragments cellfaces).*1.
Proof.
  apply (low_tags_are_dropped [-5; 0]%Z (example_tris ++ example_tris) (-5)).
  - left.
  - lia.
Defined.

(** ** Buffers *)


(** ** The fracture loop *)

Section LoopBounds.

Context (shader : ShaderModule) (kFracturePattern : FracturePattern).
Context (fractureCenter : list number).

Let n := length (cellData kFracturePattern).

Lemma merged_lengths (this : FractureTransform) (tricount i : nat) :
  let dispatched :=
    dispatchFracture shader kFracturePattern fractureCenter i tricount this in
  let merged :=
    if decide (S i = n)
    then dispatchProx shader kFracturePattern tricount dispatched
    else dispatched in
  length (GPU.contents (buftrioutcells merged)) = 2 * tricount
  ∧ length (GPU.contents (buftriout merged)) = 2 * tricount * 12.
Proof.
  intros dispatched merged.
  destruct (dispatchFracture_lengths shader kFracturePattern fractureCenter
              i tricount this) as (H1 & H2 & _).
  fold dispatched in H1, H2. unfold merged. case_decide; [|done].
  unfold dispatchProx. cbn [buftrioutcells buftriout].
  by rewrite store_length.
Qed.

(** X10. Whatever the shader stores, the two compactions of an iteration
    read inside the arrays they are given: the buffers are sized so that
    every kept tag finds its 12 (or 8) floats, and no [undefined] enters
    the surviving triangles or the fragments handed to [makeFace]. *)
Theorem iteration_reads_in_range (this : FractureTransform) (tricount i : nat) :
  let dispatched :=
    dispatchFracture shader kFracturePattern fractureCenter i tricount this in
  let merged :=
    if decide (S i = n)
    then dispatchProx shader kFracturePattern tricount dispatched
    else dispatched in
  Forall is_Some
    (floatNcompact 12 (GPU.contents (buftrioutcells merged))
                      (GPU.contents (buftriout merged))).2
  ∧ Forall is_Some
      (floatNcompact 8 (GPU.contents (bufnewoutcells dispatched))
                       (GPU.contents (bufnewout dispatched))).2.
Proof.
  intros dispatched merged.
  destruct (merged_lengths this tricount i) as [H1 H2].
  destruct (dispatchFracture_lengths shader kFracturePattern fractureCenter
              i tricount this) as (_ & _ & H3 & H4).
  fold dispatched in H3, H4. fold dispatched merged in H1, H2. split.
  - apply floatNcompact_defined_aux. rewrite H1, H2. lia.
  - apply floatNcompact_defined_aux. rewrite H3, H4. lia.
Qed.



End LoopBounds.


(** ** Short triangle arrays *)

Lemma Math_min_NaN_r (x : number) : Math_min x NaN = NaN.
Proof. by destruct x. Qed.
Lemma Math_min_NaN_l (y : number) : Math_min NaN y = NaN.
Proof. done. Qed.
Lemma Math_max_NaN_r (x : number) : Math_max x NaN = NaN.
Proof. by destruct x. Qed.
Lemma Math_max_NaN_l (y : number) : Math_max NaN y = NaN.
Proof. done. Qed.

Lemma nan_yz_min_keep (a p : OM.vec3) :
  nan_yz a → nan_yz (OM.compwise Math_min_v a p).
Proof. intros [x ->]. destruct p as [[p0 p1] p2]. by eexists. Qed.

Lemma nan_yz_max_keep (a p : OM.vec3) :
  nan_yz a → nan_yz (OM.compwise Math_max_v a p).
Proof. intros [x ->]. destruct p as [[p0 p1] p2]. by eexists. Qed.

Lemma nan_yz_min_enter (a : OM.vec3) (x : value) :
  nan_yz (OM.compwise Math_min_v a (x, None, None)).
Proof.
  destruct a as [[a0 a1] a2]. eexists. unfold OM.compwise, Math_min_v. simpl.
  by rewrite !Math_min_NaN_r.
Qed.

Lemma nan_yz_max_enter (a : OM.vec3) (x : value) :
  nan_yz (OM.compwise Math_max_v a (x, None, None)).
Proof.
  destruct a as [[a0 a1] a2]. eexists. unfold OM.compwise, Math_max_v. simpl.
  by rewrite !Math_max_NaN_r.
Qed.

(** A bound that has met a point without y and z stays NaN on these axes. *)
Lemma running_bound_nan (f : OM.vec3 → OM.vec3 → OM.vec3) (pts : list OM.vec3)
    (acc : OM.vec3) (x : value) :
  (∀ a p, nan_yz a → nan_yz (f a p)) →
  (∀ a, nan_yz (f a (x, None, None))) →
  (nan_yz acc ∨ (x, None, None) ∈ pts) → nan_yz (foldl f acc pts).
Proof.
  intros Hkeep Henter. revert acc.
  induction pts as [|p pts IH]; intros acc [Hacc|Hin]; simpl.
  - done.
  - by apply elem_of_nil in Hin.
  - apply IH. left. by apply Hkeep.
  - apply IH. apply elem_of_cons in Hin as [<-|Hin]; [left|by right].
    apply Henter.
Qed.

Lemma short_tris_nan_bounds (arrtricells : list Z) (arrtris : list number)
    (t : Z) (c : CellFace.t) :
  length arrtris + 3 ≤ 12 * length arrtricells →
  last arrtricells = Some t →
  Array.get (assemble arrtricells arrtris) (t + 2) = Some c →
  nan_yz (CellFace.min c) ∧ nan_yz (CellFace.max c).
Proof.
  intros Hshort Hlast Hc.
  destruct (assemble_bounds _ _ _ _ Hc) as [-> ->].
  replace (t + 2 - 2)%Z with t by lia.
  rewrite last_lookup in Hlast.
  set (i := pred (length arrtricells)) in *.
  assert (∃ x, (x, None, None) ∈ tagged_points arrtricells arrtris t)
    as [x Hx].
  { exists (arrtris !! (i * 12 + 2 * 4 + 0)).
    apply list_elem_of_bind. exists i. split; [|by apply elem_of_members].
    replace (_, None, None) with (vertex arrtris (i * 12 + 2 * 4)).
    - unfold triangle_vertices. apply list_elem_of_fmap.
      exists 2. split; [done|]. apply elem_of_seq. lia.
    - unfold vertex. f_equal; [f_equal|]; apply lookup_ge_None; lia. }
  split.
  - apply (running_bound_nan _ _ _ x);
      [apply nan_yz_min_keep|intros a; apply nan_yz_min_enter|by right].
  - apply (running_bound_nan _ _ _ x);
      [apply nan_yz_max_keep|intros a; apply nan_yz_max_enter|by right].
Qed.

(** X12. When a compaction step seals at least one triangle, the arrays it
    leaves hold fewer than twelve floats per tag, and the collect loop reads
    the last triangle's third vertex past the end of [arrtris]: the bounds
    of the bucket of the last tag are NaN on the y and z axes. *)
Theorem sealed_face_gives_NaN_bounds (arrtrioutcells : list Z)
    (arrtriout : list number) (arrnewoutcells : list Z) (arrnewout : list number)
    (t : Z) (c : CellFace.t) :
  let out :=
    outputToInput_arrays arrtrioutcells arrtriout arrnewoutcells arrnewout in
  (makeFace (floatNcompact 8 arrnewoutcells arrnewout).1
            (floatNcompact 8 arrnewoutcells arrnewout).2).1 ≠ [] →
  last out.1 = Some t →
  Array.get (assemble out.1 out.2) (t + 2) = Some c →
  length out.2 < 12 * length out.1
  ∧ nan_yz (CellFace.min c) ∧ nan_yz (CellFace.max c).
Proof.
  intros out Hsealed Hlast Hc.
  destruct (outputToInput_arrays_lengths arrtrioutcells arrtriout
              arrnewoutcells arrnewout) as [H1 H2].
  fold out in H1, H2.
  assert (0 < length (makeFace (floatNcompact 8 arrnewoutcells arrnewout).1
                               (floatNcompact 8 arrnewoutcells arrnewout).2).1)
    as Hpos by (destruct (makeFace _ _).1; [done|simpl; lia]).
  split; [lia|].
  apply (short_tris_nan_bounds out.1 out.2 t c); [lia|done|done].
Qed.

(** The theorem applied to the all-zero read-back of a dispatch for one
    triangle: two survivors and one sealed triangle, all tagged 0. *)
Lemma sealed_face_gives_NaN_bounds_witness :
  let out := outputToInput_arrays [0; 0]%Z (replicate 24 zero)
                                  [0]%Z (replicate 8 zero) in
  let c := recenter_cell (collected_bucket out.1 out.2 0) in
  length out.2 < 12 * length out.1
  ∧ nan_yz (CellFace.min c) ∧ nan_yz (CellFace.max c).
Proof.
  apply (sealed_face_gives_NaN_bounds [0; 0]%Z (replicate 24 zero)
           [0]%Z (replicate 8 zero) 0).
  - vm_compute. discriminate.
  - vm_compute. reflexivity.
  - vm_compute. reflexivity.
Defined.

(** ** The Per-Plane Replicator *)


(** ** The test transform *)

Lemma store_written {A} (ws : GPU.stores A) (buffer : GPU.Buffer A)
    (k : nat) (v : A) :
  functional ws → (k, v) ∈ ws → k < length (GPU.contents buffer) →
  GPU.contents (GPU.store ws buffer) !! k = Some v.
Proof.
  induction ws as [|w ws IH] using rev_ind; intros Hf Hin Hk.
  - by apply elem_of_nil in Hin.
  - pose proof (store_length ws buffer) as Hlen.
    unfold GPU.store in *. simpl in *. rewrite foldl_snoc.
    destruct (decide (w.1 = k)) as [Hw|Hw].
    + subst k. rewrite list_lookup_insert_eq by lia. f_equal.
      apply (Hf w.1); [|done]. apply elem_of_app. right.
      destruct w. apply list_elem_of_singleton. done.
    + rewrite list_lookup_insert_ne by done. apply IH; [| |done].
      * intros k' v1 v2 H1 H2. apply (Hf k'); apply elem_of_app; by left.
      * apply elem_of_app in Hin as [Hin|Hin]; [done|].
        apply list_elem_of_singleton in Hin. by subst w.
Qed.

Lemma store_permutation {A} (ws ws' : GPU.stores A) (buffer : GPU.Buffer A) :
  functional ws → ws ≡ₚ ws' → GPU.store ws buffer = GPU.store ws' buffer.
Proof.
  intros Hf Hperm.
  assert (functional ws') as Hf'.
  { intros k v v' H1 H2. apply (Hf k); by rewrite Hperm. }
  assert (GPU.contents (GPU.store ws buffer)
          = GPU.contents (GPU.store ws' buffer)) as Heq.
  { apply list_eq. intros k.
    destruct (decide (k ∈ ws.*1)) as [Hk|Hk].
    - apply list_elem_of_fmap in Hk as [[k' v] [-> Hin]]. cbn [fst].
      destruct (decide (k' < length (GPU.contents buffer))) as [Hlt|Hge].
      + rewrite (store_written ws buffer k' v) by done.
        rewrite (store_written ws' buffer k' v); [done|done| |done].
        by rewrite <- Hperm.
      + rewrite !lookup_ge_None_2; [done| |];
          rewrite store_length; lia.
    - rewrite !store_unwritten; [done| |done]. by rewrite <- Hperm. }
  unfold GPU.store in *. simpl in *. by rewrite Heq.
Qed.

Lemma bind_ext_elem {A B} (f g : A → list B) (l : list A) :
  (∀ x, x ∈ l → f x = g x) → l ≫= f = l ≫= g.
Proof.
  induction l as [|x l IH]; intros H; [done|].
  rewrite !bind_cons, H, IH; [done| |by left].
  intros y Hy. apply H. by right.
Qed.

Lemma bind_all_nil {A B} (f : A → list B) (l : list A) :
  (∀ x, x ∈ l → f x = []) → l ≫= f = [].
Proof.
  induction l as [|x l IH]; intros H; [done|].
  rewrite bind_cons, H, IH; [done| |by left].
  intros y Hy. apply H. by right.
Qed.

(** A loop over [0 .. n-1] that does something in a range only. *)
Lemma bind_seq_range {B} (F G : nat → list B) (n a b : nat) :
  a + b ≤ n →
  (∀ i, a ≤ i < a + b → G i = F i) →
  (∀ i, i < n → ¬ (a ≤ i < a + b) → G i = []) →
  seq 0 n ≫= G = seq a b ≫= F.
Proof.
  intros Hn Hin Hout.
  replace n with (a + (b + (n - a - b))) by lia.
  rewrite !seq_app, !bind_app.
  rewrite (bind_all_nil G (seq 0 a)), (bind_all_nil G (seq _ (n - a - b))).
  - rewrite app_nil_r. simpl. apply bind_ext_elem.
    intros i Hi. apply elem_of_seq in Hi. apply Hin. lia.
  - intros i Hi. apply elem_of_seq in Hi. apply Hout; lia.
  - intros i Hi. apply elem_of_seq in Hi. apply Hout; lia.
Qed.

(** Pieces of [c] elements, one after the other, make up a slice. *)
Lemma bind_chunks {A} (l : list A) (c a b : nat) :
  seq a b ≫= (λ i, take c (drop (c * i) l)) = take (c * b) (drop (c * a) l).
Proof.
  revert a. induction b as [|b IH]; intros a.
  - by rewrite Nat.mul_0_r.
  - cbn [seq]. rewrite bind_cons, IH.
    replace (c * S a) with (c * a + c) by lia.
    rewrite <- drop_drop, take_take_drop. f_equal. lia.
Qed.

Lemma selected_cell0 (n i : nat) : i < n → selected n i ↔ i < n / 2.
Proof.
  intros Hi. unfold selected.
  rewrite Nat.div_small, Nat.mod_small by done.
  rewrite bool_decide_eq_true_2 by done.
  split; [intros H; symmetry in H; by apply bool_decide_eq_true in H|].
  intros H. by rewrite bool_decide_eq_true_2.
Qed.

Lemma selected_cell1 (n i : nat) : i < n → selected n (n + i) ↔ ¬ i < n / 2.
Proof.
  intros Hi. unfold selected.
  rewrite <- (Nat.div_unique (n + i) n 1 i) by lia.
  rewrite <- (Nat.mod_unique (n + i) n 1 i) by lia.
  rewrite bool_decide_eq_false_2 by done.
  split.
  - intros H. symmetry in H. by apply bool_decide_eq_false in H.
  - intros H. by rewrite bool_decide_eq_false_2.
Qed.

(** The entry point in terms of natural numbers, when no index wraps. *)
Lemma testTransform_nat (inPoints : list number) (i : nat) :
  (18 * Z.of_nat (length inPoints / 9) < 2 ^ 32)%Z →
  i < 2 * (length inPoints / 9) →
  WGSL.testTransform inPoints (Z.of_nat i)
  = if decide (selected (length inPoints / 9) i)
    then copy_stores inPoints i (i mod (length inPoints / 9))
    else ([], []).
Proof.
  set (n := length inPoints / 9). intros Hn Hi.
  assert (0 < n) as Hpos by lia.
  assert (length inPoints < 9 * (n + 1)) as HL.
  { pose proof (Nat.div_mod_eq (length inPoints) 9) as Hdm.
    pose proof (Nat.mod_upper_bound (length inPoints) 9). fold n in Hdm. lia. }
  assert (i mod n < n) as Hmod by (apply Nat.mod_upper_bound; lia).
  unfold WGSL.testTransform.
  assert (WGSL.div (WGSL.arrayLength inPoints) 9 = Z.of_nat n) as ->.
  { unfold WGSL.arrayLength, WGSL.u32, WGSL.div.
    rewrite decide_False by done. rewrite Z.mod_small by lia.
    unfold n. by rewrite Nat2Z.inj_div. }
  assert (WGSL.rem (Z.of_nat i) (Z.of_nat n) = Z.of_nat (i mod n)) as ->.
  { unfold WGSL.rem. rewrite decide_False by lia. by rewrite Nat2Z.inj_mod. }
  assert (WGSL.div (Z.of_nat i) (Z.of_nat n) = Z.of_nat (i / n)) as ->.
  { unfold WGSL.div. rewrite decide_False by lia. by rewrite Nat2Z.inj_div. }
  assert (WGSL.div (Z.of_nat n) 2 = Z.of_nat (n / 2)) as ->.
  { unfold WGSL.div. rewrite decide_False by lia. by rewrite Nat2Z.inj_div. }
  rewrite (bool_decide_ext (Z.of_nat (i / n) = 0%Z) (i / n = 0)) by lia.
  rewrite (bool_decide_ext (Z.of_nat (i mod n) < Z.of_nat (n / 2))%Z
                           (i mod n < n / 2)) by lia.
  unfold selected. destruct (decide _) as [Hsel|Hsel]; [|done].
  unfold copy_stores. rewrite Nat2Z.id. f_equal.
  change (seqZ 0 9) with (Z.of_nat <$> seq 0 9).
  rewrite <- list_fmap_compose. apply list_fmap_ext.
  intros j o Ho. apply lookup_seq in Ho as [-> Hj]. unfold compose. cbn [Nat.add].
  unfold WGSL.load, WGSL.add, WGSL.mul, WGSL.u32.
  clearbody n. clear Hsel HL.
  rewrite (Z.mod_small (Z.of_nat i * 9)) by lia.
  rewrite (Z.mod_small (Z.of_nat (i mod n) * 9)) by lia.
  rewrite !Z.mod_small by lia.
  do 3 f_equal; lia.
Qed.

Section TestTransformDispatch.

Variable inPoints : list number.
Variable n : nat.
Hypothesis Hdiv : length inPoints / 9 = n.
Hypothesis Hn : (18 * Z.of_nat n < 2 ^ 32)%Z.

Lemma testTransform_invocation (i : nat) :
  i < 2 * n →
  WGSL.testTransform inPoints (Z.of_nat i)
  = if decide (selected n i) then copy_stores inPoints i (i mod n)
    else ([], []).
Proof. intros Hi. rewrite <- Hdiv in *. by apply testTransform_nat. Qed.

(** The stores of a dispatch into [outTriExists]. *)
Lemma elem_of_exists_stores (ids : list nat) (k : nat) (v : Z) :
  Forall (λ i, i < 2 * n) ids →
  (k, v) ∈ (WGSL.invocations (WGSL.testTransform inPoints) ids).1
  ↔ k ∈ ids ∧ selected n k ∧ v = 1%Z.
Proof.
  intros Hids. rewrite Forall_forall in Hids.
  unfold WGSL.invocations. cbn [fst]. rewrite list_elem_of_bind. split.
  - intros (i & Hin & Hi). rewrite testTransform_invocation in Hin by auto.
    destruct (decide (selected n i)) as [Hsel|Hsel];
      [|by apply elem_of_nil in Hin].
    apply list_elem_of_singleton in Hin. by simplify_eq.
  - intros (Hk & Hsel & ->). exists k. split; [|done].
    rewrite testTransform_invocation by auto.
    rewrite decide_True by done. by left.
Qed.

(** The stores of a dispatch into [outPoints]. *)
Lemma elem_of_points_stores (ids : list nat) (k : nat) (v : number) :
  Forall (λ i, i < 2 * n) ids →
  (k, v) ∈ (WGSL.invocations (WGSL.testTransform inPoints) ids).2
  ↔ ∃ i o, i ∈ ids ∧ selected n i ∧ o < 9 ∧ k = 9 * i + o
           ∧ v = default zero (inPoints !! (9 * (i mod n) + o)).
Proof.
  intros Hids. rewrite Forall_forall in Hids.
  unfold WGSL.invocations. cbn [snd]. rewrite list_elem_of_bind. split.
  - intros (i & Hin & Hi). rewrite testTransform_invocation in Hin by auto.
    destruct (decide (selected n i)) as [Hsel|Hsel];
      [|by apply elem_of_nil in Hin].
    apply list_elem_of_fmap in Hin as (o & Heq & Ho).
    apply elem_of_seq in Ho. simplify_eq.
    exists i, o. repeat split; [done|done|lia].
  - intros (i & o & Hi & Hsel & Ho & -> & ->). exists i. split; [|done].
    rewrite testTransform_invocation by auto.
    rewrite decide_True by done. apply list_elem_of_fmap.
    exists o. split; [done|]. apply elem_of_seq. lia.
Qed.

(** No slot is given two values: the invocations write apart. *)
Lemma functional_exists_stores (ids : list nat) :
  Forall (λ i, i < 2 * n) ids →
  functional (WGSL.invocations (WGSL.testTransform inPoints) ids).1.
Proof.
  intros Hids k v v' H1 H2.
  apply elem_of_exists_stores in H1 as (_ & _ & ->); [|done].
  by apply elem_of_exists_stores in H2 as (_ & _ & ->).
Qed.

Lemma functional_points_stores (ids : list nat) :
  Forall (λ i, i < 2 * n) ids →
  functional (WGSL.invocations (WGSL.testTransform inPoints) ids).2.
Proof.
  intros Hids k v v' H1 H2.
  apply elem_of_points_stores in H1 as (i & o & _ & _ & Ho & -> & ->); [|done].
  apply elem_of_points_stores in H2 as (i' & o' & _ & _ & Ho' & Hk & ->);
    [|done].
  assert (i' = i) as -> by lia. assert (o' = o) as -> by lia. done.
Qed.

End TestTransformDispatch.

Lemma Forall_seq_lt (m : nat) : Forall (λ i, i < m) (seq 0 m).
Proof. apply Forall_forall. intros i Hi%elem_of_seq. lia. Qed.

(** X14. The invocations of [testTransform] write to slots of their own, so
    the buffers a dispatch leaves do not depend on the order in which the
    GPU runs the invocations, as long as no index wraps around. *)
Theorem testTransform_order_independent (inPoints : list number)
    (ids : list nat) (outTriExists : GPU.Buffer Z)
    (outPoints : GPU.Buffer number) :
  let numOutputTris := 2 * (length inPoints / 9) in
  let ws := WGSL.invocations (WGSL.testTransform inPoints) ids in
  let ws0 :=
    WGSL.dispatchWorkgroups (WGSL.testTransform inPoints) numOutputTris in
  (9 * Z.of_nat numOutputTris < 2 ^ 32)%Z →
  ids ≡ₚ seq 0 numOutputTris →
  GPU.store ws.1 outTriExists = GPU.store ws0.1 outTriExists
  ∧ GPU.store ws.2 outPoints = GPU.store ws0.2 outPoints.
Proof.
  intros m ws ws0 Hn Hperm.
  assert (Forall (λ i, i < 2 * (length inPoints / 9)) ids) as Hids.
  { rewrite Hperm. apply Forall_seq_lt. }
  split; apply store_permutation.
  - apply (functional_exists_stores inPoints _ eq_refl); [lia|done].
  - unfold ws, ws0, WGSL.dispatchWorkgroups, WGSL.invocations. cbn [fst].
    by rewrite Hperm.
  - apply (functional_points_stores inPoints _ eq_refl); [lia|done].
  - unfold ws, ws0, WGSL.dispatchWorkgroups, WGSL.invocations. cbn [snd].
    by rewrite Hperm.
Qed.

(** The theorem applied to two triangles and the order 1, 0, 2, 3. *)
Lemma testTransform_order_independent_witness :
  let inPoints := of_int <$> seqZ 1 18 in
  let ws := WGSL.invocations (WGSL.testTransform inPoints) [1; 0; 2; 3] in
  let ws0 := WGSL.dispatchWorkgroups (WGSL.testTransform inPoints) 4 in
  GPU.store ws.1 (GPU.createBuffer 0%Z 16)
  = GPU.store ws0.1 (GPU.createBuffer 0%Z 16)
  ∧ GPU.store ws.2 (GPU.createBuffer zero 144)
    = GPU.store ws0.2 (GPU.createBuffer zero 144).
Proof.
  refine (testTransform_order_independent (of_int <$> seqZ 1 18) [1; 0; 2; 3]
            (GPU.createBuffer 0%Z 16) (GPU.createBuffer zero 144) _ _).
  - vm_compute. reflexivity.
  - apply perm_swap.
Defined.

Lemma fmap_bind_comm {A B C} (f : B → C) (g : A → list B) (l : list A) :
  f <$> (l ≫= g) = l ≫= (λ x, f <$> g x).
Proof.
  induction l as [|x l IH]; [done|].
  by rewrite !bind_cons, fmap_app, IH.
Qed.

(** Values read from a [Float32Array] go into a new one unchanged. *)
Lemma Float32Array_from_binary32 (l : list number) :
  Forall binary32 l → Float32Array_from (Some <$> l) = l.
Proof.
  intros Hl. unfold Float32Array_from. rewrite <- list_fmap_compose.
  induction Hl as [|x l Hx Hl IH]; [done|].
  rewrite fmap_cons, IH. unfold compose at 1. simpl. by rewrite Hx.
Qed.

(** X15. On a triangle soup of [n] triangles held in a [Float32Array] and
    small enough for one dispatch, [TestTransform.transform] makes two
    fragments: cell 0 of the first [n / 2] triangles and cell 1 of the
    others, each with its floats unchanged and in order. *)
Theorem TestTransform_halves (origPositions : list number) (n : nat) :
  length origPositions = 9 * n →
  (Z.of_nat (n * TestTransform.kNumCells)
   ≤ WGSL.maxComputeWorkgroupsPerDimension)%Z →
  Forall binary32 origPositions →
  TestTransform.transform origPositions
  = [(0, take (9 * (n / 2)) origPositions);
     (1, drop (9 * (n / 2)) origPositions)].
Proof.
  intros HL Hlimit Hf32.
  assert (18 * Z.of_nat n < 2 ^ 32)%Z as Hn.
  { unfold TestTransform.kNumCells, WGSL.maxComputeWorkgroupsPerDimension
      in Hlimit. lia. }
  clear Hlimit.
  assert (length origPositions / 9 = n) as Hdiv.
  { rewrite HL, Nat.mul_comm. apply Nat.div_mul. lia. }
  assert (n / 2 ≤ n) as Hh by (apply Nat.Div0.div_le_upper_bound; lia).
  unfold TestTransform.transform.
  rewrite Nat.Div0.div_div. change (3 * 3) with 9. rewrite Hdiv.
  unfold TestTransform.kNumCells, TestTransform.makeBufferFromData.
  cbn [GPU.contents].
  replace (2 * (4 * length origPositions)) with ((18 * n) * 4) by lia.
  set (ws := WGSL.dispatchWorkgroups _ _).
  set (E := GPU.contents (GPU.store ws.1 _)).
  set (P := GPU.contents (GPU.store ws.2 _)).
  pose proof (Forall_seq_lt (n * 2)) as Hids.
  assert (Forall (λ i, i < 2 * n) (seq 0 (n * 2))) as Hids'
    by (eapply Forall_impl; [exact Hids|simpl; lia]).
  assert (∀ t, t < 2 * n →
            E !! t = Some (if decide (selected n t) then 1%Z else 0%Z)) as HE.
  { intros t Ht. unfold E. destruct (decide (selected n t)) as [Hsel|Hsel].
    - apply store_written.
      + by apply (functional_exists_stores origPositions n).
      + apply (elem_of_exists_stores origPositions n); [done..|].
        split; [apply elem_of_seq; lia|done].
      + rewrite createBuffer_contents, length_replicate. lia.
    - rewrite store_unwritten.
      + rewrite createBuffer_contents. apply lookup_replicate_2. lia.
      + intros Hin. apply list_elem_of_fmap in Hin as [[k v] [-> Hin]].
        apply (elem_of_exists_stores origPositions n) in Hin; [|done..].
        by destruct Hin as (_ & ? & _). }
  assert (∀ t o, t < 2 * n → selected n t → o < 9 →
            P !! (9 * t + o) = origPositions !! (9 * (t mod n) + o)) as HP.
  { intros t o Ht Hsel Ho. unfold P.
    assert (t mod n < n) by (apply Nat.mod_upper_bound; lia).
    destruct (lookup_lt_is_Some_2 origPositions (9 * (t mod n) + o))
      as [y Hy]; [lia|].
    rewrite Hy. apply store_written.
    - by apply (functional_points_stores origPositions n).
    - apply (elem_of_points_stores origPositions n); [done..|].
      exists t, o. rewrite Hy. repeat split; [|done|done].
      apply elem_of_seq. lia.
    - rewrite createBuffer_contents, length_replicate. lia. }
  assert (∀ cell, cell < 2 →
            TestTransform.outPointsCompacted n E P cell
            = seq 0 n ≫= (λ idx,
                if decide (selected n (cell * n + idx))
                then Some <$> take 9 (drop (9 * idx) origPositions)
                else [])) as HC.
  { intros cell Hcell. unfold TestTransform.outPointsCompacted.
    apply bind_ext_elem. intros idx Hidx. apply elem_of_seq in Hidx.
    assert (cell * n + idx < 2 * n) as Ht by nia.
    cbv zeta. rewrite HE by done.
    destruct (decide (selected n (cell * n + idx))) as [Hsel|Hsel];
      [|by rewrite decide_False by (intros ?; done)].
    rewrite decide_True by done. f_equal.
    unfold TestTransform.subarray.
    replace ((cell * n + idx) * 9 + 9 - (cell * n + idx) * 9) with 9 by lia.
    apply list_eq. intros o. rewrite !lookup_take, !lookup_drop.
    destruct (decide (o < 9)) as [Ho|Ho]; [|done].
    replace ((cell * n + idx) * 9 + o) with (9 * (cell * n + idx) + o) by lia.
    rewrite HP by done. do 3 f_equal.
    symmetry. apply (Nat.mod_unique _ n cell idx); lia. }
  cbn [seq fmap list_fmap].
  rewrite !HC by lia. repeat f_equal.
  - rewrite (bind_seq_range
               (λ idx, Some <$> take 9 (drop (9 * idx) origPositions))
               _ n 0 (n / 2)).
    + rewrite <- fmap_bind_comm, bind_chunks, Nat.mul_0_r, drop_0.
      apply Float32Array_from_binary32. by apply Forall_take.
    + lia.
    + intros i Hi. rewrite decide_True; [done|].
      apply selected_cell0; lia.
    + intros i Hi Hout. rewrite decide_False; [done|].
      rewrite selected_cell0 by done. lia.
  - rewrite (bind_seq_range
               (λ idx, Some <$> take 9 (drop (9 * idx) origPositions))
               _ n (n / 2) (n - n / 2)).
    + rewrite <- fmap_bind_comm, bind_chunks.
      rewrite take_ge by (rewrite length_drop; lia).
      apply Float32Array_from_binary32. by apply Forall_drop.
    + lia.
    + intros i Hi. rewrite decide_True; [done|].
      replace (1 * n + i) with (n + i) by lia.
      apply selected_cell1; lia.
    + intros i Hi Hout. rewrite decide_False; [done|].
      replace (1 * n + i) with (n + i) by lia.
      rewrite selected_cell1 by done. lia.
Qed.

Lemma binary32_of_int_small (l : list Z) :
  Forall (λ z, fround (of_int z) = of_int z) l → Forall binary32 (of_int <$> l).
Proof. intros H. by apply Forall_fmap. Qed.

(** The theorem applied to a soup of three triangles whose floats are
    1, 2, ..., 27. *)
Lemma TestTransform_halves_witness :
  TestTransform.transform (of_int <$> seqZ 1 27)
  = [(0, of_int <$> seqZ 1 9); (1, of_int <$> seqZ 10 18)].
Proof.
  change (TestTransform.transform (of_int <$> seqZ 1 27)
          = [(0, take (9 * (3 / 2)) (of_int <$> seqZ 1 27));
             (1, drop (9 * (3 / 2)) (of_int <$> seqZ 1 27))]).
  apply (TestTransform_halves (of_int <$> seqZ 1 27) 3).
  - reflexivity.
  - vm_compute. discriminate.
  - apply binary32_of_int_small.
    let l := eval vm_compute in (seqZ 1 27) in change (seqZ 1 27) with l.
    repeat (constructor; [vm_compute; reflexivity|]). constructor.
Defined.

(** ** The first test transform *)

Lemma testTransform_loop_stuck {A} (fuel : nat) (origPositions : list A)
    (idx : nat) :
  0 < length origPositions →
  Fracture_js.testTransform_loop fuel origPositions 0 0 idx = None.
Proof.
  intros Hlen. revert idx. induction fuel as [|fuel IH]; intros idx; [done|].
  simpl. rewrite decide_True by done. by rewrite IH.
Qed.

(** X16. [testTransform] of part_000 ends on every position array but one
    of a single float, on which its loop never ends: [half] is 0 and
    [start] stays 0, and every round makes one more empty fragment. *)
Theorem testTransform_ends_iff {A} (origPositions : list A) :
  (∃ fuel, is_Some (Fracture_js.testTransform fuel origPositions))
  ↔ length origPositions ≠ 1.
Proof.
  unfold Fracture_js.testTransform. split.
  - intros [fuel Hsome] Hone. rewrite Hone in Hsome.
    change (1 / 2) with 0 in Hsome.
    rewrite testTransform_loop_stuck in Hsome by lia.
    by destruct Hsome.
  - intros Hne. exists 4.
    set (half := length origPositions / 2).
    assert (length origPositions = 2 * half + length origPositions mod 2)
      as Hdm by apply Nat.div_mod_eq.
    pose proof (Nat.mod_upper_bound (length origPositions) 2) as Hmod.
    cbn [Fracture_js.testTransform_loop].
    repeat (destruct (decide _); [|by eexists]).
    lia.
Qed.

(** X17. On two floats or more, [testTransform] of part_000 cuts the
    positions into pieces of [half] floats: two pieces for an even length,
    and a third piece of one float for an odd one; put end to end the
    pieces are the positions. *)
Theorem testTransform_pieces {A} (origPositions : list A) (fuel : nat) :
  2 ≤ length origPositions →
  4 ≤ fuel →
  let half := length origPositions / 2 in
  let pieces :=
    [(0, take half origPositions);
     (1, take half (drop half origPositions))]
    ++ (if decide (length origPositions mod 2 = 0) then []
        else [(2, drop (2 * half) origPositions)]) in
  Fracture_js.testTransform fuel origPositions = Some pieces
  ∧ concat pieces.*2 = origPositions.
Proof.
  intros Hlen Hfuel half pieces.
  assert (length origPositions = 2 * half + length origPositions mod 2)
    as Hdm by apply Nat.div_mod_eq.
  pose proof (Nat.mod_upper_bound (length origPositions) 2) as Hmod.
  assert (0 < half) as Hhalf by lia.
  split.
  - unfold Fracture_js.testTransform. fold half.
    destruct fuel as [|[|[|[|fuel]]]]; try lia.
    unfold pieces. cbn [Fracture_js.testTransform_loop].
    rewrite decide_True by lia. rewrite decide_True by lia.
    cbn [Nat.add]. rewrite drop_0.
    destruct (decide (length origPositions mod 2 = 0)) as [Heven|Hodd].
    + rewrite decide_False by lia. done.
    + rewrite decide_True by lia. rewrite decide_False by lia.
      simpl. do 5 f_equal.
      replace (half + (half + 0)) with (half + half) by lia.
      apply take_ge. rewrite length_drop. lia.
  - unfold pieces.
    destruct (decide (length origPositions mod 2 = 0)) as [Heven|Hodd]; simpl.
    + rewrite app_nil_r, take_take_drop. apply take_ge. lia.
    + rewrite app_nil_r, app_assoc, take_take_drop.
      replace (half + (half + 0)) with (half + half) by lia.
      apply take_drop.
Qed.

(** The theorem applied to five floats. *)
Lemma testTransform_pieces_witness :
  Fracture_js.testTransform 4 [1; 2; 3; 4; 5]
  = Some [(0, [1; 2]); (1, [3; 4]); (2, [5])]
  ∧ concat [[1; 2]; [3; 4]; [5]] = [1; 2; 3; 4; 5].
Proof.
  apply (testTransform_pieces [1; 2; 3; 4; 5] 4); simpl; lia.
Defined.

(** ** The object traversal *)

Section Traversal.

Import Main_js.

Variable h : heap.

Lemma child_in_children (l : nat) (k : string) (c : nat) :
  (k, Obj c) ∈ entries_of h l → c ∈ children h.
Proof.
  unfold entries_of, children. intros Hin.
  destruct (h !! l) as [o|] eqn:Hl; [|by apply elem_of_nil in Hin].
  apply elem_of_list_to_set, list_elem_of_bind. exists (l, o). split.
  - apply list_elem_of_bind. exists (k, Obj c). split; [|done]. simpl. by left.
  - by apply elem_of_map_to_list.
Qed.

(** What one round of the [for] loop does to [visited] and the queue. *)
Lemma visit_children_spec (nd : node) (visited : gset nat) (queue : list node) :
  ∃ new,
    visit_children h nd (visited, queue)
    = (list_to_set (value <$> new) ∪ visited, queue ++ new)
    ∧ NoDup (value <$> new)
    ∧ Forall (λ m, (value m ∉ visited) ∧ is_view h (value m) = false
                   ∧ (∃ k, (k, Obj (value m)) ∈ entries_of h (value nd)
                           ∧ path m = path nd ++ [k])) new
    ∧ (∀ k c, (k, Obj c) ∈ entries_of h (value nd) → is_view h c = false →
              c ∈ visited ∨ c ∈ value <$> new).
Proof.
  unfold visit_children.
  induction (entries_of h (value nd)) as [|e es IH] using rev_ind.
  - exists []. simpl. rewrite (left_id_L ∅ (∪)), app_nil_r. split; [done|].
    split; [constructor|]. split; [constructor|].
    intros k c Hin. by apply elem_of_nil in Hin.
  - destruct IH as (new & Heq & Hnd & Hnew & Hcl).
    rewrite foldl_snoc, Heq. cbn [fst snd].
    assert (Forall (λ m, (value m ∉ visited) ∧ is_view h (value m) = false
                   ∧ (∃ k, (k, Obj (value m)) ∈ es ++ [e]
                           ∧ path m = path nd ++ [k])) new) as Hnew'.
    { eapply Forall_impl; [exact Hnew|]. intros m (? & ? & k & ? & ?).
      split; [done|]. split; [done|]. exists k. split; [|done].
      apply elem_of_app. by left. }
    destruct e as [k0 [child|]]; cbn [fst snd].
    + destruct (is_view h child) eqn:Hview;
        [|destruct (decide (child ∈ list_to_set (value <$> new) ∪ visited))
            as [Hvis|Hvis]].
      * exists new. split; [done|]. split; [done|]. split; [done|].
        intros k c Hin Hc. apply elem_of_app in Hin as [Hin|Hin]; [by eauto|].
        apply list_elem_of_singleton in Hin. congruence.
      * exists new. split; [done|]. split; [done|]. split; [done|].
        intros k c Hin Hc. apply elem_of_app in Hin as [Hin|Hin]; [by eauto|].
        apply list_elem_of_singleton in Hin. simplify_eq.
        apply elem_of_union in Hvis as [Hvis|Hvis]; [right|by left].
        by apply elem_of_list_to_set in Hvis.
      * exists (new ++ [mkNode child (path nd ++ [k0])]).
        rewrite fmap_app. cbn [fmap list_fmap value].
        split; [|split; [|split]].
        -- rewrite app_assoc. f_equal. apply set_eq. intros x.
           rewrite !elem_of_union, !elem_of_list_to_set, elem_of_app,
             list_elem_of_singleton, elem_of_singleton.
           tauto.
        -- apply NoDup_app. split; [done|]. split; [|apply NoDup_singleton].
           intros x Hx Hx'. apply list_elem_of_singleton in Hx'. subst x.
           apply Hvis, elem_of_union. left. by apply elem_of_list_to_set.
        -- apply Forall_app. split; [done|]. apply Forall_singleton. simpl.
           split; [|split; [done|]].
           { intros Hv. apply Hvis, elem_of_union. by right. }
           exists k0. split; [|done].
           apply elem_of_app. right. by left.
        -- intros k c Hin Hc. apply elem_of_app in Hin as [Hin|Hin].
           ++ destruct (Hcl k c Hin Hc) as [?|?]; [by left|right].
              apply elem_of_app. by left.
           ++ apply list_elem_of_singleton in Hin. simplify_eq.
              right. apply elem_of_app. right. by left.
    + exists new. split; [done|]. split; [done|]. split; [done|].
      intros k c Hin Hc. apply elem_of_app in Hin as [Hin|Hin]; [by eauto|].
      apply list_elem_of_singleton in Hin. simplify_eq.
Qed.

(** Objects newly marked as visited leave the set of those that are not. *)
Lemma size_unvisited (U visited : gset nat) (vs : list nat) :
  NoDup vs → Forall (λ v, v ∈ U ∧ v ∉ visited) vs →
  size (U ∖ (list_to_set vs ∪ visited)) + length vs = size (U ∖ visited).
Proof.
  intros Hnd. revert visited.
  induction Hnd as [|v vs Hv Hnd IH]; intros visited Hvs.
  - simpl. by rewrite (left_id_L ∅ (∪)), Nat.add_0_r.
  - apply Forall_cons in Hvs as [[HvU Hvv] Hvs].
    assert (U ∖ visited = {[v]} ∪ U ∖ ({[v]} ∪ visited)) as ->.
    { apply set_eq. intros x.
      rewrite elem_of_union, !elem_of_difference, elem_of_union,
        elem_of_singleton.
      destruct (decide (x = v)) as [->|]; tauto. }
    rewrite (size_union {[v]} (U ∖ ({[v]} ∪ visited))).
    + rewrite size_singleton, <- (IH ({[v]} ∪ visited)).
      * simpl.
        replace (list_to_set vs ∪ ({[v]} ∪ visited))
          with ({[v]} ∪ list_to_set vs ∪ visited); [lia|].
        apply set_eq. intros x. rewrite !elem_of_union. tauto.
      * rewrite Forall_forall in Hvs. apply Forall_forall. intros x Hx.
        destruct (Hvs x Hx) as [? ?]. split; [done|].
        apply not_elem_of_union. split; [|done].
        intros ->%elem_of_singleton. done.
    + intros x Hx Hx'. apply elem_of_singleton in Hx. subst x.
      apply elem_of_difference in Hx' as [_ Hx'].
      apply Hx', elem_of_union. left. by apply elem_of_singleton.
Qed.

(** The loop ends: every round takes one node off the queue, and a node is
    pushed only for an object that was not visited before. *)
Lemma traverse_ends (fuel : nat) (visited : gset nat) (queue : list node) :
  size (children h ∖ visited) + length queue < fuel →
  is_Some (traverse h fuel visited queue).
Proof.
  revert visited queue.
  induction fuel as [|fuel IH]; intros visited queue Hfuel; [lia|].
  destruct queue as [|nd queue]; [by eexists|].
  cbn [traverse].
  destruct (visit_children_spec nd visited queue) as (new & -> & Hnd & Hnew & _).
  cbn [fst snd].
  destruct (IH (list_to_set (value <$> new) ∪ visited) (queue ++ new))
    as [res ->]; [|by eexists].
  pose proof (size_unvisited (children h) visited (value <$> new) Hnd) as Hsz.
  rewrite length_fmap in Hsz. rewrite length_app. simpl in Hfuel.
  rewrite <- Hsz in Hfuel; [lia|].
  apply Forall_fmap. eapply Forall_impl; [exact Hnew|]. simpl.
  intros m (? & ? & k & Hk & ?). split; [|done].
  by apply (child_in_children (value nd) k).
Qed.

Lemma traverse_more_fuel (fuel fuel' : nat) (visited : gset nat)
    (queue res : list node) :
  traverse h fuel visited queue = Some res → fuel ≤ fuel' →
  traverse h fuel' visited queue = Some res.
Proof.
  revert fuel' visited queue res.
  induction fuel as [|fuel IH]; intros fuel' visited queue res Hres Hle;
    [done|].
  destruct fuel' as [|fuel']; [lia|].
  destruct queue as [|nd queue]; [done|].
  cbn [traverse] in *.
  destruct (traverse h fuel _ _) as [r|] eqn:Hr; [|done].
  rewrite (IH fuel' _ _ r); [done|done|lia].
Qed.

Variable root : nat.

(** What the loop yields from a state of [visited] and [queue]: the queue,
    then the nodes pushed later. *)
Lemma traverse_sound (fuel : nat) (visited : gset nat) (queue res : list node) :
  traverse h fuel visited queue = Some res →
  ∃ out,
    res = queue ++ out
    ∧ (queue = [] → out = [])
    ∧ NoDup (value <$> out)
    ∧ Forall (λ m, (value m ∉ visited) ∧ is_view h (value m) = false
                   ∧ value m ∈ children h) out
    ∧ (Forall (λ m, reaches h root (path m) (value m)) queue →
       Forall (λ m, reaches h root (path m) (value m)) out)
    ∧ (StronglySorted (λ a b, depth a ≤ depth b) queue →
       (∀ hd m, head queue = Some hd → m ∈ queue → depth m ≤ S (depth hd)) →
       StronglySorted (λ a b, depth a ≤ depth b) (queue ++ out))
    ∧ (∀ a k c, a ∈ value <$> res → (k, Obj c) ∈ entries_of h a →
                is_view h c = false → c ∈ visited ∨ c ∈ value <$> out).
Proof.
  revert visited queue res.
  induction fuel as [|fuel IH]; intros visited queue res Hres; [done|].
  destruct queue as [|nd queue].
  - injection Hres as <-. exists []. split; [done|]. split; [done|].
    split; [constructor|]. split; [constructor|]. split; [done|].
    split; [intros; constructor|].
    intros a k c Ha. by apply elem_of_nil in Ha.
  - cbn [traverse] in Hres.
    destruct (visit_children_spec nd visited queue)
      as (new & Hvc & Hnd & Hnew & Hcl).
    rewrite Hvc in Hres. cbn [fst snd] in Hres.
    destruct (traverse h fuel _ _) as [r|] eqn:Hr; [|done].
    injection Hres as <-.
    destruct (IH _ _ _ Hr)
      as (out & -> & Hnil & Hnd' & Hout & Hwf & Hord & Hclo).
    rewrite Forall_forall in Hnew. rewrite Forall_forall in Hout.
    assert (∀ m, m ∈ new → depth m = S (depth nd)) as Hdepth.
    { intros m Hm. destruct (Hnew m Hm) as (_ & _ & k & _ & Hp).
      unfold depth. rewrite Hp, length_app. simpl. lia. }
    exists (new ++ out). split; [by rewrite <- app_assoc|].
    split; [done|]. split; [|split; [|split; [|split]]].
    + rewrite fmap_app. apply NoDup_app. split; [done|]. split; [|done].
      intros x Hx Hx'. apply list_elem_of_fmap in Hx' as (m & -> & Hm).
      destruct (Hout m Hm) as (Hnot & _). apply Hnot, elem_of_union. left.
      by apply elem_of_list_to_set.
    + apply Forall_app. split; apply Forall_forall; intros m Hm.
      * destruct (Hnew m Hm) as (? & ? & k & Hk & ?).
        split; [done|]. split; [done|].
        by apply (child_in_children (value nd) k).
      * destruct (Hout m Hm) as (Hnot & ? & ?). split; [|done].
        intros Hv. apply Hnot, elem_of_union. by right.
    + intros Hq. apply Forall_cons in Hq as [Hqnd Hq].
      assert (Forall (λ m, reaches h root (path m) (value m)) new) as Hwn.
      { apply Forall_forall. intros m Hm.
        destruct (Hnew m Hm) as (_ & _ & k & Hk & ->).
        by apply (reaches_child h root _ (value nd)). }
      apply Forall_app. split; [done|]. apply Hwf. by apply Forall_app.
    + intros Hsorted Hwin.
      apply StronglySorted_cons in Hsorted as [Hge Hsorted].
      rewrite Forall_forall in Hge.
      assert (∀ m, m ∈ queue ++ new → depth nd ≤ depth m ≤ S (depth nd))
        as Hrange.
      { intros m Hm. apply elem_of_app in Hm as [Hm|Hm].
        - split; [by apply Hge|]. apply (Hwin nd); [done|by right].
        - rewrite (Hdepth m Hm). lia. }
      assert (StronglySorted (λ a b, depth a ≤ depth b)
                ((queue ++ new) ++ out)) as Hall.
      { apply Hord.
        - apply StronglySorted_app. split; [|split; [done|]].
          + intros x1 x2 H1 H2. rewrite (Hdepth x2 H2).
            apply Hrange, elem_of_app. by left.
          + clear -Hdepth. induction new as [|m new' IHn]; [constructor|].
            constructor.
            * apply IHn. intros m' Hm'. apply Hdepth. by right.
            * apply Forall_forall. intros m' Hm'.
              rewrite (Hdepth m) by (by left).
              rewrite (Hdepth m') by (by right). done.
        - intros hd m Hhd Hm.
          assert (hd ∈ queue ++ new) as Hhd'
            by (destruct (queue ++ new); simplify_eq/=; by left).
          pose proof (Hrange hd Hhd'). pose proof (Hrange m Hm). lia. }
      rewrite <- app_comm_cons, app_assoc.
      apply StronglySorted_cons. split; [|done].
      apply Forall_forall. intros m Hm.
      apply elem_of_app in Hm as [Hm|Hm]; [by apply Hrange|].
      destruct (queue ++ new) as [|hd rest] eqn:Hqn.
      * rewrite Hnil in Hm by done. by apply elem_of_nil in Hm.
      * assert (depth nd ≤ depth hd) by (apply Hrange; by left).
        simpl in Hall. apply StronglySorted_cons in Hall as [Hhd _].
        rewrite Forall_forall in Hhd.
        assert (depth hd ≤ depth m)
          by (apply Hhd, elem_of_app; by right).
        lia.
    + intros a k c Ha Hk Hc. rewrite fmap_cons in Ha.
      rewrite fmap_app.
      apply elem_of_cons in Ha as [->|Ha].
      * destruct (Hcl k c Hk Hc) as [?|?]; [by left|right].
        apply elem_of_app. by left.
      * destruct (Hclo a k c Ha Hk Hc) as [Hv|Hv].
        -- apply elem_of_union in Hv as [Hv|Hv]; [right|by left].
           apply elem_of_app. left. by apply elem_of_list_to_set in Hv.
        -- right. apply elem_of_app. by right.
Qed.

End Traversal.

Section TraversalFromRoot.

Import Main_js.

Variable h : heap.
Variable root : nat.

(** The whole run: the root, then nodes for distinct objects. *)
Lemma breadthFirstTraverse_sound (fuel : nat) (nodes : list node) :
  breadthFirstTraverse h fuel root = Some nodes →
  ∃ out,
    nodes = mkNode root [] :: out
    ∧ NoDup (value <$> out)
    ∧ Forall (λ m, is_view h (value m) = false ∧ value m ∈ children h) out
    ∧ Forall (λ m, reaches h root (path m) (value m)) nodes
    ∧ StronglySorted (λ a b, depth a ≤ depth b) nodes
    ∧ (∀ a k c, a ∈ value <$> nodes → (k, Obj c) ∈ entries_of h a →
                is_view h c = false → c ∈ value <$> out).
Proof.
  intros Hres. unfold breadthFirstTraverse in Hres.
  destruct (traverse_sound h root _ _ _ _ Hres)
    as (out & -> & _ & Hnd & Hout & Hwf & Hord & Hclo).
  assert (Forall (λ m, reaches h root (path m) (value m)) [mkNode root []])
    as Hroot by (apply Forall_singleton; constructor).
  exists out. split; [done|]. split; [done|]. split; [|split; [|split]].
  - eapply Forall_impl; [exact Hout|]. simpl. tauto.
  - apply Forall_app. split; [done|]. by apply Hwf.
  - apply Hord.
    + repeat constructor.
    + intros hd m [= <-] Hm. apply list_elem_of_singleton in Hm. subst m. lia.
  - intros a k c Ha Hk Hc. destruct (Hclo a k c Ha Hk Hc) as [Hv|Hv]; [|done].
    by apply elem_of_empty in Hv.
Qed.

Lemma linked_in_nodes (fuel : nat) (nodes : list node) (l : nat) :
  breadthFirstTraverse h fuel root = Some nodes →
  linked h root l → l ∈ value <$> nodes.
Proof.
  intros Hres Hl.
  destruct (breadthFirstTraverse_sound fuel nodes Hres)
    as (out & -> & _ & _ & _ & _ & Hclo).
  induction Hl as [|b k child Hb IH Hk Hview].
  - rewrite fmap_cons. by left.
  - rewrite fmap_cons. right. by apply (Hclo b k).
Qed.

End TraversalFromRoot.

(** X18. On every heap, also one with cycles, [breadthFirstTraverse] ends:
    it yields the root and then at most one node for each object that some
    property refers to, none of them for an object with an [ArrayBuffer]
    behind it. *)
Theorem breadthFirstTraverse_ends (h : Main_js.heap) (root : nat) :
  ∃ fuel out,
    (∀ fuel', fuel ≤ fuel' →
       Main_js.breadthFirstTraverse h fuel' root
       = Some (Main_js.mkNode root [] :: out))
    ∧ NoDup (Main_js.value <$> out)
    ∧ Forall (λ m, Main_js.is_view h (Main_js.value m) = false) out
    ∧ length out ≤ size (Main_js.children h).
Proof.
  set (fuel := S (S (size (Main_js.children h ∖ ∅)))).
  destruct (traverse_ends h fuel ∅ [Main_js.mkNode root []]) as [nodes Hres];
    [simpl; lia|].
  destruct (breadthFirstTraverse_sound h root fuel nodes Hres)
    as (out & -> & Hnd & Hout & _).
  exists fuel, out. split; [|split; [done|split]].
  - intros fuel' Hle. by apply (traverse_more_fuel h fuel).
  - eapply Forall_impl; [exact Hout|]. simpl. tauto.
  - rewrite <- (length_fmap Main_js.value), <- (size_list_to_set (C:=gset nat))
      by done.
    apply subseteq_size. intros x Hx. apply elem_of_list_to_set in Hx.
    apply list_elem_of_fmap in Hx as (m & -> & Hm).
    rewrite Forall_forall in Hout. by apply Hout.
Qed.

(** X19. Every node that [breadthFirstTraverse] yields carries a path whose
    keys lead from the root to the node's object, and the nodes come in the
    order of the length of their paths: breadth first. *)
Theorem yielded_paths_lead_to_values (h : Main_js.heap) (root fuel : nat)
    (nodes : list Main_js.node) :
  Main_js.breadthFirstTraverse h fuel root = Some nodes →
  Forall (λ m, Main_js.reaches h root (Main_js.path m) (Main_js.value m)) nodes
  ∧ StronglySorted (λ a b, Main_js.depth a ≤ Main_js.depth b) nodes.
Proof.
  intros Hres.
  destruct (breadthFirstTraverse_sound h root fuel nodes Hres)
    as (out & _ & _ & _ & Hwf & Hord & _).
  done.
Qed.

(** The theorem applied to the example heap. *)
Lemma yielded_paths_lead_to_values_witness :
  Forall (λ m, Main_js.reaches example_heap 0 (Main_js.path m) (Main_js.value m))
         example_nodes
  ∧ StronglySorted (λ a b, Main_js.depth a ≤ Main_js.depth b) example_nodes.
Proof.
  apply (yielded_paths_lead_to_values example_heap 0 5 example_nodes).
  vm_compute. reflexivity.
Defined.

(** X20. Nothing within reach is missed: every object that can be found
    from the root through objects without an [ArrayBuffer] behind them is
    the value of a yielded node. *)
Theorem linked_objects_are_yielded (h : Main_js.heap) (root fuel : nat)
    (nodes : list Main_js.node) (l : nat) :
  Main_js.breadthFirstTraverse h fuel root = Some nodes →
  Main_js.linked h root l →
  l ∈ Main_js.value <$> nodes.
Proof. apply linked_in_nodes. Qed.

Lemma example_linked_1 : Main_js.linked example_heap 0 1.
Proof.
  apply (Main_js.linked_step _ _ 0 "mesh"); [constructor| |done].
  vm_compute. left.
Qed.

Lemma example_linked_3 : Main_js.linked example_heap 0 3.
Proof.
  apply (Main_js.linked_step _ _ 1 "geometry"); [apply example_linked_1| |done].
  vm_compute. right. left.
Qed.

(** The theorem applied to object 3 of the example heap. *)
Lemma linked_objects_are_yielded_witness :
  3 ∈ Main_js.value <$> example_nodes.
Proof.
  apply (linked_objects_are_yielded example_heap 0 5 example_nodes 3).
  - vm_compute. reflexivity.
  - apply example_linked_3.
Defined.

(** X21. The root is not marked as visited. When some object within reach
    refers back to it, the root is yielded a second time, with the path of
    that cycle; every other object is yielded once. *)
Theorem root_on_cycle_yielded_twice (h : Main_js.heap) (root fuel : nat)
    (nodes : list Main_js.node) (b : nat) (k : string) :
  Main_js.breadthFirstTraverse h fuel root = Some nodes →
  Main_js.linked h root b →
  (k, Main_js.Obj root) ∈ Main_js.entries_of h b →
  Main_js.is_view h root = false →
  ∃ out, nodes = Main_js.mkNode root [] :: out
         ∧ root ∈ Main_js.value <$> out
         ∧ NoDup (Main_js.value <$> out).
Proof.
  intros Hres Hb Hk Hview.
  destruct (breadthFirstTraverse_sound h root fuel nodes Hres)
    as (out & Heq & Hnd & _ & _ & _ & Hclo).
  exists out. split; [done|]. split; [|done].
  apply (Hclo b k); [|done|done].
  by apply (linked_in_nodes h root fuel).
Qed.

(** The theorem applied to the example heap, whose object 1 refers back to
    the root. *)
Lemma root_on_cycle_yielded_twice_witness :
  ∃ out, example_nodes = Main_js.mkNode 0 [] :: out
         ∧ 0 ∈ Main_js.value <$> out
         ∧ NoDup (Main_js.value <$> out).
Proof.
  apply (root_on_cycle_yielded_twice example_heap 0 5 example_nodes 1 "parent").
  - vm_compute. reflexivity.
  - apply example_linked_1.
  - vm_compute. left.
  - vm_compute. reflexivity.
Defined.

(** ** The shader module cache *)

Lemma getShaderModuleForDevice_consistent (device : nat) (st : ShaderCache) :
  cache_consistent st →
  let r := getShaderModuleForDevice device st in
  cache_consistent r.2
  ∧ created_on r.2 !! r.1 = Some device
  ∧ ∃ new, created_on r.2 = created_on st ++ new.
Proof.
  intros Hst. unfold getShaderModuleForDevice. cbv zeta.
  destruct (shaderModuleForDevice st !! device) as [existing|] eqn:Hget;
    cbn [fst snd].
  - split; [done|]. split; [by apply Hst|]. exists []. by rewrite app_nil_r.
  - unfold cache_consistent. cbn [created_on shaderModuleForDevice].
    split; [|split; [|by eexists]].
    + intros d m. destruct (decide (d = device)) as [->|Hne].
      * rewrite lookup_insert_eq. split.
        -- intros [= <-]. by rewrite lookup_app_r, Nat.sub_diag by lia.
        -- intros Hm. f_equal.
           destruct (decide (m < length (created_on st))) as [Hlt|Hge].
           ++ rewrite lookup_app_l in Hm by done. apply Hst in Hm. congruence.
           ++ apply lookup_lt_Some in Hm. rewrite length_app in Hm.
              simpl in Hm. lia.
      * rewrite lookup_insert_ne by done. rewrite (Hst d m). split.
        -- intros Hm. rewrite lookup_app_l; [done|].
           by apply lookup_lt_Some in Hm.
        -- intros Hm.
           destruct (decide (m < length (created_on st))) as [Hlt|Hge].
           ++ by rewrite lookup_app_l in Hm.
           ++ rewrite lookup_app_r in Hm by lia.
              apply list_lookup_singleton_Some in Hm as [_ ?]. congruence.
    + by rewrite lookup_app_r, Nat.sub_diag by lia.
Qed.

Lemma getShaderModules_consistent (devices : list nat) (st : ShaderCache) :
  cache_consistent st →
  let r := getShaderModules devices st in
  cache_consistent r.2
  ∧ (∃ new, created_on r.2 = created_on st ++ new)
  ∧ length r.1 = length devices
  ∧ ∀ i device module, devices !! i = Some device → r.1 !! i = Some module →
      created_on r.2 !! module = Some device.
Proof.
  revert st. induction devices as [|d devices IH]; intros st Hst; cbv zeta.
  - simpl. split; [done|]. split; [exists []; by rewrite app_nil_r|].
    split; [done|]. intros i device module Hi. by rewrite lookup_nil in Hi.
  - cbn [getShaderModules fst snd].
    destruct (getShaderModuleForDevice_consistent d st Hst)
      as (Hst1 & Hd & new1 & Hnew1).
    destruct (IH _ Hst1) as (Hst2 & (new2 & Hnew2) & Hlen & Hall).
    split; [done|]. split; [|split].
    + exists (new1 ++ new2). by rewrite Hnew2, Hnew1, app_assoc.
    + simpl. by rewrite Hlen.
    + intros [|i] device module Hi Hm; simpl in Hi, Hm.
      * injection Hi as <-. injection Hm as <-.
        rewrite Hnew2. apply lookup_app_l_Some. done.
      * by apply (Hall i).
Qed.

(** X22. Over any sequence of calls, starting with an empty cache,
    [getShaderModuleForDevice] returns for each device the module that was
    made on it, and no device has two modules made: two calls return the
    same module exactly when they are for the same device. *)
Theorem shader_module_made_once_per_device (devices : list nat) :
  let r := getShaderModules devices (mkShaderCache ∅ []) in
  length r.1 = length devices
  ∧ NoDup (created_on r.2)
  ∧ (∀ i device module, devices !! i = Some device → r.1 !! i = Some module →
       created_on r.2 !! module = Some device)
  ∧ (∀ i j d d' m m', devices !! i = Some d → devices !! j = Some d' →
       r.1 !! i = Some m → r.1 !! j = Some m' → (m = m' ↔ d = d')).
Proof.
  cbv zeta.
  assert (cache_consistent (mkShaderCache ∅ [])) as Hempty.
  { intros d m. simpl. by rewrite lookup_empty, lookup_nil. }
  destruct (getShaderModules_consistent devices _ Hempty)
    as (Hst & _ & Hlen & Hall).
  split; [done|]. split; [|split; [done|]].
  - apply NoDup_alt. intros m m' d Hm Hm'.
    apply Hst in Hm, Hm'. congruence.
  - intros i j d d' m m' Hi Hj Hm Hm'.
    pose proof (Hall i d m Hi Hm) as H1.
    pose proof (Hall j d' m' Hj Hm') as H2.
    split.
    + intros <-. congruence.
    + intros <-. apply Hst in H1, H2. congruence.
Qed.
